(** * The job execution engine of the STT studio ([app.py])

    A shallow embedding of the parts of [app.py] that the specification's
    testable properties talk about, and the theorems that settle them:
    transcript normalisation, subtitle line splitting and time allocation,
    SRT timestamps, voice-activity segmentation, the empty-transcript retry
    of the transcription task, and the job registry with [process_job].

    Conventions of the embedding.
    - A Python [str] is a list of Unicode code points ([pystr]); [len] is
      [length], slicing is [firstn]/[skipn].
    - A Python [float] holding seconds is an exact rational ([Q]); rounding
      error of binary floating point is not modelled.
    - Regular-expression substitutions are written as the list functions
      they denote; every such function states the expression it renders.
    - External collaborators (the transcoder, the VAD library, the HTTP
      providers, the wall clock, the filesystem) are oracles: data of an
      environment record, or explicit components of the state. *)

From Stdlib Require Import ZArith NArith QArith Qround Qminmax.
From Stdlib Require Import List String Ascii Bool Lia Lqa.
From Stdlib Require Import DecimalString DecimalPos DecimalN.
From stdpp Require Import base option list gmap strings.
Import ListNotations.

(** ** Python strings as lists of code points *)

Module PyStr.

Local Open Scope N_scope.

Definition char := N.
Definition pystr := list char.

(** String literals of the source are UTF-8 in this file too; [py] decodes
    a literal into its code points. *)
Fixpoint utf8_decode (bs : list N) : pystr :=
  match bs with
  | [] => []
  | b0 :: r0 =>
    if (b0 <? 0x80) then b0 :: utf8_decode r0
    else match r0 with
      | [] => []
      | b1 :: r1 =>
        if (b0 <? 0xE0)
        then ((b0 - 0xC0) * 64 + (b1 - 0x80)) :: utf8_decode r1
        else match r1 with
          | [] => []
          | b2 :: r2 =>
            if (b0 <? 0xF0)
            then ((b0 - 0xE0) * 4096 + (b1 - 0x80) * 64 + (b2 - 0x80))
                   :: utf8_decode r2
            else match r2 with
              | [] => []
              | b3 :: r3 =>
                ((b0 - 0xF0) * 262144 + (b1 - 0x80) * 4096
                 + (b2 - 0x80) * 64 + (b3 - 0x80)) :: utf8_decode r3
              end
          end
      end
  end.

Definition py (s : string) : pystr :=
  utf8_decode (map N_of_ascii (list_ascii_of_string s)).

Definition in_range (lo hi c : char) : bool := (lo <=? c) && (c <=? hi).
Definition one_of (cs : list char) (c : char) : bool := existsb (N.eqb c) cs.

(** [str.isspace], which is also the class [\s] of [re] on [str] patterns. *)
Definition isspace (c : char) : bool :=
  in_range 0x09 0x0D c || in_range 0x1C 0x20 c
  || one_of [0x85; 0xA0; 0x1680; 0x2028; 0x2029; 0x202F; 0x205F; 0x3000] c
  || in_range 0x2000 0x200A c.

(** [A-Za-z0-9] *)
Definition is_ascii_alnum (c : char) : bool :=
  in_range 0x41 0x5A c || in_range 0x61 0x7A c || in_range 0x30 0x39 c.

(** The truth value of a string or a list: [if s], [if not s]. *)
Definition nonempty {A} (s : list A) : bool :=
  match s with [] => false | _ :: _ => true end.

Fixpoint lstrip (s : pystr) : pystr :=
  match s with
  | [] => []
  | c :: t => if isspace c then lstrip t else s
  end.
Definition rstrip (s : pystr) : pystr := rev (lstrip (rev s)).
(** [s.strip()] *)
Definition strip (s : pystr) : pystr := rstrip (lstrip s).

(** [s.replace(a, b)] for single characters. *)
Definition replace_char (a b : char) (s : pystr) : pystr :=
  map (fun c => if (c =? a) then b else c) s.

(** [s.lower()] on the ASCII letters. Outside ASCII the only code points
    whose lower case contains an ASCII letter are U+0130 and U+212A; the
    model names accepted by the service are ASCII. *)
Definition lower (s : pystr) : pystr :=
  map (fun c => if in_range 0x41 0x5A c then (c + 32) else c) s.

Fixpoint starts_with (p s : pystr) : bool :=
  match p, s with
  | [], _ => true
  | _ :: _, [] => false
  | a :: p', b :: s' => (a =? b) && starts_with p' s'
  end.
(** [needle in hay] *)
Fixpoint contains (needle hay : pystr) : bool :=
  starts_with needle hay ||
  match hay with
  | [] => false
  | _ :: t => contains needle t
  end.

(** [re.sub(cls{minlen,}, rep, s)]: every maximal run of characters of the
    class [cls] that has at least [minlen] characters is replaced by [rep];
    shorter runs stay. [run] is the run being read. *)
Definition emit_run (minlen : nat) (rep run : pystr) : pystr :=
  match run with
  | [] => []
  | _ :: _ => if (minlen <=? length run)%nat then rep else run
  end.
Fixpoint sub_runs_from (cls : char -> bool) (minlen : nat) (rep run s : pystr)
  : pystr :=
  match s with
  | [] => emit_run minlen rep run
  | c :: t =>
    if cls c then sub_runs_from cls minlen rep (run ++ [c]) t
    else emit_run minlen rep run ++ c :: sub_runs_from cls minlen rep [] t
  end.
Definition sub_runs cls minlen rep s := sub_runs_from cls minlen rep [] s.

(** A context condition on a whitespace run: the character just before it
    and the character just after it, [None] at the ends of the string. *)
Definition ctx := option char -> option char -> bool.

(** [re.sub] of a pattern that is one whitespace run [\s+] with a condition
    on the characters around it (a look-behind, a look-ahead, or a captured
    neighbour that is put back): every maximal whitespace run whose context
    satisfies [cond] is deleted. The neighbours are never whitespace, so
    the run matched is the maximal one. *)
Fixpoint drop_ws_from (cond : ctx) (prev : option char) (run s : pystr)
  : pystr :=
  match s with
  | [] => if cond prev None then [] else run
  | c :: t =>
    if isspace c then drop_ws_from cond prev (run ++ [c]) t
    else (if cond prev (Some c) then [] else run)
           ++ c :: drop_ws_from cond (Some c) [] t
  end.
Definition drop_ws (cond : ctx) (s : pystr) : pystr :=
  drop_ws_from cond None [] s.

Definition is_some_in (cls : char -> bool) (o : option char) : bool :=
  match o with Some c => cls c | None => false end.
Definition opt_is (c : char) (o : option char) : bool :=
  match o with Some d => (d =? c) | None => false end.

(** [re.sub(r"([cls])\1{2,}", r"\1\1", s)]: a maximal run of three or more
    copies of one character of [cls] keeps two of them. Read locally: a
    copy that has the same character on both sides goes away. *)
Fixpoint squeeze_from (cls : char -> bool) (prev : option char) (s : pystr)
  : pystr :=
  match s with
  | [] => []
  | c :: t =>
    if cls c && opt_is c prev && opt_is c (head t)
    then squeeze_from cls (Some c) t
    else c :: squeeze_from cls (Some c) t
  end.
Definition squeeze (cls : char -> bool) (s : pystr) : pystr :=
  squeeze_from cls None s.

End PyStr.
Import PyStr.

(** ** Transcript normalisation and subtitle text *)

Module Text.

Local Open Scope N_scope.

(** The character classes of [normalize_transcript_text]. *)
Definition cjk (c : char) : bool :=
  in_range 0x4E00 0x9FFF c || in_range 0x3040 0x30FF c
  || in_range 0x31F0 0x31FF c || in_range 0xAC00 0xD7AF c.
(** [[,，。！？!?:：；;]] *)
Definition punct_tight (c : char) : bool :=
  one_of [0x2C; 0xFF0C; 0x3002; 0xFF01; 0xFF1F; 0x21; 0x3F; 0x3A; 0xFF1A;
          0xFF1B; 0x3B] c.
(** [[\(（\[【{]] *)
Definition bracket_open (c : char) : bool :=
  one_of [0x28; 0xFF08; 0x5B; 0x3010; 0x7B] c.
(** [[\)）\]】}]] *)
Definition bracket_close (c : char) : bool :=
  one_of [0x29; 0xFF09; 0x5D; 0x3011; 0x7D] c.
(** [[!?！？。.,，]] *)
Definition punct_rep (c : char) : bool :=
  one_of [0x21; 0x3F; 0xFF01; 0xFF1F; 0x3002; 0x2E; 0x2C; 0xFF0C] c.
(** [[，。！？、；：]] *)
Definition punct_cjk (c : char) : bool :=
  one_of [0xFF0C; 0x3002; 0xFF01; 0xFF1F; 0x3001; 0xFF1B; 0xFF1A] c.
(** [[\t\r\f\v]] *)
Definition blank_ctl (c : char) : bool := one_of [0x09; 0x0D; 0x0C; 0x0B] c.
Definition newline (c : char) : bool := (c =? 0x0A).

Definition SP : char := 0x20.

(** The context conditions of the whitespace-deleting substitutions. *)
Definition between_cjk : ctx :=
  fun p n => is_some_in cjk p && is_some_in cjk n.
Definition before_punct : ctx := fun _ n => is_some_in punct_tight n.
Definition after_open : ctx := fun p _ => is_some_in bracket_open p.
Definition before_close : ctx := fun _ n => is_some_in bracket_close n.
Definition cjk_then_punct : ctx :=
  fun p n => is_some_in cjk p && is_some_in punct_cjk n.
Definition punct_then_cjk : ctx :=
  fun p n => is_some_in punct_cjk p && is_some_in cjk n.

(** The branch condition
    [language in {"zh","ja","auto"} or "whisper" in model_l or "kotoba" in model_l]. *)
Definition cjk_mode (language model : pystr) : bool :=
  let model_l := lower model in
  bool_decide (language = py "zh") || bool_decide (language = py "ja")
  || bool_decide (language = py "auto")
  || contains (py "whisper") model_l || contains (py "kotoba") model_l.

(** Lines [926]-[929]: full-width space, control blanks, newlines, runs. *)
Definition tidy_spaces (x : pystr) : pystr :=
  let x := replace_char 0x3000 SP x in
  let x := sub_runs blank_ctl 1 [SP] x in
  let x := sub_runs newline 1 [SP] x in
  strip (sub_runs isspace 2 [SP] x).

(** Lines [933]-[951]. *)
Definition tighten (cjk_again : bool) (x : pystr) : pystr :=
  let x := drop_ws between_cjk x in
  let x := drop_ws before_punct x in
  let x := drop_ws after_open x in
  let x := drop_ws before_close x in
  let x := squeeze punct_rep x in
  let x :=
    if cjk_again then
      let x := drop_ws between_cjk x in
      let x := drop_ws cjk_then_punct x in
      drop_ws punct_then_cjk x
    else x in
  strip x.

(** The fragment of [html.unescape] for the named references [&amp;],
    [&lt;], [&gt;] and [&quot;]; every other ampersand is left as written.
    It agrees with the library function on every text in which each
    ampersand either starts one of these four references or is followed by
    a space or by the end of the text. [skip] counts the characters of a
    reference still to be passed over. *)
Fixpoint html_unescape_from (skip : nat) (s : pystr) : pystr :=
  match s with
  | [] => []
  | c :: t =>
    match skip with
    | S k => html_unescape_from k t
    | O =>
      if (c =? 0x26) then
        if starts_with (py "amp;") t then 0x26 :: html_unescape_from 4 t
        else if starts_with (py "lt;") t then 0x3C :: html_unescape_from 3 t
        else if starts_with (py "gt;") t then 0x3E :: html_unescape_from 3 t
        else if starts_with (py "quot;") t then 0x22 :: html_unescape_from 5 t
        else c :: html_unescape_from 0 t
      else c :: html_unescape_from 0 t
    end
  end.
Definition html_unescape_named (s : pystr) : pystr := html_unescape_from 0 s.


(** *** Tidy strings and their tokens

    After [tidy_spaces] every whitespace character stands alone between two
    other characters. Such a string is read as a list of tokens: a
    character that is not whitespace, with the single whitespace character
    before it if there is one. The substitutions of [tighten] act on tokens
    one by one, which is what makes a second pass change nothing. *)

Definition token := (option char * char)%type.

Definition untok1 (t : token) : pystr :=
  match t.1 with Some w => [w; t.2] | None => [t.2] end.
Definition untok (T : list token) : pystr := flat_map untok1 T.

(** A whitespace character that [tidy_spaces] leaves in place. *)
Definition plain_ws (w : char) : bool :=
  isspace w && negb ((w =? 0x3000) || blank_ctl w || newline w).

Definition tok_ok (t : token) : Prop :=
  isspace t.2 = false /\ forall w, t.1 = Some w -> plain_ws w = true.
Definition starts_bare (T : list token) : Prop :=
  match T with [] => True | t :: _ => t.1 = None end.
Definition tidy (T : list token) : Prop := Forall tok_ok T /\ starts_bare T.

(** [drop_ws] on tokens. *)
Fixpoint dropT (cond : ctx) (prev : option char) (T : list token)
  : list token :=
  match T with
  | [] => []
  | (w, c) :: T' =>
    ((if cond prev (Some c) then None else w), c) :: dropT cond (Some c) T'
  end.

Definition bare_is (c : char) (o : option token) : bool :=
  match o with
  | Some (None, d) => (d =? c)
  | _ => false
  end.

(** [squeeze] on tokens. *)
Fixpoint squeezeT (cls : char -> bool) (prev : option char) (T : list token)
  : list token :=
  match T with
  | [] => []
  | (w, c) :: T' =>
    if bool_decide (w = None) && cls c && opt_is c prev && bare_is c (head T')
    then squeezeT cls (Some c) T'
    else (w, c) :: squeezeT cls (Some c) T'
  end.

Definition tightenT (cjk_again : bool) (T : list token) : list token :=
  let T := dropT between_cjk None T in
  let T := dropT before_punct None T in
  let T := dropT after_open None T in
  let T := dropT before_close None T in
  let T := squeezeT punct_rep None T in
  if cjk_again then
    let T := dropT between_cjk None T in
    let T := dropT cjk_then_punct None T in
    dropT punct_then_cjk None T
  else T.

(** No whitespace of [T] stands in a context that [cond] deletes. *)
Fixpoint clean (cond : ctx) (prev : option char) (T : list token) : Prop :=
  match T with
  | [] => True
  | (w, c) :: T' =>
    (w = None \/ cond prev (Some c) = false) /\ clean cond (Some c) T'
  end.

(** No character of [cls] stands between two copies of itself. *)
Fixpoint calm (cls : char -> bool) (prev : option char) (T : list token)
  : Prop :=
  match T with
  | [] => True
  | (w, c) :: T' =>
    (bool_decide (w = None) && cls c && opt_is c prev && bare_is c (head T')
     = false)
    /\ calm cls (Some c) T'
  end.

Section Normalize.

(** [html.unescape] belongs to the Python standard library, not to this
    program; the normalisation is stated over it. *)
Variable html_unescape : pystr -> pystr.

Definition normalize_transcript_text (text language model : pystr) : pystr :=
  match text with
  | [] => []
  | _ :: _ =>
    tighten (cjk_mode language model) (tidy_spaces (html_unescape text))
  end.

End Normalize.

(** *** Line splitting for subtitles *)

(** [[。！？!?；;…\.!?]] *)
Definition sentence_end (c : char) : bool :=
  one_of [0x3002; 0xFF01; 0xFF1F; 0x21; 0x3F; 0xFF1B; 0x3B; 0x2026; 0x2E] c.
(** [[,;]] *)
Definition clause_end (c : char) : bool := one_of [0x2C; 0x3B] c.

(** [re.split(r"(?<=[cls])\s+", s)]: the string is cut at every maximal
    whitespace run that follows a character of [cls]; the run itself is
    dropped. [piece] is the piece being read, [run] the whitespace run
    being read, [prev] the character before that run. A cut at the very
    end leaves an empty last piece, as [re.split] does. *)
Fixpoint split_ws_after_from (cls : char -> bool) (prev : option char)
    (piece run s : pystr) : list pystr :=
  match s with
  | [] =>
    if is_some_in cls prev && nonempty run then [piece; []]
    else [piece ++ run]
  | c :: t =>
    if isspace c then split_ws_after_from cls prev piece (run ++ [c]) t
    else if is_some_in cls prev && nonempty run
      then piece :: split_ws_after_from cls (Some c) [c] [] t
      else split_ws_after_from cls (Some c) (piece ++ run ++ [c]) [] t
  end.
Definition split_ws_after (cls : char -> bool) (s : pystr) : list pystr :=
  split_ws_after_from cls None [] [] s.

(** The weak cut of a long English sentence at commas and semicolons. *)
Definition split_clauses (p : pystr) : list pystr :=
  let p := strip p in
  if (72 <? length p)%nat && existsb clause_end p
  then List.filter (fun x => nonempty (strip x)) (split_ws_after clause_end p)
  else [p].

Definition _split_by_punctuation (text language : pystr) : list pystr :=
  match text with
  | [] => []
  | _ :: _ =>
    let parts := split_ws_after sentence_end text in
    let parts :=
      if bool_decide (language = py "en") then flat_map split_clauses parts
      else parts in
    let out := List.filter nonempty (map strip parts) in
    if nonempty out then out else [text]
  end.

Definition _char_budget (language model : pystr) : Z :=
  let model_l := lower model in
  if bool_decide (language = py "ja") then 20%Z
  else if bool_decide (language = py "zh") then 24%Z
  else if bool_decide (language = py "auto")
          && (contains (py "kotoba") model_l || contains (py "whisper") model_l)
  then 22%Z
  else 42%Z.

(** [budget = max(10, min(100, max_chars or _char_budget(...)))] *)
Definition line_budget (max_chars : option Z) (language model : pystr) : nat :=
  let b := match max_chars with
           | Some m => if (m =? 0)%Z then _char_budget language model else m
           | None => _char_budget language model
           end in
  Z.to_nat (Z.max 10 (Z.min 100 b)).

(** [re.search(r"[A-Za-z0-9]$", s)]; [$] also matches just before a newline
    that ends the string. *)
Definition ends_alnum (s : pystr) : bool :=
  match rev s with
  | [] => false
  | c :: r =>
    is_ascii_alnum c ||
    ((c =? 0x0A) && match r with d :: _ => is_ascii_alnum d | [] => false end)
  end.

(** [a + " " + b] after an ASCII letter or digit, [a + b] otherwise. *)
Definition join_line (a b : pystr) : pystr :=
  if ends_alnum a then a ++ SP :: b else a ++ b.

(** The pieces [s[0:n]], [s[n:2n]], ... of the hard cut. The loop runs at
    most [len(s)] times when [n >= 1], which is the fuel given. *)
Fixpoint hard_cut_fuel (fuel n : nat) (s : pystr) : list pystr :=
  match fuel with
  | O => []
  | S f =>
    match s with
    | [] => []
    | _ :: _ => firstn n s :: hard_cut_fuel f n (skipn n s)
    end
  end.
Definition hard_cut (n : nat) (s : pystr) : list pystr :=
  hard_cut_fuel (length s) n s.

(** The state of the packing loop: the lines emitted and the line [cur]
    being filled. *)
Definition flush (st : list pystr * pystr) : list pystr * pystr :=
  let c := strip st.2 in
  (if nonempty c then st.1 ++ [c] else st.1, []).

(** [len(s) > budget * 1.8]: for the integers at hand (budget 10..100) the
    floating-point product compares with [len(s)] as the exact one does. *)
Definition too_long (budget : nat) (s : pystr) : bool :=
  (9 * budget <? 5 * length s)%nat.

Definition pack_step (budget : nat) (st : list pystr * pystr) (s : pystr)
  : list pystr * pystr :=
  let s := strip s in
  if negb (nonempty s) then st
  else if too_long budget s then
    let st := flush st in (st.1 ++ hard_cut budget s, [])
  else if negb (nonempty st.2) then (st.1, s)
  else
    let candidate := join_line st.2 s in
    if (length candidate <=? budget)%nat then (st.1, candidate)
    else ((flush st).1, s).

(** The last pass: a short line joins the line before it. *)
Definition merge_step (budget : nat) (merged : list pystr) (line : pystr)
  : list pystr :=
  match rev merged with
  | [] => [line]
  | last :: before =>
    if (length line <? Nat.max 4 (budget / 5))%nat
       && (length last + length line + 1 <=? budget + 6)%nat
    then rev before ++ [join_line last line]
    else merged ++ [line]
  end.

Definition split_text_for_srt (text language : pystr) (max_chars : option Z)
    (model : pystr) : list pystr :=
  match text with
  | [] => []
  | _ :: _ =>
    let budget := line_budget max_chars language model in
    let sentences := _split_by_punctuation text language in
    let lines := (flush (fold_left (pack_step budget) sentences ([], []))).1 in
    fold_left (merge_step budget) lines []
  end.


End Text.

(** ** Segments and segment results *)

Module Seg.

Local Open Scope Q_scope.

(** [@dataclass SpeechSeg] *)
Record SpeechSeg := mkSeg { start : Q; end_ : Q }.

Definition dur (seg : SpeechSeg) : Q := Qmax 0 (end_ seg - start seg).

(** [@dataclass SegmentResult] *)
Record SegmentResult := mkResult {
  r_ok : bool;
  r_idx : nat;
  r_start : Q;
  r_end : Q;
  r_text : pystr;
  r_error : option pystr;
  r_code : N
}.

End Seg.
Import Seg.

(** ** Configuration *)

Module Config.

Local Open Scope Q_scope.

(** The values of [class Config] that the modelled functions read. They
    come from the environment through [_env_float] and [_env_int], which
    clamp them to the ranges of [config_ok]. *)
Record t := mk {
  MAX_SEGMENT_SECONDS : Q;
  MIN_SEGMENT_SECONDS : Q;
  MIN_TRANSCRIBE_SEGMENT_SECONDS : Q;
  SHORT_SEGMENT_MERGE_GAP_SECONDS : Q;
  LOG_MAX_LINES : nat;
  DEEPGRAM_API_KEY : pystr;
  HF_TOKEN : pystr;
  DEFAULT_MODEL : pystr
}.

Definition config_ok (cfg : t) : Prop :=
  5 <= MAX_SEGMENT_SECONDS cfg <= 30 /\
  0.1 <= MIN_SEGMENT_SECONDS cfg <= 2 /\
  0.2 <= MIN_TRANSCRIBE_SEGMENT_SECONDS cfg <= 2 /\
  0 <= SHORT_SEGMENT_MERGE_GAP_SECONDS cfg <= 1 /\
  (100 <= LOG_MAX_LINES cfg <= 100 * 100)%nat.

(** The defaults of the source, with stand-in credentials. *)
Definition default : t := {|
  MAX_SEGMENT_SECONDS := 15;
  MIN_SEGMENT_SECONDS := 0.25;
  MIN_TRANSCRIBE_SEGMENT_SECONDS := 0.45;
  SHORT_SEGMENT_MERGE_GAP_SECONDS := 0.2;
  LOG_MAX_LINES := 1000;
  DEEPGRAM_API_KEY := py "dg-key";
  HF_TOKEN := py "hf-token";
  DEFAULT_MODEL := py "nova-2-general"
|}.

End Config.

(** ** Voice-activity segmentation *)

Module Vad.

Local Open Scope Q_scope.

Definition Qlt_bool (a b : Q) : bool := negb (Qle_bool b a).

(** [clamp(v, lo, hi) = max(lo, min(hi, v))] *)
Definition clamp (v lo hi : Q) : Q := Qmax lo (Qmin hi v).

(** The [while] loop that cuts a long segment into pieces of at most
    [max_seg] seconds; it stops when less than [0.05] seconds remain. The
    result is [None] only if the fuel runs out before the loop ends. *)
Fixpoint split_long (fuel : nat) (max_seg cur seg_end : Q)
  : option (list SpeechSeg * nat) :=
  if Qlt_bool cur (seg_end - 0.05) then
    match fuel with
    | O => None
    | S f =>
      let nxt := Qmin (cur + max_seg) seg_end in
      match split_long f max_seg nxt seg_end with
      | Some (pieces, n) =>
        Some (mkSeg cur nxt :: pieces,
              if Qlt_bool nxt seg_end then S n else n)
      | None => None
      end
    end
  else Some ([], O).

(** Enough turns of the loop for a segment [[a, b]]: one per [max_seg]
    seconds, and one more. *)
Definition split_fuel (max_seg a b : Q) : nat :=
  S (Z.to_nat (Qceiling ((b - a) / max_seg))).

(** The body of the [for seg in filtered] loop. *)
Definition split_segment (max_seg : Q) (seg : SpeechSeg)
  : list SpeechSeg * nat :=
  if Qle_bool (dur seg) max_seg then ([seg], O)
  else
    match split_long (split_fuel max_seg (start seg) (end_ seg)) max_seg
            (start seg) (end_ seg) with
    | Some r => r
    | None => ([], O)
    end.

(** The speech timestamps of the VAD library, in samples at 16 kHz, read
    as seconds and clipped to the file. *)
Definition speech_pairs (total_dur : Q) (speech_ts : list (Z * Z))
  : list (Q * Q) :=
  flat_map (fun item =>
    let s := Qmax 0 (inject_Z item.1 / 16000) in
    let e := Qmin total_dur (inject_Z item.2 / 16000) in
    if Qlt_bool s e then [(s, e)] else []) speech_ts.

(** [detect_speech_segments]; [total_dur] is what [ffprobe_duration]
    returned and [speech_ts] what [get_speech_timestamps] returned. *)
Definition detect_speech_segments (cfg : Config.t) (total_dur : Q)
    (speech_ts : list (Z * Z)) : list SpeechSeg * Q * nat :=
  if Qle_bool total_dur 0.05 then ([], 0, O)
  else
    let pairs := speech_pairs total_dur speech_ts in
    let pairs := if nonempty pairs then pairs else [(0, total_dur)] in
    let filtered :=
      map (fun p => mkSeg (Qmax 0 p.1) (Qmin total_dur p.2))
        (List.filter
           (fun p => Qle_bool (Config.MIN_SEGMENT_SECONDS cfg) (p.2 - p.1))
           pairs) in
    let filtered :=
      if nonempty filtered then filtered else [mkSeg 0 total_dur] in
    let '(out, split_count) :=
      fold_left (fun acc seg =>
        let '(pieces, n) := split_segment (Config.MAX_SEGMENT_SECONDS cfg) seg in
        (acc.1 ++ pieces, (acc.2 + n)%nat)) filtered ([], O) in
    (out, total_dur, split_count).

(** The order of [sorted(segments, key=lambda x: (x.start, x.end))]. *)
Definition seg_le (a b : SpeechSeg) : bool :=
  match Qcompare (start a) (start b) with
  | Lt => true
  | Gt => false
  | Eq => Qle_bool (end_ a) (end_ b)
  end.
Fixpoint insert_seg (x : SpeechSeg) (l : list SpeechSeg) : list SpeechSeg :=
  match l with
  | [] => [x]
  | y :: l' => if seg_le x y then x :: l else y :: insert_seg x l'
  end.
Definition sort_segs (l : list SpeechSeg) : list SpeechSeg :=
  fold_right insert_seg [] l.

(** The state of the merge loop: [out], [merged_count], [dropped_count]. *)
Definition merge_state := (list SpeechSeg * nat * nat)%type.

(** One turn of the loop of [optimize_segments_for_transcription]. *)
Definition merge_short_step (min_dur merge_gap max_dur : Q)
    (st : merge_state) (seg : SpeechSeg) : merge_state :=
  let '(out, merged_count, dropped_count) := st in
  let seg := mkSeg (start seg) (end_ seg) in
  if Qle_bool min_dur (dur seg) then (out ++ [seg], merged_count, dropped_count)
  else
    let keep_or_drop :=
      if Qle_bool (Qmax 0.22 (min_dur * 0.6)) (dur seg)
      then (out ++ [seg], merged_count, dropped_count)
      else (out, merged_count, S dropped_count) in
    match rev out with
    | prev :: before =>
      let gap_prev := Qmax 0 (start seg - end_ prev) in
      if Qle_bool gap_prev merge_gap
         && Qle_bool (end_ seg - start prev) max_dur
      then (rev before ++ [mkSeg (start prev) (Qmax (end_ prev) (end_ seg))],
            S merged_count, dropped_count)
      else keep_or_drop
    | [] => keep_or_drop
    end.

Definition optimize_segments_for_transcription (segments : list SpeechSeg)
    (min_transcribe_seconds merge_gap_seconds max_segment_seconds : Q)
  : merge_state :=
  match segments with
  | [] => ([], O, O)
  | _ :: _ =>
    let min_dur := clamp min_transcribe_seconds 0.2 2 in
    let merge_gap := clamp merge_gap_seconds 0 1 in
    let max_dur := Qmax 2 max_segment_seconds in
    let src := sort_segs segments in
    let '(out, merged_count, dropped_count) :=
      fold_left (merge_short_step min_dur merge_gap max_dur) src ([], O, O) in
    let out :=
      match out, src with
      | [], first :: _ => [first]
      | _, _ => out
      end in
    (out, merged_count, dropped_count)
  end.

(** The two thresholds as [process_job] computes them: [opt] is what
    [float] makes of the option (of the configured default, for an absent
    key) and is clamped; where [float] raises, [opt] is [None] and the
    configured default is taken as it is. *)
Definition option_or_default (opt : option Q) (lo hi default : Q) : Q :=
  match opt with
  | Some v => clamp v lo hi
  | None => default
  end.


End Vad.


(** ** Subtitle assembly *)

Module Srt.

Import Text.
Local Open Scope Q_scope.

Definition cue := (Q * Q * pystr)%type.

(** [max(1, len(x))] as a number of seconds can be multiplied with. *)
Definition weight (line : pystr) : Q :=
  inject_Z (Z.of_nat (Nat.max 1 (length line))).

Definition total_weight (lines : list pystr) : Q :=
  fold_right (fun l acc => weight l + acc) 0 lines.

(** The first loop of [allocate_line_times]: every line but the last gets
    its weighted share, at least [0.3] and not past the segment end; the
    last line runs to the segment end. *)
Fixpoint slice_lines (dur_ total_w seg_end t : Q) (lines : list pystr)
  : list cue :=
  match lines with
  | [] => []
  | [line] => [(t, seg_end, line)]
  | line :: rest =>
    let piece := Qmax 0.3 (dur_ * (weight line / total_w)) in
    let nxt := Qmin seg_end (t + piece) in
    (t, nxt, line) :: slice_lines dur_ total_w seg_end nxt rest
  end.

(** The second loop: no cue starts before the one before it ends, and each
    lasts [0.18] at least. *)
Fixpoint fix_overlaps (prev_end : Q) (cues : list cue) : list cue :=
  match cues with
  | [] => []
  | (s, e, txt) :: rest =>
    let s := Qmax s prev_end in
    let e := Qmax e (s + 0.18) in
    (s, e, txt) :: fix_overlaps e rest
  end.

(** [fixed[-1] = (s, max(s + 0.18, seg_end), txt)] *)
Definition snap_last (seg_end : Q) (fixed : list cue) : list cue :=
  match rev fixed with
  | [] => []
  | (s, _, txt) :: before => rev before ++ [(s, Qmax (s + 0.18) seg_end, txt)]
  end.

Definition allocate_line_times (seg_start seg_end : Q) (lines : list pystr)
  : list cue :=
  match lines with
  | [] => []
  | [line] => [(seg_start, seg_end, line)]
  | _ =>
    let dur_ := Qmax 0.2 (seg_end - seg_start) in
    let cues := slice_lines dur_ (total_weight lines) seg_end seg_start lines in
    snap_last seg_end (fix_overlaps seg_start cues)
  end.

(** The order of [sorted(..., key=lambda x: (x.start, x.end, x.idx))]. *)
Definition key_le (a b : SegmentResult) : bool :=
  match Qcompare (r_start a) (r_start b) with
  | Lt => true
  | Gt => false
  | Eq =>
    match Qcompare (r_end a) (r_end b) with
    | Lt => true
    | Gt => false
    | Eq => (r_idx a <=? r_idx b)%nat
    end
  end.

(** A stable insertion sort: [x], which stood before the elements of [l],
    goes before the first element that is not smaller. *)
Fixpoint insert_sorted (x : SegmentResult) (l : list SegmentResult)
  : list SegmentResult :=
  match l with
  | [] => [x]
  | y :: l' => if key_le x y then x :: l else y :: insert_sorted x l'
  end.
Definition sort_results (l : list SegmentResult) : list SegmentResult :=
  fold_right insert_sorted [] l.

(** The sweep of [build_srt] that drops blank cues and removes overlaps. *)
Fixpoint sweep (prev_end : Q) (cues : list cue) : list cue :=
  match cues with
  | [] => []
  | (s, e, txt) :: rest =>
    let txt := strip txt in
    if negb (nonempty txt) then sweep prev_end rest
    else
      let s := Qmax s prev_end in
      let e := if Qle_bool e s then s + 0.2 else e in
      (s, e, txt) :: sweep e rest
  end.

(** One step of the compaction: a cue with the text of the cue before it,
    starting at most [0.12] after that one ends, is merged into it. *)
Definition compact_step (compact_cues : list cue) (c : cue) : list cue :=
  let '(s, e, txt) := c in
  match rev compact_cues with
  | (ps, pe, ptxt) :: before =>
    if bool_decide (txt = ptxt) && Qle_bool (s - pe) 0.12
    then rev before ++ [(ps, Qmax pe e, ptxt)]
    else compact_cues ++ [c]
  | [] => compact_cues ++ [c]
  end.

(** The cue list of [build_srt] ([compact_cues]). *)
Definition build_cues (results : list SegmentResult) (language model : pystr)
  : list cue :=
  let results :=
    sort_results (List.filter (fun r => r_ok r && nonempty (r_text r)) results) in
  let cues :=
    flat_map (fun r =>
      allocate_line_times (r_start r) (r_end r)
        (split_text_for_srt (r_text r) language None model)) results in
  fold_left compact_step (sweep 0 cues) [].

(** [round(x)] of Python 3: to the nearest integer, ties to the even one. *)
Definition py_round (x : Q) : Z :=
  let f := Qfloor x in
  match Qcompare (x - inject_Z f) (1 # 2) with
  | Lt => f
  | Gt => (f + 1)%Z
  | Eq => if Z.even f then f else (f + 1)%Z
  end.

(** [f"{n:0wd}"] for [n >= 0]: decimal digits, zero-padded to width [w]. *)
Definition pad_zeros (w : nat) (d : Decimal.uint) : Decimal.uint :=
  Nat.iter (w - Decimal.nb_digits d) Decimal.D0 d.
Definition dec (w : nat) (n : N) : string :=
  NilEmpty.string_of_uint (pad_zeros w (N.to_uint n)).

Definition srt_ts (seconds : Q) : string :=
  let ms := Z.to_N (py_round (Qmax 0 seconds * 1000)) in
  let '(hh, ms) := N.div_eucl ms 3600000 in
  let '(mm, ms) := N.div_eucl ms 60000 in
  let '(ss, ms) := N.div_eucl ms 1000 in
  (dec 2 hh ++ ":" ++ dec 2 mm ++ ":" ++ dec 2 ss ++ "," ++ dec 3 ms)%string.

(** Reading a timestamp [HH:MM:SS,mmm] back to seconds. *)
Fixpoint cut_at (c : ascii) (s : string) : option (string * string) :=
  match s with
  | EmptyString => None
  | String a s' =>
    if Ascii.eqb a c then Some (EmptyString, s')
    else match cut_at c s' with
         | Some (l, r) => Some (String a l, r)
         | None => None
         end
  end.
Definition parse_dec (s : string) : option N :=
  match s with
  | EmptyString => None
  | _ => option_map N.of_uint (NilEmpty.uint_of_string s)
  end.
Definition parse_srt_ts (s : string) : option Q :=
  match cut_at ":" s with
  | Some (h, s1) =>
    match cut_at ":" s1 with
    | Some (m, s2) =>
      match cut_at "," s2 with
      | Some (sec, ms) =>
        match parse_dec h, parse_dec m, parse_dec sec, parse_dec ms with
        | Some h, Some m, Some sec, Some ms =>
          Some (inject_Z (Z.of_N (h * 3600 + m * 60 + sec))
                + inject_Z (Z.of_N ms) / 1000)
        | _, _, _, _ => None
        end
      | None => None
      end
    | None => None
    end
  | None => None
  end.

(** [build_srt]: the cues numbered from 1, three lines each, a blank line
    between cues, one newline at the end. *)
Definition NL : char := 0x0A%N.
Definition render_cue (i : nat) (c : cue) : pystr :=
  let '(s, e, txt) := c in
  py (NilEmpty.string_of_uint (Nat.to_uint i)) ++ NL
    :: py (srt_ts s) ++ py " --> " ++ py (srt_ts e) ++ NL :: txt ++ [NL].
Fixpoint render_cues (i : nat) (cues : list cue) : list pystr :=
  match cues with
  | [] => []
  | c :: rest => render_cue i c :: render_cues (S i) rest
  end.
Fixpoint join_with (sep : char) (parts : list pystr) : pystr :=
  match parts with
  | [] => []
  | [p] => p
  | p :: rest => p ++ sep :: join_with sep rest
  end.
Definition build_srt (results : list SegmentResult) (language model : pystr)
  : pystr :=
  strip (join_with NL (render_cues 1 (build_cues results language model)))
    ++ [NL].

End Srt.


(** ** The transcription task of one segment *)

Module Transcribe.

Import Text Srt.
Local Open Scope Q_scope.

(** [f"{q:.nf}"]: fixed-point notation with [n] decimals, the exact value
    rounded half to even. *)
Definition fmt_fixed (n : nat) (q : Q) : string :=
  let scaled := py_round (q * inject_Z (10 ^ Z.of_nat n)) in
  let '(ip, fp) := N.div_eucl (Z.abs_N scaled) (10 ^ N.of_nat n) in
  ((if (scaled <? 0)%Z then "-" else "") ++ dec 1 ip ++ "." ++ dec n fp)%string.

(** The job options are an opaque value here: the request parameters
    built from them do not depend on the segment or on the language. *)
Definition options_t := list (pystr * pystr).

(** What is sent to the general provider: the audio on disk (the window of
    the normalised file that was cut last) and the query parameters that
    depend on the call. *)
Record DgRequest := mkDg {
  dg_model : pystr;
  dg_detect_language : bool;
  dg_language : option pystr;
  dg_options : options_t;
  dg_audio : Q * Q
}.

(** The answer to a POST: an exception of the HTTP client, or a response
    with its status, its body as text, and the transcript found in its
    JSON ([None] when reading the JSON raises). *)
Inductive http_result :=
| HttpRaised (msg : pystr)
| HttpResponse (status : N) (text : pystr) (transcript : option pystr).

(** The outcome of the transcoder cutting a window. *)
Inductive cut_result :=
| CutOk
| CutProcessError (output : pystr)
| CutRaised (msg : pystr).

(** The collaborators of one task. Calls are numbered, so that a second
    call may be answered differently from the first. *)
Record Env := mkEnv {
  cancel_requested_now : bool;
  ffmpeg_cut : nat -> Q * Q -> cut_result;
  deepgram_post : nat -> DgRequest -> http_result;
  hf_post : Q * Q -> http_result
}.

Inductive event :=
| EvCut (window : Q * Q)
| EvDeepgram (req : DgRequest)
| EvHf (audio : Q * Q)
| EvUnlink.

(** A computation that may raise, and records what it did to the world. *)
Inductive outcome (A : Type) :=
| Ok (a : A)
| ProcessError (output : pystr)
| Raised (msg : pystr).
Arguments Ok {A} a.
Arguments ProcessError {A} output.
Arguments Raised {A} msg.

Definition M (A : Type) : Type := (outcome A * list event)%type.
Definition ret {A} (a : A) : M A := (Ok a, []).
Definition emit (e : event) : M unit := (Ok tt, [e]).
Definition bind {A B} (m : M A) (f : A -> M B) : M B :=
  match m with
  | (Ok a, evs) => let '(r, evs') := f a in (r, evs ++ evs')
  | (ProcessError o, evs) => (ProcessError o, evs)
  | (Raised msg, evs) => (Raised msg, evs)
  end.

#[global] Instance M_ret : MRet M := @ret.
#[global] Instance M_bind : MBind M := fun A B f m => bind m f.

(** [extract_segment_wav], the [k]-th cut of the task. *)
Definition extract_segment_wav (env : Env) (k : nat) (start_ end__ : Q)
  : M unit :=
  let duration := Qmax 0 (end__ - start_) in
  if Vad.Qlt_bool duration 0.01 then
    (Raised (py "segment too short: start=" ++ py (fmt_fixed 6 start_)
             ++ py ", end=" ++ py (fmt_fixed 6 end__)), [])
  else
    emit (EvCut (start_, end__)) ;;
    match ffmpeg_cut env k (start_, end__) with
    | CutOk => ret tt
    | CutProcessError o => (ProcessError o, [])
    | CutRaised msg => (Raised msg, [])
    end.

(** The result tuple [(ok, txt, err, code)] of the two providers. *)
Definition reply := (bool * pystr * pystr * N)%type.

Definition replace_newlines (s : pystr) : pystr := replace_char 0x0A%N SP s.

Definition status_text (status : N) : pystr :=
  py (NilEmpty.string_of_uint (N.to_uint status)).

(** The request of [transcribe_with_deepgram]: [detect_language=true] for
    the language [auto], [language=<code>] otherwise. *)
Definition dg_request (model language : pystr) (options : options_t)
    (audio : Q * Q) : DgRequest :=
  let auto := bool_decide (language = py "auto") in
  {| dg_model := model;
     dg_detect_language := auto;
     dg_language := if auto then None else Some language;
     dg_options := options;
     dg_audio := audio |}.

(** [transcribe_with_deepgram], the [k]-th call of the task, on the audio
    [audio] that is on disk. *)
Definition transcribe_with_deepgram (cfg : Config.t) (env : Env) (k : nat)
    (audio : Q * Q) (model language : pystr) (options : options_t)
  : M reply :=
  if negb (nonempty (Config.DEEPGRAM_API_KEY cfg))
  then ret (false, [], py "DEEPGRAM_API_KEY missing", 0%N)
  else
    let req := dg_request model language options audio in
    emit (EvDeepgram req) ;;
    match deepgram_post env k req with
    | HttpRaised msg => (Raised msg, [])
    | HttpResponse status text transcript =>
      if negb (status =? 200)%N then
        let msg := replace_newlines (firstn 180 text) in
        ret (false, [], py "DG_ERR_" ++ status_text status ++ py ": " ++ msg,
             status)
      else
        match transcript with
        | None => ret (false, [], py "DG_JSON_PARSE_ERR", status)
        | Some txt =>
          let txt := strip txt in
          if negb (nonempty txt)
          then ret (false, [], py "EMPTY_TRANSCRIPT", status)
          else ret (true, txt, [], status)
        end
    end.

Definition transcribe_with_hf (cfg : Config.t) (env : Env) (audio : Q * Q)
  : M reply :=
  if negb (nonempty (Config.HF_TOKEN cfg))
  then ret (false, [], py "HF_TOKEN missing", 0%N)
  else
    emit (EvHf audio) ;;
    match hf_post env audio with
    | HttpRaised msg => (Raised msg, [])
    | HttpResponse status text transcript =>
      if negb (status =? 200)%N then
        let msg := replace_newlines (firstn 180 text) in
        ret (false, [], py "HF_ERR_" ++ status_text status ++ py ": " ++ msg,
             status)
      else
        match transcript with
        | None => ret (false, [], py "HF_JSON_PARSE_ERR", status)
        | Some txt =>
          let txt := strip txt in
          if negb (nonempty txt)
          then ret (false, [], py "HF_EMPTY_TRANSCRIPT", status)
          else ret (true, txt, [], status)
        end
    end.

(** The pad of the retry: [0.22], [0.35] or [0.50] seconds. *)
Definition retry_pad (seg : SpeechSeg) : Q :=
  if Vad.Qlt_bool (dur seg) 1.2 then 0.22
  else if Vad.Qlt_bool (dur seg) 3 then 0.35 else 0.5.

Definition _empty_retry_window (seg : SpeechSeg) : Q * Q :=
  let pad := retry_pad seg in
  let retry_start := Qmax 0 (start seg - pad) in
  let retry_end := Qmax (retry_start + 0.02) (end_ seg + pad) in
  (retry_start, retry_end).

Section Task.

Variable html_unescape : pystr -> pystr.
Variable cfg : Config.t.
Variable env : Env.

(** The [try] block of [transcribe_task]. *)
Definition transcribe_body (idx : nat) (seg : SpeechSeg)
    (model language : pystr) (options : options_t) : M SegmentResult :=
  extract_segment_wav env 0 (start seg) (end_ seg) ;;
  r ← (if contains (py "kotoba") model
        then transcribe_with_hf cfg env (start seg, end_ seg)
        else
          r ← transcribe_with_deepgram cfg env 0 (start seg, end_ seg)
                 model language options;
          let '(ok, txt, err, code) := (r : reply) in
          if negb ok && bool_decide (err = py "EMPTY_TRANSCRIPT") then
            let '(retry_start, retry_end) := _empty_retry_window seg in
            extract_segment_wav env 1 retry_start retry_end ;;
            let retry_lang :=
              if bool_decide (language <> py "auto") then py "auto"
              else language in
            transcribe_with_deepgram cfg env 1 (retry_start, retry_end)
              model retry_lang options
          else ret r);
  let '(ok, txt, err, code) := (r : reply) in
  if ok then
    let txt := normalize_transcript_text html_unescape txt language model in
    if negb (nonempty txt)
    then ret (mkResult false idx (start seg) (end_ seg) []
                (Some (py "EMPTY_AFTER_NORMALIZE")) code)
    else ret (mkResult true idx (start seg) (end_ seg) txt None code)
  else
    ret (mkResult false idx (start seg) (end_ seg) []
           (Some (if nonempty err then err else py "TRANSCRIBE_FAIL")) code).

(** [transcribe_task]: the guards, the [try] block with its two handlers,
    and the [finally] that deletes the segment file. *)
Definition transcribe_task (idx : nat) (seg : SpeechSeg)
    (model language : pystr) (options : options_t)
  : SegmentResult * list event :=
  let failed err :=
    mkResult false idx (start seg) (end_ seg) [] (Some err) 0%N in
  if cancel_requested_now env then (failed (py "CANCELLED"), [])
  else if Vad.Qlt_bool (dur seg) 0.01
  then (failed (py "INVALID_SEGMENT_DURATION"), [])
  else
    let '(r, evs) := transcribe_body idx seg model language options in
    let result :=
      match r with
      | Ok res => res
      | ProcessError output =>
        failed (py "FFMPEG_ERR: " ++ firstn 180 (sub_runs isspace 1 [SP] output))
      | Raised msg => failed (py "EXC: " ++ firstn 180 msg)
      end in
    (result, evs ++ [EvUnlink]).

End Task.

End Transcribe.


(** ** The job registry *)

Module Registry.

Import Text.
Local Open Scope Q_scope.

(** The five values of [status]. *)
Inductive status_t := Queued | Running | Done | Error | Cancelled.

Definition status_name (s : status_t) : pystr :=
  match s with
  | Queued => py "queued"
  | Running => py "running"
  | Done => py "done"
  | Error => py "error"
  | Cancelled => py "cancelled"
  end.

(** [status in {"done", "error", "cancelled"}] *)
Definition is_terminal (s : status_t) : bool :=
  match s with
  | Done | Error | Cancelled => true
  | Queued | Running => false
  end.

(** The payload that [api_start] builds. *)
Record Payload := mkPayload {
  file_path : pystr;
  language : pystr;
  model : pystr;
  original_name : pystr;
  options : Transcribe.options_t
}.

(** One log line; [log_ts] is the clock reading that [time.strftime]
    formats. *)
Record LogEntry := mkLog { log_seq_no : nat; log_ts : Q; log_msg : pystr }.

(** The job record of [init_job]. *)
Record Job := mkJob {
  id : string;
  status : status_t;
  progress : Q;
  created_at : Q;
  updated_at : Q;
  started_at : option Q;
  finished_at : option Q;
  last_heartbeat : Q;
  payload : Payload;
  logs : list LogEntry;
  log_seq : nat;
  error : option pystr;
  result_path : option pystr;
  download_name : option pystr;
  downloaded_at : option Q;
  cancel_requested : bool
}.

(** One item assignment [j[key] = value], or one keyword argument of
    [update_job]. *)
Inductive assign :=
| Status (v : status_t)
| Progress (v : Q)
| UpdatedAt (v : Q)
| StartedAt (v : option Q)
| FinishedAt (v : option Q)
| LastHeartbeat (v : Q)
| Logs (v : list LogEntry)
| LogSeq (v : nat)
| ErrorText (v : option pystr)
| ResultPath (v : option pystr)
| DownloadName (v : option pystr)
| DownloadedAt (v : option Q)
| CancelRequested (v : bool).

Definition assign_to (j : Job) (a : assign) : Job :=
  match a with
  | Status v =>
    mkJob (id j) v (progress j) (created_at j) (updated_at j) (started_at j)
      (finished_at j) (last_heartbeat j) (payload j) (logs j) (log_seq j)
      (error j) (result_path j) (download_name j) (downloaded_at j)
      (cancel_requested j)
  | Progress v =>
    mkJob (id j) (status j) v (created_at j) (updated_at j) (started_at j)
      (finished_at j) (last_heartbeat j) (payload j) (logs j) (log_seq j)
      (error j) (result_path j) (download_name j) (downloaded_at j)
      (cancel_requested j)
  | UpdatedAt v =>
    mkJob (id j) (status j) (progress j) (created_at j) v (started_at j)
      (finished_at j) (last_heartbeat j) (payload j) (logs j) (log_seq j)
      (error j) (result_path j) (download_name j) (downloaded_at j)
      (cancel_requested j)
  | StartedAt v =>
    mkJob (id j) (status j) (progress j) (created_at j) (updated_at j) v
      (finished_at j) (last_heartbeat j) (payload j) (logs j) (log_seq j)
      (error j) (result_path j) (download_name j) (downloaded_at j)
      (cancel_requested j)
  | FinishedAt v =>
    mkJob (id j) (status j) (progress j) (created_at j) (updated_at j)
      (started_at j) v (last_heartbeat j) (payload j) (logs j) (log_seq j)
      (error j) (result_path j) (download_name j) (downloaded_at j)
      (cancel_requested j)
  | LastHeartbeat v =>
    mkJob (id j) (status j) (progress j) (created_at j) (updated_at j)
      (started_at j) (finished_at j) v (payload j) (logs j) (log_seq j) (error
      j) (result_path j) (download_name j) (downloaded_at j) (cancel_requested
      j)
  | Logs v =>
    mkJob (id j) (status j) (progress j) (created_at j) (updated_at j)
      (started_at j) (finished_at j) (last_heartbeat j) (payload j) v (log_seq
      j) (error j) (result_path j) (download_name j) (downloaded_at j)
      (cancel_requested j)
  | LogSeq v =>
    mkJob (id j) (status j) (progress j) (created_at j) (updated_at j)
      (started_at j) (finished_at j) (last_heartbeat j) (payload j) (logs j) v
      (error j) (result_path j) (download_name j) (downloaded_at j)
      (cancel_requested j)
  | ErrorText v =>
    mkJob (id j) (status j) (progress j) (created_at j) (updated_at j)
      (started_at j) (finished_at j) (last_heartbeat j) (payload j) (logs j)
      (log_seq j) v (result_path j) (download_name j) (downloaded_at j)
      (cancel_requested j)
  | ResultPath v =>
    mkJob (id j) (status j) (progress j) (created_at j) (updated_at j)
      (started_at j) (finished_at j) (last_heartbeat j) (payload j) (logs j)
      (log_seq j) (error j) v (download_name j) (downloaded_at j)
      (cancel_requested j)
  | DownloadName v =>
    mkJob (id j) (status j) (progress j) (created_at j) (updated_at j)
      (started_at j) (finished_at j) (last_heartbeat j) (payload j) (logs j)
      (log_seq j) (error j) (result_path j) v (downloaded_at j)
      (cancel_requested j)
  | DownloadedAt v =>
    mkJob (id j) (status j) (progress j) (created_at j) (updated_at j)
      (started_at j) (finished_at j) (last_heartbeat j) (payload j) (logs j)
      (log_seq j) (error j) (result_path j) (download_name j) v
      (cancel_requested j)
  | CancelRequested v =>
    mkJob (id j) (status j) (progress j) (created_at j) (updated_at j)
      (started_at j) (finished_at j) (last_heartbeat j) (payload j) (logs j)
      (log_seq j) (error j) (result_path j) (download_name j)
      (downloaded_at j) v
  end.

(** The state of the process and of its directories: the registry [JOBS],
    the set [META_DIRTY], the ids that have a file [locks/<id>.lock], a
    directory [tmp/<id>], a file [outputs/<id>.srt] (with its text) and a
    file [meta/<id>.json] (with the record it holds), and the number of
    clock readings so far. The [journal] is ghost state: every operation
    that changes a record in place notes the id, the record before and the
    record after, latest first; nothing reads it. *)
Record World := mkWorld {
  JOBS : gmap string Job;
  META_DIRTY : gset string;
  lock_files : gset string;
  tmp_dirs : gset string;
  outputs : gmap string pystr;
  meta_files : gmap string Job;
  clock : nat;
  journal : list (string * Job * Job)
}.

Definition with_JOBS (v : gmap string Job) (w : World) : World :=
  mkWorld v (META_DIRTY w) (lock_files w) (tmp_dirs w) (outputs w)
    (meta_files w) (clock w) (journal w).
Definition with_META_DIRTY (v : gset string) (w : World) : World :=
  mkWorld (JOBS w) v (lock_files w) (tmp_dirs w) (outputs w) (meta_files w)
    (clock w) (journal w).
Definition with_lock_files (v : gset string) (w : World) : World :=
  mkWorld (JOBS w) (META_DIRTY w) v (tmp_dirs w) (outputs w) (meta_files w)
    (clock w) (journal w).
Definition with_tmp_dirs (v : gset string) (w : World) : World :=
  mkWorld (JOBS w) (META_DIRTY w) (lock_files w) v (outputs w)
    (meta_files w) (clock w) (journal w).
Definition with_outputs (v : gmap string pystr) (w : World) : World :=
  mkWorld (JOBS w) (META_DIRTY w) (lock_files w) (tmp_dirs w) v
    (meta_files w) (clock w) (journal w).
Definition with_meta_files (v : gmap string Job) (w : World) : World :=
  mkWorld (JOBS w) (META_DIRTY w) (lock_files w) (tmp_dirs w) (outputs w) v
    (clock w) (journal w).
Definition with_clock (v : nat) (w : World) : World :=
  mkWorld (JOBS w) (META_DIRTY w) (lock_files w) (tmp_dirs w) (outputs w)
    (meta_files w) v (journal w).
Definition with_journal (v : list (string * Job * Job)) (w : World) : World :=
  mkWorld (JOBS w) (META_DIRTY w) (lock_files w) (tmp_dirs w) (outputs w)
    (meta_files w) (clock w) v.


Section Ops.

(** The wall clock: [wall n] is what the [n]-th reading returns. *)
Variable wall : nat -> Q.
Variable cfg : Config.t.

(** [ts()] *)
Definition ts (w : World) : Q * World :=
  (wall (clock w), with_clock (S (clock w)) w).

Definition mark_meta_dirty (job_id : string) (w : World) : World :=
  with_META_DIRTY ({[job_id]} ∪ META_DIRTY w) w.

(** A record changes in place: the registry holds the new record, and the
    journal notes the change. *)
Definition commit (job_id : string) (before after : Job) (w : World) : World :=
  with_journal ((job_id, before, after) :: journal w)
    (with_JOBS (<[job_id := after]> (JOBS w)) w).

(** Every write to a record has this shape: the record [j] of [job_id]
    becomes [j'], the id is marked dirty, and the clock has advanced to
    [n]. *)
Definition put (job_id : string) (j j' : Job) (n : nat) (w : World) : World :=
  mark_meta_dirty job_id (commit job_id j j' (with_clock n w)).

Definition init_job (job_id : string) (p : Payload) (w : World) : World :=
  let '(now, w) := ts w in
  let rec := mkJob job_id Queued 0 now now None None now p [] O None None None
               None false in
  mark_meta_dirty job_id (with_JOBS (<[job_id := rec]> (JOBS w)) w).

(** [get_job]: from memory, or else from [meta/<id>.json]. *)
Definition get_job (job_id : string) (w : World) : option Job * World :=
  match JOBS w !! job_id with
  | Some j => (Some j, w)
  | None =>
    match meta_files w !! job_id with
    | Some data => (Some data, with_JOBS (<[job_id := data]> (JOBS w)) w)
    | None => (None, w)
    end
  end.

(** [update_job(job_id, **kwargs)]; the keyword arguments are evaluated by
    the caller, in order, before the call. *)
Definition update_job (job_id : string) (kwargs : list assign) (w : World)
  : World :=
  match JOBS w !! job_id with
  | None => w
  | Some j =>
    let j1 := fold_left assign_to kwargs j in
    let '(now, w) := ts w in
    mark_meta_dirty job_id (commit job_id j (assign_to j1 (UpdatedAt now)) w)
  end.

Definition touch_heartbeat (job_id : string) (w : World) : World :=
  match JOBS w !! job_id with
  | None => w
  | Some j =>
    let '(t1, w) := ts w in
    let '(t2, w) := ts w in
    let j' := assign_to (assign_to j (LastHeartbeat t1)) (UpdatedAt t2) in
    mark_meta_dirty job_id (commit job_id j j' w)
  end.

(** [l[-n:]] for [n >= 1] *)
Definition last_n {A} (n : nat) (l : list A) : list A :=
  skipn (length l - n) l.

Definition append_log (job_id : string) (message : pystr) (w : World)
  : World :=
  let message :=
    strip (replace_char 0x0A%N SP (replace_char 0x0D%N SP message)) in
  if negb (nonempty message) then w
  else
    match JOBS w !! job_id with
    | None => w
    | Some j =>
      let seq := S (log_seq j) in
      let '(stamp, w) := ts w in
      let logs1 := logs j ++ [mkLog seq stamp message] in
      let logs2 :=
        if (Config.LOG_MAX_LINES cfg <? length logs1)%nat
        then last_n (Config.LOG_MAX_LINES cfg) logs1 else logs1 in
      let '(t1, w) := ts w in
      let '(t2, w) := ts w in
      let j' :=
        fold_left assign_to
          [LogSeq seq; Logs logs2; UpdatedAt t1; LastHeartbeat t2] j in
      mark_meta_dirty job_id (commit job_id j j' w)
    end.

Definition set_status (job_id : string) (s : status_t) (w : World) : World :=
  let '(now, w) := ts w in
  let patch := [Status s; UpdatedAt now; LastHeartbeat now] in
  let patch :=
    match s with Running => patch ++ [StartedAt (Some now)] | _ => patch end in
  let patch :=
    if is_terminal s then patch ++ [FinishedAt (Some now)] else patch in
  update_job job_id patch w.

Definition set_progress (job_id : string) (p : Q) (w : World) : World :=
  update_job job_id [Progress (Vad.clamp p 0 100)] w.

Definition set_error (job_id : string) (msg : pystr) (w : World) : World :=
  let '(t1, w) := ts w in
  let '(t2, w) := ts w in
  update_job job_id
    [Status Error; ErrorText (Some (firstn 4000 msg)); FinishedAt (Some t1);
     LastHeartbeat t2] w.

Definition set_result (job_id : string) (path download : pystr) (w : World)
  : World :=
  let '(t1, w) := ts w in
  let '(t2, w) := ts w in
  update_job job_id
    [ResultPath (Some path); DownloadName (Some download); Status Done;
     Progress 100; FinishedAt (Some t1); LastHeartbeat t2; ErrorText None] w.

Definition mark_downloaded (job_id : string) (w : World) : World :=
  let '(now, w) := ts w in
  update_job job_id [DownloadedAt (Some now)] w.

Definition is_cancel_requested (job_id : string) (w : World) : bool * World :=
  let '(j, w) := get_job job_id w in
  (match j with Some j => cancel_requested j | None => false end, w).

(** [acquire_job_lease]: the lock file is created unless it exists. *)
Definition acquire_job_lease (job_id : string) (w : World) : bool * World :=
  if bool_decide (job_id ∈ lock_files w) then (false, w)
  else (true, with_lock_files ({[job_id]} ∪ lock_files w) w).

Definition release_job_lease (job_id : string) (w : World) : World :=
  with_lock_files (lock_files w ∖ {[job_id]}) w.

(** [secure_rmtree(TMP_ROOT / job_id)] *)
Definition remove_tmp (job_id : string) (w : World) : World :=
  with_tmp_dirs (tmp_dirs w ∖ {[job_id]}) w.

(** What [POST /api/cancel/<job_id>] does to the registry. *)
Definition api_cancel (job_id : string) (w : World) : World :=
  let '(j, w) := get_job job_id w in
  match j with
  | None => w
  | Some j =>
    if is_terminal (status j) then w
    else
      let w := update_job job_id [CancelRequested true] w in
      let w := append_log job_id (py "🛑 已收到取消请求") w in
      let '(j2, w) := get_job job_id w in
      match j2 with
      | Some j2 =>
        match status j2 with
        | Queued => set_status job_id Cancelled w
        | _ => w
        end
      | None => w
      end
  end.

End Ops.

(** The error text on a record is at most 4000 characters long. *)
Definition error_bounded (j : Job) : Prop :=
  forall e, error j = Some e -> (length e <= 4000)%nat.

(** The same of every record, in memory and on disk. *)
Definition errors_bounded (w : World) : Prop :=
  (forall job_id j, JOBS w !! job_id = Some j -> error_bounded j) /\
  (forall job_id j, meta_files w !! job_id = Some j -> error_bounded j).

(** The fields that stay as they are between two states of a record; the
    others are [logs], [log_seq], [updated_at], [last_heartbeat],
    [finished_at] and [downloaded_at]. *)
Definition settled (before after : Job) : Prop :=
  id after = id before /\
  status after = status before /\
  progress after = progress before /\
  created_at after = created_at before /\
  started_at after = started_at before /\
  payload after = payload before /\
  error after = error before /\
  result_path after = result_path before /\
  download_name after = download_name before /\
  cancel_requested after = cancel_requested before.



End Registry.

(** ** The worker *)

Module Worker.

Import Text Registry.
Local Open Scope Q_scope.

(** What a call into a library or another program gives: a value, or an
    exception whose [str(e)] is [msg]. *)
Inductive result (A : Type) :=
| Success (a : A)
| Raises (msg : pystr).
Arguments Success {A} a.
Arguments Raises {A} msg.

(** The collaborators of a run. Requests are served by other threads: a
    cancel request is served, in one piece, just before the run polls for
    cancellation, when [cancel_at] holds of the clock at that moment. *)
Record Oracle := mkOracle {
  html_unescape : pystr -> pystr;
  wall : nat -> Q;
  cancel_at : nat -> bool;
  path_exists : pystr -> bool;
  normalize_to_wav : pystr -> result unit;
  float_ : pystr -> option Q;
  resolve_vad_options : Transcribe.options_t -> result (pystr * Q * Z * Z * Z);
  ffprobe_duration : result Q;
  get_speech_timestamps : result (list (Z * Z));
  task_env : nat -> Transcribe.Env;
  future_raises : nat -> option pystr;
  as_completed : nat -> list nat;
  atomic_write_text : pystr -> result unit
}.

(** How a block of statements ends: it runs to its end, it executes
    [return], or it raises. *)
Inductive flow (A : Type) :=
| Next (a : A)
| Returned
| Raising (msg : pystr).
Arguments Next {A} a.
Arguments Returned {A}.
Arguments Raising {A} msg.

Definition Pm (A : Type) : Type := World -> flow A * World.

Definition unit_ {A} (a : A) : Pm A := fun w => (Next a, w).
Definition then_ {A B} (m : Pm A) (k : A -> Pm B) : Pm B :=
  fun w =>
    match m w with
    | (Next a, w1) => k a w1
    | (Returned, w1) => (Returned, w1)
    | (Raising msg, w1) => (Raising msg, w1)
    end.

#[global] Instance Pm_ret : MRet Pm := @unit_.
#[global] Instance Pm_bind : MBind Pm := fun A B k m => then_ m k.

Definition act (f : World -> World) : Pm unit := fun w => (Next tt, f w).
Definition ask {A} (f : World -> A * World) : Pm A :=
  fun w => let '(a, w1) := f w in (Next a, w1).
Definition return_ {A} : Pm A := fun w => (Returned, w).
Definition raise {A} (msg : pystr) : Pm A := fun w => (Raising msg, w).
Definition of_result {A} (r : result A) : Pm A :=
  match r with
  | Success a => unit_ a
  | Raises msg => raise msg
  end.

(** [try: body / except Exception as e: handler(str(e)) / finally: final] *)
Definition try_except_finally (body : Pm unit) (handler : pystr -> Pm unit)
    (final : World -> World) : Pm unit :=
  fun w =>
    let '(r, w1) := body w in
    let '(r2, w2) :=
      match r with
      | Raising msg => handler msg w1
      | _ => (r, w1)
      end in
    (r2, final w2).

(** [str(n)] for an integer. *)
Definition str_Z (z : Z) : pystr :=
  py ((if (z <? 0)%Z then "-" else "") ++ Srt.dec 1 (Z.abs_N z))%string.
Definition str_nat (n : nat) : pystr := str_Z (Z.of_nat n).

(** [options.get(key)] *)
Fixpoint options_get (key : pystr) (options : Transcribe.options_t)
  : option pystr :=
  match options with
  | [] => None
  | (k, v) :: rest =>
    if bool_decide (k = key) then Some v else options_get key rest
  end.

(** [Path(name).stem]: the last component, without its last suffix. *)
Fixpoint last_component (acc name : pystr) : pystr :=
  match name with
  | [] => acc
  | c :: rest =>
    if (c =? 0x2F)%N then last_component [] rest
    else last_component (acc ++ [c]) rest
  end.

Fixpoint rfind_dot (i : nat) (found : option nat) (name : pystr)
  : option nat :=
  match name with
  | [] => found
  | c :: rest =>
    rfind_dot (S i) (if (c =? 0x2E)%N then Some i else found) rest
  end.

Definition path_stem (path : pystr) : pystr :=
  let name := last_component [] path in
  match rfind_dot 0 None name with
  | Some i =>
    if (0 <? i)%nat && (i <? length name - 1)%nat then firstn i name
    else name
  | None => name
  end.

Definition EMPTY_SEGMENT_ERRORS : list pystr :=
  [py "EMPTY_TRANSCRIPT"; py "EMPTY_AFTER_NORMALIZE"; py "HF_EMPTY_TRANSCRIPT"].

(** The counters of the completion loop. *)
Record tally := mkTally {
  results : list SegmentResult;
  fail_count : nat;
  empty_count : nat;
  done : nat
}.

Section Run.

Variable cfg : Config.t.
Variable o : Oracle.
(** [str(OUTPUTS_ROOT)], with its separator. *)
Variable outputs_root : pystr.
Variable job_id : string.

Local Abbreviation append_log_ := (append_log (wall o) cfg job_id).
Local Abbreviation set_status_ := (set_status (wall o) job_id).
Local Abbreviation set_progress_ := (set_progress (wall o) job_id).
Local Abbreviation set_error_ := (set_error (wall o) job_id).
Local Abbreviation touch_heartbeat_ := (touch_heartbeat (wall o) job_id).

(** [is_cancel_requested(job_id)], after the cancel request that may have
    arrived by now has been served. *)
Definition poll_cancel : Pm bool :=
  fun w =>
    let w := if cancel_at o (clock w) then api_cancel (wall o) cfg job_id w
             else w in
    let '(c, w) := is_cancel_requested job_id w in
    (Next c, w).

(** [set_status(job_id, "cancelled"); append_log(...); return] *)
Definition cancelled_return {A} : Pm A :=
  act (set_status_ Cancelled) ;;
  act (append_log_ (py "🛑 任务已取消")) ;;
  return_.

(** The numbers [process_job] reads from the options: the configured
    default for an absent key, [None] where [float] raises. *)
Definition float_option (options : Transcribe.options_t) (key : pystr)
    (default : Q) : option Q :=
  match options_get key options with
  | None => Some default
  | Some raw => float_ o raw
  end.

(** Lines 1338 to 1346: start, and normalise the upload. *)
Definition stage_normalize (p : Payload) : Pm unit :=
  act (set_status_ Running) ;;
  act (set_progress_ 1) ;;
  act (append_log_ (py "🚀 任务启动 | 模型: " ++ model p ++ py " | 语言: "
                    ++ language p)) ;;
  act (fun w => with_tmp_dirs ({[job_id]} ∪ tmp_dirs w) w) ;;
  of_result (normalize_to_wav o (file_path p)) ;;
  act touch_heartbeat_ ;;
  act (set_progress_ 8) ;;
  act (append_log_ (py "✅ 音频标准化完成 (16k/mono/wav)")).

(** [detect_speech_segments] with its two collaborators: the probe of the
    duration, and the voice activity model, which is not consulted for a
    file of at most 0.05 seconds. *)
Definition detect : Pm (list SpeechSeg * Q * nat) :=
  total_dur ← of_result (ffprobe_duration o);
  if Qle_bool total_dur 0.05 then mret ([], 0, O)
  else
    speech_ts ← of_result (get_speech_timestamps o);
    mret (Vad.detect_speech_segments cfg total_dur speech_ts).

(** Lines 1348 to 1384: segmentation, and its summary in the log. *)
Definition stage_segment (p : Payload) : Pm (list SpeechSeg) :=
  vad ← of_result (resolve_vad_options o (options p));
  let '(vad_preset, vad_threshold, vad_min_silence_ms, vad_min_speech_ms,
        vad_speech_pad_ms) := vad in
  d ← detect;
  let '(segments, total_dur, split_count) := d in
  act touch_heartbeat_ ;;
  (if negb (nonempty segments) then raise (py "未检测到有效语音片段")
   else mret tt) ;;
  let min_transcribe_sec :=
    Vad.option_or_default
      (float_option (options p) (py "min_transcribe_segment_seconds")
         (Config.MIN_TRANSCRIBE_SEGMENT_SECONDS cfg))
      0.2 2 (Config.MIN_TRANSCRIBE_SEGMENT_SECONDS cfg) in
  let merge_gap_sec :=
    Vad.option_or_default
      (float_option (options p) (py "short_segment_merge_gap_seconds")
         (Config.SHORT_SEGMENT_MERGE_GAP_SECONDS cfg))
      0 1 (Config.SHORT_SEGMENT_MERGE_GAP_SECONDS cfg) in
  let '(segments, merged_short, dropped_short) :=
    Vad.optimize_segments_for_transcription segments min_transcribe_sec
      merge_gap_sec (Config.MAX_SEGMENT_SECONDS cfg) in
  let speech_sum := fold_left (fun acc s => acc + dur s) segments 0 in
  let ratio :=
    if Vad.Qlt_bool 0 total_dur then speech_sum / total_dur * 100 else 0 in
  act (append_log_
         (py "🎙️ Silero VAD 完成: " ++ str_nat (length segments)
          ++ py " 段 | 分裂 " ++ str_nat split_count
          ++ py " 次 | 有声占比 " ++ py (Transcribe.fmt_fixed 1 ratio)
          ++ py "% | preset=" ++ vad_preset
          ++ py " threshold=" ++ py (Transcribe.fmt_fixed 2 vad_threshold)
          ++ py " min_silence=" ++ str_Z vad_min_silence_ms
          ++ py "ms min_speech=" ++ str_Z vad_min_speech_ms
          ++ py "ms pad=" ++ str_Z vad_speech_pad_ms
          ++ py "ms | 合并短段 " ++ str_nat merged_short
          ++ py " | 丢弃超短 " ++ str_nat dropped_short)) ;;
  act (set_progress_ 14) ;;
  mret segments.

(** [fut.result()] for the future of segment [i], and the handler around
    it. *)
Definition future_result (p : Payload) (i : nat) (seg : SpeechSeg)
  : SegmentResult :=
  match future_raises o i with
  | Some e => mkResult false i 0 0 [] (Some (py "FUTURE_EXC: " ++ firstn 120 e)) 0
  | None =>
    (Transcribe.transcribe_task (html_unescape o) cfg (task_env o i) i seg
       (model p) (language p) (options p)).1
  end.

(** The body of the loop, after the result [r] is known. *)
Definition count_result (r : SegmentResult) (t : tally) : Pm tally :=
  if r_ok r then
    mret (mkTally (results t ++ [r]) (fail_count t) (empty_count t) (done t))
  else if bool_decide (r_error r ∈ (Some <$> EMPTY_SEGMENT_ERRORS)) then
    mret (mkTally (results t) (fail_count t) (S (empty_count t)) (done t))
  else
    match r_error r with
    | Some err =>
      if nonempty err && negb (bool_decide (err = py "CANCELLED")) then
        act (append_log_ (py "⚠️ 片段#" ++ str_nat (r_idx r) ++ py " 失败: "
                          ++ err))
      else mret tt
    | None => mret tt
    end ;;
    mret (mkTally (results t) (S (fail_count t)) (empty_count t) (done t)).

(** [for fut in as_completed(future_map)]: the futures in the order in
    which they finish; [break] leaves the loop. *)
Fixpoint completion_loop (p : Payload) (segments : list SpeechSeg)
    (futs : list nat) (t : tally) : Pm tally :=
  match futs with
  | [] => mret t
  | i :: rest =>
    match segments !! i with
    | None => completion_loop p segments rest t
    | Some seg =>
      let t := mkTally (results t) (fail_count t) (empty_count t)
                 (S (done t)) in
      act touch_heartbeat_ ;;
      c ← poll_cancel;
      if (c : bool) then
        act (append_log_ (py "🛑 检测到取消请求，正在收尾")) ;;
        mret t
      else
        t ← count_result (future_result p i seg) t;
        let total := length segments in
        act (set_progress_
               (14 + 80 * inject_Z (Z.of_nat (done t))
                     / inject_Z (Z.of_nat (Nat.max 1 total)))) ;;
        completion_loop p segments rest t
    end
  end.

(** Lines 1386 to 1451: transcription, and the subtitle file. *)
Definition stage_transcribe (p : Payload) (segments : list SpeechSeg)
  : Pm unit :=
  c ← poll_cancel;
  (if (c : bool) then cancelled_return else mret tt) ;;
  t ← completion_loop p segments (as_completed o (length segments))
        (mkTally [] O O O);
  c ← poll_cancel;
  (if (c : bool) then cancelled_return else mret tt) ;;
  (if negb (nonempty (results t)) then
     raise (py "转录全量失败（失败段: "
            ++ str_nat (fail_count t + empty_count t) ++ py "）")
   else mret tt) ;;
  (if (0 <? empty_count t)%nat then
     act (append_log_ (py "ℹ️ 空转写片段: " ++ str_nat (empty_count t)
                       ++ py " 段（多为静音/呼吸/噪声），已自动忽略"))
   else mret tt) ;;
  (if (0 <? fail_count t)%nat then
     act (append_log_ (py "ℹ️ 部分片段失败: " ++ str_nat (fail_count t)
                       ++ py " 段，已自动跳过"))
   else mret tt) ;;
  let srt := Srt.build_srt (results t) (language p) (model p) in
  let out_path := outputs_root ++ py job_id ++ py ".srt" in
  of_result (atomic_write_text o srt) ;;
  act (fun w => with_outputs (<[job_id := srt]> (outputs w)) w) ;;
  let download_name := path_stem (original_name p) ++ py ".srt" in
  act (set_result (wall o) job_id out_path download_name) ;;
  act (append_log_ (py "✅ 任务完成，SRT 已生成")).

(** The [try] block. *)
Definition try_block (p : Payload) : Pm unit :=
  stage_normalize p ;;
  segments ← stage_segment p;
  stage_transcribe p segments.

(** The [except] block. *)
Definition except_block (err : pystr) : Pm unit :=
  act (set_error_ err) ;;
  act (append_log_ (py "❌ 任务失败: " ++ err)).

(** The [finally] block. *)
Definition finally_block (w : World) : World :=
  mark_meta_dirty job_id (release_job_lease job_id (remove_tmp job_id w)).

Definition process_job : Pm unit :=
  j ← ask (get_job job_id);
  match j with
  | None => return_
  | Some j =>
    got ← ask (acquire_job_lease job_id);
    if negb got then
      act (append_log_ (py "⏭️ 检测到其他 Worker 正在处理该任务，当前实例跳过")) ;;
      return_
    else
      let p := payload j in
      if negb (path_exists o (file_path p)) then
        act (set_error_ (py "上传文件不存在或已被清理")) ;;
        act (append_log_ (py "❌ 上传文件缺失")) ;;
        return_
      else
        c ← poll_cancel;
        if (c : bool) then cancelled_return
        else try_except_finally (try_block p) except_block finally_block
  end.

(** One turn of [worker_loop], for the id taken from the queue. *)
Definition worker_turn (w : World) : World :=
  let '(j, w) := get_job job_id w in
  match j with
  | None => w
  | Some j =>
    match status j with
    | Queued | Running =>
      if cancel_requested j then
        append_log_ (py "🛑 队列中取消") (set_status_ Cancelled w)
      else
        match process_job w with
        | (Raising _, w) => set_error_ (py "Worker 异常终止") w
        | (_, w) => w
        end
    | _ => w
    end
  end.

End Run.

(** [GET /api/download/<job_id>], as far as the registry goes. *)
Definition api_download (o : Oracle) (job_id : string) (w : World) : World :=
  let '(j, w) := get_job job_id w in
  match j with
  | None => w
  | Some j =>
    match status j with
    | Done =>
      if path_exists o (default [] (result_path j))
      then mark_downloaded (wall o) job_id w else w
    | _ => w
    end
  end.


(** A specification of a block: from a world in [P], the block ends in
    [Q] when it runs to its end, in [R] when it returns, and in [X] when
    it raises. *)
Definition triple {A} (P : World -> Prop) (m : Pm A)
    (Q : A -> World -> Prop) (R X : World -> Prop) : Prop :=
  forall w, P w ->
    match m w with
    | (Next a, w') => Q a w'
    | (Returned, w') => R w'
    | (Raising _, w') => X w'
    end.


End Worker.


(** ** Sample inputs *)

Module Examples.

Import Text Registry Worker.
Local Open Scope Q_scope.

(** A job id as [uuid.uuid4().hex] makes them. *)
Definition sample_id : string := "3f2b8c4d9e7a4f60b1c2d3e4f5a6b7c8".

Definition upload : Payload :=
  mkPayload (py "data/jobs/uploads/3f2b8c4d9e7a4f60b1c2d3e4f5a6b7c8/talk.mp3")
    (py "en") (py "nova-2-general") (py "talk.mp3") [].

(** The transcoder cuts every window, and the provider hears the same two
    words in each. *)
Definition quiet : Transcribe.Env :=
  Transcribe.mkEnv false (fun _ _ => Transcribe.CutOk)
    (fun _ _ =>
       Transcribe.HttpResponse 200 (py "{}") (Some (py "hello world")))
    (fun _ => Transcribe.HttpResponse 200 (py "{}") (Some (py "hello"))).

(** Ten seconds of audio with speech from second 1 to second 5; the clock
    ticks once a reading. *)
Definition oracle_with (upload_there : bool) (cancel : nat -> bool)
    (vad : result (pystr * Q * Z * Z * Z)) : Oracle :=
  mkOracle (fun s => s) (fun n => inject_Z (Z.of_nat n)) cancel
    (fun _ => upload_there) (fun _ => Success tt) (fun _ => None)
    (fun _ => vad) (Success 10) (Success [(16000%Z, 80000%Z)])
    (fun _ => quiet) (fun _ => None) (fun n => seq 0 n)
    (fun _ => Success tt).

Definition general_preset : result (pystr * Q * Z * Z * Z) :=
  Success (py "general", 0.55, 420%Z, 240%Z, 110%Z).

(** Nothing goes wrong. *)
Definition smooth : Oracle := oracle_with true (fun _ => false) general_preset.

(** The upload has been cleaned away. *)
Definition upload_missing : Oracle :=
  oracle_with false (fun _ => false) general_preset.


(** The options hold a [vad_threshold] of 200 letters, of which [float]
    says what it cannot convert. *)
Definition float_error : pystr :=
  py "could not convert string to float: '" ++ repeat 0x78%N 200 ++ py "'".

Definition bad_threshold : Oracle :=
  oracle_with true (fun _ => false) (Raises float_error).

Definition outputs_root : pystr := py "data/jobs/outputs/".

(** The world after [api_start] has queued the job. *)
Definition queued : World :=
  append_log (wall smooth) Config.default sample_id
    (py "📦 文件上传完成，任务已入队")
    (init_job (wall smooth) sample_id upload (mkWorld ∅ ∅ ∅ ∅ ∅ ∅ O [])).

End Examples.


(** ** Notions used to state further properties *)

Module Notions.

Local Open Scope Q_scope.

(** The pieces lie end to end from [a] to [b], each of them of positive
    length. *)
Fixpoint joined (a : Q) (pieces : list SpeechSeg) (b : Q) : Prop :=
  match pieces with
  | [] => a = b
  | p :: rest => start p = a /\ start p < end_ p /\ joined (end_ p) rest b
  end.

(** The segment lies in the file of [total_dur] seconds and is not empty. *)
Definition within_file (total_dur : Q) (p : SpeechSeg) : Prop :=
  0 <= start p /\ start p < end_ p /\ end_ p <= total_dur.

(** The results that [build_srt] uses: [r.ok and r.text]. *)
Definition usable (r : SegmentResult) : bool := r_ok r && nonempty (r_text r).

(** The list is in the order of [Srt.key_le]. *)
Fixpoint in_key_order (l : list SegmentResult) : Prop :=
  match l with
  | [] => True
  | x :: rest =>
    Forall (fun y => Srt.key_le x y = true) rest /\ in_key_order rest
  end.

(** The characters of a text that are not white space, in order. *)
Definition ink (s : pystr) : pystr :=
  List.filter (fun c => negb (isspace c)) s.

(** No two white-space characters stand side by side. *)
Fixpoint single_spaced (s : pystr) : Prop :=
  match s with
  | a :: t =>
    match t with
    | b :: _ => (isspace a = true -> isspace b = false) /\ single_spaced t
    | [] => True
    end
  | [] => True
  end.

(** Not a tab, a carriage return, a form feed, a vertical tab, a newline
    or an ideographic space. *)
Definition inline_char (c : char) : Prop :=
  Text.blank_ctl c = false /\ Text.newline c = false /\ c <> 0x3000%N.

(** The events of a task that are requests to a provider, to the general
    one, to the Japanese one, and cuts by the transcoder. *)
Definition is_post (e : Transcribe.event) : bool :=
  match e with
  | Transcribe.EvDeepgram _ | Transcribe.EvHf _ => true
  | _ => false
  end.
Definition is_deepgram (e : Transcribe.event) : bool :=
  match e with Transcribe.EvDeepgram _ => true | _ => false end.
Definition is_hf (e : Transcribe.event) : bool :=
  match e with Transcribe.EvHf _ => true | _ => false end.
Definition is_cut (e : Transcribe.event) : bool :=
  match e with Transcribe.EvCut _ => true | _ => false end.
Definition count {A} (f : A -> bool) (l : list A) : nat :=
  length (List.filter f l).

End Notions.


(** ** Status polls, persistence and clean-up *)

Module Service.

Import Text Registry.
Local Open Scope Q_scope.

(** The body of the answer to [GET /api/status/<job_id>]. *)
Record StatusReply := mkStatus {
  st_status : status_t;
  st_progress : Q;
  new_logs : list LogEntry;
  next_since : Z;
  download_url : option pystr;
  st_error : option pystr;
  st_cancel_requested : bool
}.

(** [api_status], after the check of the token; [since] is what
    [int(since_raw)] gave, or 0 where it raised. [None] is the answer
    404. *)
Definition api_status (job_id : string) (since : Z) (w : World)
  : option StatusReply * World :=
  let '(j, w) := get_job job_id w in
  match j with
  | None => (None, w)
  | Some j =>
    let logs := logs j in
    let new_logs :=
      List.filter (fun x => (since <? Z.of_nat (log_seq_no x))%Z) logs in
    let next_since :=
      match last logs with
      | Some x => Z.of_nat (log_seq_no x)
      | None => since
      end in
    (Some
       (mkStatus (status j) (progress j) new_logs next_since
          (match result_path j with
           | Some p =>
             if nonempty p then Some (py "/api/download/" ++ py job_id)
             else None
           | None => None
           end)
          (error j) (cancel_requested j)),
     w)
  end.

End Service.



(** ** Persistence of the records *)

Module Persistence.

Import Text Registry.

(** [l[-n:]] *)
Definition tail_slice {A} (n : nat) (l : list A) : list A :=
  match n with
  | O => l
  | S _ => skipn (length l - n) l
  end.

Section Meta.

(** [Config.META_LOG_MAX_LINES] *)
Variable META_LOG_MAX_LINES : nat.

(** Whether [atomic_write_text] raises when it writes [meta/<id>.json]. *)
Variable write_fails : string -> bool.

Definition _snapshot_for_meta (j : Job) : Job :=
  if (META_LOG_MAX_LINES <? length (logs j))%nat
  then assign_to j (Logs (tail_slice META_LOG_MAX_LINES (logs j)))
  else j.

(** [save_meta]; [None] when the write raises, which leaves the file as it
    was. *)
Definition save_meta (job_snapshot : Job) (w : World) : option World :=
  let job_id := id job_snapshot in
  if String.eqb job_id "" then Some w
  else if write_fails job_id then None
  else Some (with_meta_files (<[job_id := job_snapshot]> (meta_files w)) w).

(** The body of the loop of [flush_meta_once]. *)
Definition flush_step (acc : nat * World) (jid : string) : nat * World :=
  let '(flushed, w) := acc in
  let '(j, w) := get_job jid w in
  match j with
  | None => (flushed, w)
  | Some j =>
    match save_meta (_snapshot_for_meta j) w with
    | Some w' => (S flushed, w')
    | None => (flushed, w)
    end
  end.

(** [flush_meta_once]; the ids are taken in the order of [elements]. *)
Definition flush_meta_once (force_all : bool) (w : World) : nat * World :=
  if force_all then
    fold_left flush_step (elements (dom (JOBS w) : gset string)) (O, w)
  else if bool_decide (META_DIRTY w = ∅) then (O, w)
  else
    fold_left flush_step (elements (META_DIRTY w)) (O, with_META_DIRTY ∅ w).

End Meta.

(** [status in {"queued", "running"} and not cancel_requested] *)
Definition to_requeue (j : Job) : bool :=
  match status j with
  | Queued | Running => negb (cancel_requested j)
  | _ => false
  end.

(** Steps 1 and 2 of [bootstrap]: the records of the meta files go into the
    registry, and the ids of the jobs to queue again are returned. *)
Definition bootstrap (w : World) : list string * World :=
  let jobs :=
    fold_left
      (fun jobs d =>
         if String.eqb (id d) "" then jobs else <[id d := d]> jobs)
      (map snd (map_to_list (meta_files w))) (JOBS w) in
  (map fst (List.filter (fun kj => to_requeue kj.2) (map_to_list jobs)),
   with_JOBS jobs w).

End Persistence.



(** ** Clean-up *)

Module Cleanup.

Import Text Registry.
Local Open Scope Q_scope.

(** The settings of [class Config] that [cleanup_loop] reads. *)
Record Retention := mkRetention {
  ORPHAN_RETENTION_SECONDS : Z;
  DONE_RETENTION_SECONDS : Z;
  ERROR_RETENTION_SECONDS : Z;
  AUTO_CLEANUP_AFTER_DOWNLOAD : bool;
  DOWNLOAD_GRACE_SECONDS : Z
}.

(** [x or fallback] for a number: 0.0 counts as missing. *)
Definition float_or (x fallback : Q) : Q :=
  if Qeq_bool x 0 then fallback else x.

(** The same for a field that may hold [None]. *)
Definition option_or (x : option Q) (fallback : Q) : Q :=
  match x with
  | Some v => float_or v fallback
  | None => fallback
  end.

(** The truth value of such a field. *)
Definition truthy (x : option Q) : bool :=
  match x with
  | Some v => negb (Qeq_bool v 0)
  | None => false
  end.

(** The directories [uploads/<id>] that exist, and the rest of the
    state. *)
Definition Store : Type := gset string * World.

(** [_delete_job_artifacts]; every removal is taken to succeed. *)
Definition _delete_job_artifacts (job_id : string) (s : Store) : Store :=
  let '(uploads, w) := s in
  let w := release_job_lease job_id w in
  let uploads := uploads ∖ {[job_id]} in
  let w := remove_tmp job_id w in
  let w := with_outputs (delete job_id (outputs w)) w in
  let w := with_meta_files (delete job_id (meta_files w)) w in
  (uploads, with_JOBS (delete job_id (JOBS w)) w).

Section Loop.

Variable wall : nat -> Q.
Variable cfg : Config.t.
Variable ret : Retention.

(** [should_delete], from the status and the ages. *)
Definition should_delete (j : Job) (now age : Q) : bool :=
  match status j with
  | Done =>
    if AUTO_CLEANUP_AFTER_DOWNLOAD ret && truthy (downloaded_at j) then
      let down_age := now - option_or (downloaded_at j) now in
      Qle_bool (inject_Z (DOWNLOAD_GRACE_SECONDS ret)) down_age
    else Qle_bool (inject_Z (DONE_RETENTION_SECONDS ret)) age
  | Error | Cancelled =>
    Qle_bool (inject_Z (ERROR_RETENTION_SECONDS ret)) age
  | Queued | Running => false
  end.

(** The body of the loop over the ids. *)
Definition cleanup_one (now : Q) (s : Store) (jid : string) : Store :=
  let '(uploads, w) := s in
  let '(j, w) := get_job jid w in
  match j with
  | None => (uploads, w)
  | Some j =>
    let updated_at := float_or (updated_at j) now in
    let heartbeat := float_or (last_heartbeat j) updated_at in
    let age := now - updated_at in
    let hb_age := now - heartbeat in
    if match status j with Queued | Running => true | _ => false end
       && Vad.Qlt_bool (inject_Z (ORPHAN_RETENTION_SECONDS ret)) hb_age
    then
      (uploads,
       set_error wall jid (py "任务心跳超时（可能进程异常中断）")
         (append_log wall cfg jid (py "⚠️ 任务心跳超时，已标记为错误") w))
    else if should_delete j now age then _delete_job_artifacts jid (uploads, w)
    else (uploads, w)
  end.

(** One round of [cleanup_loop] with [AUTO_CLEANUP_ENABLED]; the ids are
    taken in the order of [elements]. *)
Definition cleanup_round (s : Store) : Store :=
  let '(uploads, w) := s in
  let '(now, w) := ts wall w in
  fold_left (cleanup_one now) (elements (dom (JOBS w) : gset string))
    (uploads, w).

End Loop.

End Cleanup.



(** ** The settings and the environment *)

Module Env.

Local Open Scope Q_scope.

(** A Python float, as far as comparisons go. *)
Inductive pyfloat :=
| Finite (q : Q)
| PosInf
| NegInf
| NaN.

(** [a < b] *)
Definition float_lt (a b : pyfloat) : bool :=
  match a, b with
  | NaN, _ | _, NaN => false
  | Finite x, Finite y => Vad.Qlt_bool x y
  | Finite _, PosInf => true
  | Finite _, NegInf => false
  | PosInf, _ => false
  | NegInf, NegInf => false
  | NegInf, _ => true
  end.

(** [max(a, b)] and [min(a, b)]: the first argument, unless the second is
    greater (smaller). *)
Definition float_max (a b : pyfloat) : pyfloat := if float_lt a b then b else a.
Definition float_min (a b : pyfloat) : pyfloat := if float_lt b a then b else a.

Section Getenv.

(** [os.getenv] *)
Variable getenv : string -> option pystr.
(** [int(raw)] and [float(raw)] for a string; [None] where they raise. *)
Variable int_ : pystr -> option Z.
Variable float_ : pystr -> option pyfloat.

Definition _env_str (name : string) (default : pystr) : pystr :=
  strip (match getenv name with Some v => v | None => default end).

Definition _env_int (name : string) (default : Z) (minimum maximum : option Z)
  : Z :=
  let val :=
    match getenv name with
    | Some raw => match int_ raw with Some v => v | None => default end
    | None => default
    end in
  let val := match minimum with Some m => Z.max m val | None => val end in
  match maximum with Some m => Z.min m val | None => val end.

Definition _env_float (name : string) (default : pyfloat)
    (minimum maximum : option pyfloat) : pyfloat :=
  let val :=
    match getenv name with
    | Some raw => match float_ raw with Some v => v | None => default end
    | None => default
    end in
  let val := match minimum with Some m => float_max m val | None => val end in
  match maximum with Some m => float_min m val | None => val end.

Definition _env_bool (name : string) (default : bool) : bool :=
  match getenv name with
  | None => default
  | Some raw =>
    bool_decide
      (lower (strip raw) ∈ [py "1"; py "true"; py "yes"; py "on"; py "y"])
  end.

(** The attributes of [class Config] that the functions above read. *)
Definition MAX_SEGMENT_SECONDS : pyfloat :=
  _env_float "MAX_SEGMENT_SECONDS" (Finite 15) (Some (Finite 5))
    (Some (Finite 30)).
Definition MIN_SEGMENT_SECONDS : pyfloat :=
  _env_float "MIN_SEGMENT_SECONDS" (Finite 0.25) (Some (Finite 0.1))
    (Some (Finite 2)).
Definition MIN_TRANSCRIBE_SEGMENT_SECONDS : pyfloat :=
  _env_float "MIN_TRANSCRIBE_SEGMENT_SECONDS" (Finite 0.45)
    (Some (Finite 0.2)) (Some (Finite 2)).
Definition SHORT_SEGMENT_MERGE_GAP_SECONDS : pyfloat :=
  _env_float "SHORT_SEGMENT_MERGE_GAP_SECONDS" (Finite 0.2) (Some (Finite 0))
    (Some (Finite 1)).
Definition LOG_MAX_LINES : Z :=
  _env_int "LOG_MAX_LINES" 1000 (Some 100%Z) (Some 10000%Z).
Definition META_LOG_MAX_LINES : Z :=
  _env_int "META_LOG_MAX_LINES" 500 (Some 50%Z) (Some 5000%Z).
Definition ORPHAN_RETENTION_SECONDS : Z :=
  _env_int "ORPHAN_RETENTION_SECONDS" 86400 (Some 60%Z) None.
Definition DONE_RETENTION_SECONDS : Z :=
  _env_int "DONE_RETENTION_SECONDS" 7200 (Some 60%Z) None.
Definition ERROR_RETENTION_SECONDS : Z :=
  _env_int "ERROR_RETENTION_SECONDS" 86400 (Some 60%Z) None.
Definition AUTO_CLEANUP_AFTER_DOWNLOAD : bool :=
  _env_bool "AUTO_CLEANUP_AFTER_DOWNLOAD" false.
Definition DOWNLOAD_GRACE_SECONDS : Z :=
  _env_int "DOWNLOAD_GRACE_SECONDS" 60 (Some 0%Z) None.

(** The number of a float that is one. *)
Definition number (x : pyfloat) : Q :=
  match x with
  | Finite q => q
  | _ => 0
  end.

(** The settings as the records of the model hold them. *)
Definition config : Config.t :=
  Config.mk (number MAX_SEGMENT_SECONDS) (number MIN_SEGMENT_SECONDS)
    (number MIN_TRANSCRIBE_SEGMENT_SECONDS)
    (number SHORT_SEGMENT_MERGE_GAP_SECONDS) (Z.to_nat LOG_MAX_LINES)
    (_env_str "DEEPGRAM_API_KEY" []) (_env_str "HF_TOKEN" [])
    (_env_str "DEFAULT_MODEL" (py "nova-2-general")).

Definition retention : Cleanup.Retention :=
  Cleanup.mkRetention ORPHAN_RETENTION_SECONDS DONE_RETENTION_SECONDS
    ERROR_RETENTION_SECONDS AUTO_CLEANUP_AFTER_DOWNLOAD DOWNLOAD_GRACE_SECONDS.

End Getenv.

End Env.



(** ** The address of the general provider *)

Module Url.

Local Open Scope N_scope.

(** [s.lstrip(chars)] and [s.rstrip(chars)] *)
Fixpoint lstrip_chars (chars s : pystr) : pystr :=
  match s with
  | c :: rest => if one_of chars c then lstrip_chars chars rest else s
  | [] => []
  end.

Definition rstrip_chars (chars s : pystr) : pystr :=
  rev (lstrip_chars chars (rev s)).

(** [s.endswith(suffix)] *)
Definition endswith (suffix s : pystr) : bool :=
  starts_with (rev suffix) (rev s).

(** [Config.DEEPGRAM_BASE_URL], from what [_env_str] gives. *)
Definition DEEPGRAM_BASE_URL (env_str : pystr) : pystr :=
  rstrip_chars (py "/") env_str.

(** [dg_url], for the base address [base]. *)
Definition dg_url (base path : pystr) : pystr :=
  let base :=
    if endswith (py "/v1") base then firstn (length base - 3) base
    else base in
  base ++ py "/v1/" ++ lstrip_chars (py "/") path.

End Url.



(** * Theorems *)

(** ** Facts about the string primitives *)

Module PyStrFacts.

Local Open Scope N_scope.

Lemma sub_runs_from_Forall (Q : char -> Prop) cls n rep s : forall run,
  Forall Q rep -> Forall Q run -> Forall Q s ->
  Forall Q (sub_runs_from cls n rep run s).
Proof.
  induction s as [|c t IH]; intros run Hrep Hrun Hs; simpl.
  - unfold emit_run. destruct run; [constructor|]. by destruct (_ <=? _)%nat.
  - inversion Hs; subst. destruct (cls c).
    + apply IH; auto. apply Forall_app; auto.
    + apply Forall_app. split.
      * unfold emit_run. destruct run; [constructor|].
        by destruct (_ <=? _)%nat.
      * constructor; auto.
Qed.

Lemma emit_run_1 rep run : run <> [] -> emit_run 1 rep run = rep.
Proof. destruct run; [done|]. reflexivity. Qed.

(** With [minlen = 1] no character of the class is left. *)
Lemma sub_runs_from_purge cls rep s : forall run,
  Forall (fun c => cls c = false) rep ->
  Forall (fun c => cls c = false) (sub_runs_from cls 1 rep run s).
Proof.
  induction s as [|c t IH]; intros run Hrep; simpl.
  - destruct run; [constructor|]. by rewrite emit_run_1.
  - destruct (cls c) eqn:E; [by apply IH|].
    apply Forall_app. split.
    + destruct run; [constructor|]. by rewrite emit_run_1.
    + constructor; [done|]. by apply IH.
Qed.

Lemma sub_runs_id cls n rep s :
  Forall (fun c => cls c = false) s -> sub_runs cls n rep s = s.
Proof.
  unfold sub_runs. induction 1 as [|c t Hc _ IH]; simpl; [done|].
  rewrite Hc. simpl. by rewrite IH.
Qed.

Lemma rstrip_snoc_space s w : isspace w = true -> rstrip (s ++ [w]) = rstrip s.
Proof. intros H. unfold rstrip. rewrite rev_unit. simpl. by rewrite H. Qed.

Lemma rstrip_snoc_char s c : isspace c = false -> rstrip (s ++ [c]) = s ++ [c].
Proof.
  intros H. unfold rstrip. rewrite rev_unit. simpl. rewrite H.
  simpl. by rewrite rev_involutive.
Qed.

Lemma rstrip_nil : rstrip [] = [].
Proof. reflexivity. Qed.

Lemma Forall_lstrip (Q : char -> Prop) s : Forall Q s -> Forall Q (lstrip s).
Proof.
  induction 1 as [|c t Hc Ht IH]; simpl; [constructor|].
  destruct (isspace c); [done|]. by constructor.
Qed.

Lemma Forall_strip (Q : char -> Prop) s : Forall Q s -> Forall Q (strip s).
Proof.
  intros H. unfold strip, rstrip.
  apply Forall_rev, Forall_lstrip, Forall_rev, Forall_lstrip, H.
Qed.

End PyStrFacts.

(** ** Normalisation: a second pass changes nothing once the entities are
    decoded *)

Module TextFacts.

Import Text PyStrFacts.
Local Open Scope N_scope.
Local Arguments untok : simpl never.

Ltac one_of_cases H :=
  unfold one_of in H; simpl in H;
  repeat (apply orb_prop in H; destruct H as [H|H]);
  try discriminate H; try (apply N.eqb_eq in H; subst).

Lemma punct_rep_not_space c : punct_rep c = true -> isspace c = false.
Proof. intros H. unfold punct_rep in H. one_of_cases H; reflexivity. Qed.

Lemma punct_rep_not_cjk c : punct_rep c = true -> cjk c = false.
Proof. intros H. unfold punct_rep in H. one_of_cases H; reflexivity. Qed.

Lemma isspace_SP : isspace SP = true.
Proof. reflexivity. Qed.

(** Characters that [tidy_spaces] rewrites wherever they stand. *)
Definition rough (c : char) : bool := (c =? 0x3000) || blank_ctl c || newline c.

Lemma rough_space c : rough c = true -> isspace c = true.
Proof.
  unfold rough, blank_ctl, newline. intros H.
  apply orb_prop in H. destruct H as [H|H].
  - apply orb_prop in H. destruct H as [H|H].
    + apply N.eqb_eq in H. by subst.
    + one_of_cases H; reflexivity.
  - apply N.eqb_eq in H. by subst.
Qed.

Lemma plain_ws_iff w : plain_ws w = true <-> isspace w = true /\ rough w = false.
Proof.
  unfold plain_ws, rough. rewrite andb_true_iff, negb_true_iff. tauto.
Qed.

(** The shape of a token, without the demand that its space is plain. *)
Definition tok_shape (t : token) : Prop :=
  isspace t.2 = false /\ forall w, t.1 = Some w -> isspace w = true.

Lemma tok_ok_shape t : tok_ok t -> tok_shape t.
Proof.
  intros [H1 H2]. split; [done|]. intros w Hw.
  apply H2 in Hw. by apply plain_ws_iff in Hw as [? _].
Qed.

Lemma untok_cons t T : untok (t :: T) = untok1 t ++ untok T.
Proof. reflexivity. Qed.

Lemma untok_app T1 T2 : untok (T1 ++ T2) = untok T1 ++ untok T2.
Proof. unfold untok. apply flat_map_app. Qed.

Lemma shape_smooth T :
  Forall tok_shape T -> Forall (fun c => rough c = false) (untok T) ->
  Forall tok_ok T.
Proof.
  induction 1 as [|[w c] T [Hc Hw] _ IH]; intros Hr; [constructor|].
  rewrite untok_cons in Hr. apply Forall_app in Hr as [Hr1 Hr2].
  constructor; [|by apply IH].
  split; [done|]. intros w' Hw'. simpl in *. subst w.
  unfold untok1 in Hr1. simpl in Hr1.
  inversion Hr1; subst. apply plain_ws_iff. split; [by apply Hw | done].
Qed.

Lemma tidy_smooth T :
  Forall tok_ok T -> Forall (fun c => rough c = false) (untok T).
Proof.
  induction 1 as [|[w c] T [Hc Hw] _ IH]; [constructor|].
  rewrite untok_cons. apply Forall_app. split; [|done].
  assert (rough c = false) as Hrc.
  { destruct (rough c) eqn:E; [|done]. apply rough_space in E.
    simpl in Hc. congruence. }
  unfold untok1. simpl in *. destruct w as [w|].
  - specialize (Hw w eq_refl). apply plain_ws_iff in Hw as [_ Hw].
    constructor; [done|]. by constructor.
  - by constructor.
Qed.

(** The first token loses its space. *)
Definition bare_head (T : list token) : list token :=
  match T with
  | [] => []
  | (_, c) :: T' => (None, c) :: T'
  end.

(** What [\s{2,}] leaves: tokens, and at most one whitespace at the end. *)
Lemma squash_spaces_shape s : forall run,
  Forall (fun c => isspace c = true) run ->
  exists T trail,
    Forall tok_shape T /\ Forall (fun c => isspace c = true) trail /\
    sub_runs_from isspace 2 [SP] run s = untok T ++ trail.
Proof.
  assert (forall run, Forall (fun c => isspace c = true) run ->
          exists o : option char,
            emit_run 2 [SP] run = match o with Some w => [w] | None => [] end
            /\ forall w, o = Some w -> isspace w = true) as Hemit.
  { intros run Hrun. destruct run as [|a [|b r]].
    - exists None. by split.
    - exists (Some a). split; [done|]. intros w [= <-]. by inversion Hrun.
    - exists (Some SP). split; [done|]. by intros w [= <-]. }
  induction s as [|c t IH]; intros run Hrun; simpl.
  - destruct (Hemit run Hrun) as (o & -> & Ho).
    exists [], (match o with Some w => [w] | None => [] end).
    split; [constructor|]. split; [|done].
    destruct o; [|constructor]. constructor; [by apply Ho | constructor].
  - destruct (isspace c) eqn:E.
    + apply IH. apply Forall_app. split; [done|]. by constructor.
    + destruct (IH [] (Forall_nil_2 _)) as (T & trail & HT & Htr & ->).
      destruct (Hemit run Hrun) as (o & -> & Ho).
      exists ((o, c) :: T), trail. split; [|split; [done|]].
      * constructor; [|done]. split; [done|]. simpl. intros w ->. by apply Ho.
      * rewrite untok_cons. unfold untok1. simpl. by destruct o.
Qed.

Lemma lstrip_spaces s r :
  Forall (fun c => isspace c = true) s -> lstrip (s ++ r) = lstrip r.
Proof. induction 1 as [|c t Hc _ IH]; simpl; [done|]. by rewrite Hc. Qed.

Lemma rstrip_spaces s r :
  Forall (fun c => isspace c = true) r -> rstrip (s ++ r) = rstrip s.
Proof.
  intros H. unfold rstrip. rewrite rev_app_distr.
  rewrite lstrip_spaces; [done|]. by apply Forall_rev.
Qed.

Lemma rstrip_untok T : Forall tok_shape T -> rstrip (untok T) = untok T.
Proof.
  intros H. destruct T as [|t0 T0] using rev_ind; [done|].
  apply Forall_app in H as [_ H]. inversion H as [|? ? [Hc Hw] _]; subst.
  rewrite untok_app. change (untok [t0]) with (untok1 t0 ++ []).
  rewrite app_nil_r.
  destruct t0 as [[w|] c]; unfold untok1; simpl in *.
  - replace (untok T0 ++ [w; c]) with ((untok T0 ++ [w]) ++ [c])
      by (by rewrite <- app_assoc).
    by apply rstrip_snoc_char.
  - by apply rstrip_snoc_char.
Qed.

Lemma lstrip_tok (w : option char) (c : char) (T : list token) (r : pystr) :
  isspace c = false -> (forall w0, w = Some w0 -> isspace w0 = true) ->
  lstrip (untok ((w, c) :: T) ++ r) = untok ((None, c) :: T) ++ r.
Proof.
  intros Hc Hw. rewrite !untok_cons. unfold untok1. simpl.
  destruct w as [w|]; simpl.
  - by rewrite (Hw w eq_refl), Hc.
  - by rewrite Hc.
Qed.

Lemma strip_shape T trail :
  Forall tok_shape T -> Forall (fun c => isspace c = true) trail ->
  strip (untok T ++ trail) = untok (bare_head T).
Proof.
  intros HT Htr. unfold strip. destruct T as [|[w c] T'].
  - simpl. rewrite <- (app_nil_r trail), lstrip_spaces by done. reflexivity.
  - inversion HT as [|? ? [Hc Hw] HT']; subst. simpl in Hc, Hw.
    rewrite lstrip_tok by done.
    rewrite rstrip_spaces by done. apply rstrip_untok.
    constructor; [|done]. split; [done|]. by intros w' [=].
Qed.

Lemma bare_head_shape T : Forall tok_shape T -> Forall tok_shape (bare_head T).
Proof.
  destruct 1 as [|[w c] T [Hc _] HT]; [constructor|].
  constructor; [|done]. split; [done|]. by intros ? [=].
Qed.

Lemma bare_head_bare T : starts_bare (bare_head T).
Proof. by destruct T as [|[w c] T]. Qed.

Lemma replace_char_purge a b s :
  a <> b -> Forall (fun c => (c =? a) = false) (replace_char a b s).
Proof.
  intros Hab. unfold replace_char. apply Forall_map, Forall_forall.
  intros c _. simpl. destruct (c =? a) eqn:E; [|done].
  apply N.eqb_neq. congruence.
Qed.

(** [tidy_spaces] produces a tidy string. *)
Lemma tidy_spaces_tidy x : exists T, tidy T /\ tidy_spaces x = untok T.
Proof.
  unfold tidy_spaces.
  set (x1 := replace_char 12288 SP x).
  set (x2 := sub_runs blank_ctl 1 [SP] x1).
  set (x3 := sub_runs newline 1 [SP] x2).
  assert (Forall (fun c => rough c = false) x3) as Hsmooth.
  { assert (Forall (fun c => (c =? 0x3000) = false) x1) as H1
      by (by apply replace_char_purge).
    assert (Forall (fun c => (c =? 0x3000) = false) x2) as H2.
    { apply sub_runs_from_Forall; auto. }
    assert (Forall (fun c => blank_ctl c = false) x2) as H2'.
    { apply sub_runs_from_purge. by repeat constructor. }
    assert (Forall (fun c => (c =? 0x3000) = false) x3) as H3.
    { apply sub_runs_from_Forall; auto. }
    assert (Forall (fun c => blank_ctl c = false) x3) as H3'.
    { apply sub_runs_from_Forall; auto. }
    assert (Forall (fun c => newline c = false) x3) as H3''.
    { apply sub_runs_from_purge. by repeat constructor. }
    rewrite Forall_forall in *. intros c Hc. unfold rough.
    by rewrite H3, H3', H3''. }
  destruct (squash_spaces_shape x3 [] (Forall_nil_2 _)) as (T & trail & HT & Htr & E).
  exists (bare_head T).
  assert (strip (sub_runs isspace 2 [SP] x3) = untok (bare_head T)) as Hs.
  { unfold sub_runs. rewrite E. by apply strip_shape. }
  split; [|done]. split; [|apply bare_head_bare].
  apply shape_smooth; [by apply bare_head_shape|].
  rewrite <- Hs. apply Forall_strip.
  apply sub_runs_from_Forall; auto.
Qed.

(** [tidy_spaces] leaves a tidy string alone. *)
Lemma squash_spaces_id T :
  Forall tok_shape T -> sub_runs isspace 2 [SP] (untok T) = untok T.
Proof.
  unfold sub_runs. induction 1 as [|[w c] T [Hc Hw] _ IH]; [done|].
  rewrite untok_cons. unfold untok1. simpl in *. destruct w as [w|]; simpl.
  - rewrite (Hw w eq_refl). simpl. rewrite Hc. simpl. by rewrite IH.
  - rewrite Hc. simpl. by rewrite IH.
Qed.

Lemma strip_tidy T : tidy T -> strip (untok T) = untok T.
Proof.
  intros [HT Hb]. apply Forall_impl with (Q := tok_shape) in HT;
    [|apply tok_ok_shape].
  rewrite <- (app_nil_r (untok T)) at 1.
  rewrite strip_shape by (done || constructor).
  destruct T as [|[w c] T']; [done|]. simpl in Hb. by subst.
Qed.

Lemma tidy_spaces_id T : tidy T -> tidy_spaces (untok T) = untok T.
Proof.
  intros HT. pose proof (tidy_smooth T (proj1 HT)) as Hs.
  unfold tidy_spaces.
  assert (replace_char 12288 SP (untok T) = untok T) as ->.
  { unfold replace_char. rewrite <- (map_id (untok T)) at 2.
    apply map_ext_in. intros c Hc. rewrite Forall_forall in Hs.
    apply list_elem_of_In in Hc. specialize (Hs c Hc). unfold rough in Hs.
    apply orb_false_elim in Hs as [Hs _]. apply orb_false_elim in Hs as [Hs _].
    by rewrite Hs. }
  rewrite (sub_runs_id blank_ctl).
  2:{ eapply Forall_impl; [exact Hs|]. intros c Hc. unfold rough in Hc.
      apply orb_false_elim in Hc as [Hc _].
      by apply orb_false_elim in Hc as [_ Hc]. }
  rewrite (sub_runs_id newline).
  2:{ eapply Forall_impl; [exact Hs|]. intros c Hc. unfold rough in Hc.
      by apply orb_false_elim in Hc as [_ Hc]. }
  rewrite squash_spaces_id.
  2:{ eapply Forall_impl; [exact (proj1 HT)|]. apply tok_ok_shape. }
  by apply strip_tidy.
Qed.

(** The substitutions of [tighten], read on tokens. *)
Lemma drop_ws_from_untok cond T : forall prev,
  Forall tok_shape T ->
  drop_ws_from cond prev [] (untok T) = untok (dropT cond prev T).
Proof.
  induction T as [|[w c] T IH]; intros prev HT; simpl.
  - by destruct (cond prev None).
  - inversion HT as [|? ? [Hc Hw] HT']; subst. simpl in Hc, Hw.
    rewrite !untok_cons. unfold untok1. simpl. destruct w as [w|]; simpl.
    + rewrite (Hw w eq_refl). simpl. rewrite Hc, IH by done.
      by destruct (cond prev (Some c)).
    + rewrite Hc, IH by done. by destruct (cond prev (Some c)).
Qed.

Lemma dropT_ok cond T : forall prev,
  Forall tok_ok T -> Forall tok_ok (dropT cond prev T).
Proof.
  induction T as [|[w c] T IH]; intros prev HT; simpl; [constructor|].
  inversion HT as [|? ? [Hc Hw] HT']; subst. constructor; [|by apply IH].
  split; [done|]. simpl in *. destruct (cond prev (Some c)); [by intros ? [=]|done].
Qed.

Lemma dropT_bare cond prev T : starts_bare T -> starts_bare (dropT cond prev T).
Proof.
  destruct T as [|[w c] T]; simpl; [done|]. intros ->. by destruct (cond _ _).
Qed.

Lemma dropT_tidy cond T : tidy T -> tidy (dropT cond None T).
Proof. intros [H1 H2]. split; [by apply dropT_ok | by apply dropT_bare]. Qed.

Lemma drop_ws_untok cond T :
  tidy T -> drop_ws cond (untok T) = untok (dropT cond None T).
Proof.
  intros [HT _]. apply drop_ws_from_untok.
  eapply Forall_impl; [exact HT | apply tok_ok_shape].
Qed.

Lemma head_untok_bare (c : char) (T : list token) :
  isspace c = false -> Forall tok_shape T ->
  opt_is c (head (untok T)) = bare_is c (head T).
Proof.
  intros Hc HT. destruct T as [|[w d] T']; [done|].
  inversion HT as [|? ? [Hd Hw] _]; subst. simpl in Hd, Hw.
  rewrite untok_cons. unfold untok1. simpl. destruct w as [w|]; simpl; [|done].
  apply N.eqb_neq. intros ->. rewrite (Hw c eq_refl) in Hc. discriminate.
Qed.

Lemma squeeze_from_untok cls T : forall prev,
  (forall c, cls c = true -> isspace c = false) ->
  Forall tok_shape T ->
  squeeze_from cls prev (untok T) = untok (squeezeT cls prev T).
Proof.
  intros prev Hcls. revert prev.
  induction T as [|[w c] T IH]; intros prev HT; [done|].
  inversion HT as [|? ? [Hc Hw] HT']; subst. simpl in Hc, Hw.
  rewrite untok_cons. unfold untok1. simpl. destruct w as [w|]; simpl.
  - assert (cls w = false) as ->.
    { destruct (cls w) eqn:E; [|done]. apply Hcls in E.
      rewrite (Hw w eq_refl) in E. discriminate. }
    simpl. assert ((w =? c) = false) as ->.
    { apply N.eqb_neq. intros ->. rewrite (Hw c eq_refl) in Hc. discriminate. }
    rewrite andb_false_r. simpl. rewrite IH by done.
    rewrite untok_cons. reflexivity.
  - rewrite head_untok_bare by done.
    destruct (cls c && opt_is c prev && bare_is c (head T)); rewrite IH by done;
      [done|]. rewrite untok_cons. reflexivity.
Qed.

Lemma squeezeT_ok cls T : forall prev,
  Forall tok_ok T -> Forall tok_ok (squeezeT cls prev T).
Proof.
  induction T as [|[w c] T IH]; intros prev HT; simpl; [constructor|].
  inversion HT; subst. destruct (_ && _); [by apply IH|].
  constructor; [done | by apply IH].
Qed.

Lemma squeezeT_tidy cls T : tidy T -> tidy (squeezeT cls None T).
Proof.
  intros [H1 H2]. split; [by apply squeezeT_ok|].
  destruct T as [|[w c] T]; [done|]. simpl in *. subst.
  by rewrite andb_false_r.
Qed.

Lemma squeeze_untok T :
  tidy T -> squeeze punct_rep (untok T) = untok (squeezeT punct_rep None T).
Proof.
  intros [HT _]. apply squeeze_from_untok; [apply punct_rep_not_space|].
  eapply Forall_impl; [exact HT | apply tok_ok_shape].
Qed.

Lemma tightenT_tidy b T : tidy T -> tidy (tightenT b T).
Proof.
  intros HT. unfold tightenT.
  destruct b; repeat (apply dropT_tidy || apply squeezeT_tidy); done.
Qed.

Lemma tighten_untok b T :
  tidy T -> tighten b (untok T) = untok (tightenT b T).
Proof.
  intros HT. unfold tighten.
  rewrite (drop_ws_untok between_cjk) by done.
  rewrite (drop_ws_untok before_punct) by (by repeat apply dropT_tidy).
  rewrite (drop_ws_untok after_open) by (by repeat apply dropT_tidy).
  rewrite (drop_ws_untok before_close) by (by repeat apply dropT_tidy).
  rewrite squeeze_untok by (by repeat apply dropT_tidy).
  pose proof (tightenT_tidy b T HT) as Hout. unfold tightenT in Hout |- *.
  destruct b.
  - rewrite (drop_ws_untok between_cjk)
      by (apply squeezeT_tidy; by repeat apply dropT_tidy).
    rewrite (drop_ws_untok cjk_then_punct)
      by (apply dropT_tidy, squeezeT_tidy; by repeat apply dropT_tidy).
    rewrite (drop_ws_untok punct_then_cjk)
      by (do 2 apply dropT_tidy; apply squeezeT_tidy; by repeat apply dropT_tidy).
    by apply strip_tidy.
  - by apply strip_tidy.
Qed.

(** Settled tokens: what a pass has deleted once, it finds no more. *)
Lemma clean_dropT_id cond T : forall prev,
  clean cond prev T -> dropT cond prev T = T.
Proof.
  induction T as [|[w c] T IH]; intros prev; simpl; [done|].
  intros [[-> | Hc] HT]; rewrite IH by done.
  - by destruct (cond prev (Some c)).
  - by rewrite Hc.
Qed.

Lemma dropT_clean cond T : forall prev, clean cond prev (dropT cond prev T).
Proof.
  induction T as [|[w c] T IH]; intros prev; simpl; [done|].
  split; [|apply IH]. destruct (cond prev (Some c)); auto.
Qed.

Lemma clean_dropT c1 c2 T : forall prev,
  clean c1 prev T -> clean c1 prev (dropT c2 prev T).
Proof.
  induction T as [|[w c] T IH]; intros prev; simpl; [done|].
  intros [Hw HT]. split; [|by apply IH].
  destruct (c2 prev (Some c)); auto.
Qed.

Lemma opt_is_eq c o : opt_is c o = true -> o = Some c.
Proof. destruct o as [d|]; simpl; [|done]. by intros ->%N.eqb_eq. Qed.

Lemma clean_squeezeT cond cls T : forall prev,
  clean cond prev T -> clean cond prev (squeezeT cls prev T).
Proof.
  induction T as [|[w c] T IH]; intros prev; simpl; [done|].
  intros [Hw HT].
  destruct (bool_decide (w = None) && cls c && opt_is c prev
            && bare_is c (head T)) eqn:E.
  - apply andb_prop in E as [E _]. apply andb_prop in E as [_ E].
    apply opt_is_eq in E. subst prev. by apply IH.
  - simpl. split; [done | by apply IH].
Qed.

Lemma calm_squeezeT_id cls T : forall prev,
  calm cls prev T -> squeezeT cls prev T = T.
Proof.
  induction T as [|[w c] T IH]; intros prev; simpl; [done|].
  intros [-> HT]. by rewrite IH.
Qed.

Lemma bare_is_eq c o : bare_is c o = true -> o = Some (None, c).
Proof.
  destruct o as [[[w|] d]|]; simpl; try done. by intros ->%N.eqb_eq.
Qed.

Lemma head_squeezeT cls c T :
  bare_is c (head (squeezeT cls (Some c) T)) = true ->
  bare_is c (head T) = true.
Proof.
  destruct T as [|[w d] T]; simpl; [done|].
  destruct (bool_decide (w = None) && cls d && (c =? d)
            && bare_is d (head T)) eqn:E; [|done].
  intros _. apply andb_prop in E as [E _]. apply andb_prop in E as [E1 E2].
  apply andb_prop in E1 as [E1 _]. apply bool_decide_eq_true in E1.
  apply N.eqb_eq in E2. subst. simpl. apply N.eqb_refl.
Qed.

Lemma squeezeT_calm cls T : forall prev, calm cls prev (squeezeT cls prev T).
Proof.
  induction T as [|[w c] T IH]; intros prev; simpl; [done|].
  destruct (bool_decide (w = None) && cls c && opt_is c prev
            && bare_is c (head T)) eqn:E.
  { apply andb_prop in E as [E _]. apply andb_prop in E as [_ E].
    apply opt_is_eq in E. subst prev. apply IH. }
  simpl. split; [|apply IH].
  destruct (bare_is c (head (squeezeT cls (Some c) T))) eqn:B.
  - apply head_squeezeT in B. by rewrite B in E.
  - apply andb_false_r.
Qed.

(** A deletion that never joins two copies of a character of [cls]. *)
Definition apart (cond : ctx) (cls : char -> bool) : Prop :=
  forall c, cls c = true -> cond (Some c) (Some c) = false.

Lemma calm_dropT cond cls T : forall prev,
  apart cond cls -> calm cls prev T -> calm cls prev (dropT cond prev T).
Proof.
  intros prev Hap. revert prev.
  induction T as [|[w c] T IH]; intros prev; simpl; [done|].
  intros [Hw HT]. split; [|by apply IH].
  destruct (cls c) eqn:Hc; [|by rewrite andb_false_r].
  destruct (opt_is c prev) eqn:Hp; [|by rewrite andb_false_r].
  apply opt_is_eq in Hp. subst prev. rewrite (Hap c Hc).
  rewrite !andb_true_r in Hw |- *.
  destruct (bool_decide (w = None)); [|done]. simpl in *.
  destruct T as [|[w2 d] T']; [done|]. simpl in *.
  destruct (cond (Some c) (Some d)) eqn:Hd.
  - apply N.eqb_neq. intros ->. rewrite (Hap c Hc) in Hd. discriminate.
  - done.
Qed.

Lemma apart_between_cjk : apart between_cjk punct_rep.
Proof.
  intros c Hc. unfold between_cjk. simpl. by rewrite (punct_rep_not_cjk c Hc).
Qed.
Lemma apart_cjk_then_punct : apart cjk_then_punct punct_rep.
Proof.
  intros c Hc. unfold cjk_then_punct. simpl.
  by rewrite (punct_rep_not_cjk c Hc).
Qed.
Lemma apart_punct_then_cjk : apart punct_then_cjk punct_rep.
Proof.
  intros c Hc. unfold punct_then_cjk. simpl.
  rewrite (punct_rep_not_cjk c Hc). apply andb_false_r.
Qed.

Ltac settle :=
  repeat first [apply dropT_clean | apply clean_dropT | apply clean_squeezeT
               | apply squeezeT_calm
               | apply calm_dropT;
                 [first [apply apart_between_cjk | apply apart_cjk_then_punct
                        | apply apart_punct_then_cjk]|] ].

(** On tokens, a second pass of [tighten] is the identity. *)
Lemma tightenT_idem b T : tightenT b (tightenT b T) = tightenT b T.
Proof.
  set (X := tightenT b T).
  assert (clean between_cjk None X) as H5 by (unfold X, tightenT; destruct b; settle).
  assert (clean before_punct None X) as H6 by (unfold X, tightenT; destruct b; settle).
  assert (clean after_open None X) as H7 by (unfold X, tightenT; destruct b; settle).
  assert (clean before_close None X) as H8 by (unfold X, tightenT; destruct b; settle).
  assert (calm punct_rep None X) as H9 by (unfold X, tightenT; destruct b; settle).
  unfold tightenT at 1. cbv zeta.
  rewrite (clean_dropT_id between_cjk X None) by done.
  rewrite (clean_dropT_id before_punct X None) by done.
  rewrite (clean_dropT_id after_open X None) by done.
  rewrite (clean_dropT_id before_close X None) by done.
  rewrite (calm_squeezeT_id punct_rep X None) by done.
  destruct b; [|done].
  assert (clean cjk_then_punct None X) as H11 by (unfold X, tightenT; settle).
  assert (clean punct_then_cjk None X) as H12 by (unfold X, tightenT; settle).
  rewrite (clean_dropT_id between_cjk X None) by done.
  rewrite (clean_dropT_id cjk_then_punct X None) by done.
  by rewrite (clean_dropT_id punct_then_cjk).
Qed.

Section Idempotence.

Variable html_unescape : pystr -> pystr.

Local Abbreviation normalize := (normalize_transcript_text html_unescape).

Lemma normalize_tidy text language model :
  exists T, tidy T /\ normalize text language model = untok T.
Proof.
  unfold normalize_transcript_text. destruct text as [|c t].
  - exists []. split; [|done]. split; [constructor | done].
  - destruct (tidy_spaces_tidy (html_unescape (c :: t))) as (T & HT & ->).
    exists (tightenT (cjk_mode language model) T).
    split; [by apply tightenT_tidy | by apply tighten_untok].
Qed.

(** C6 (amended): normalising twice gives what normalising once gives,
    whenever [html.unescape] has nothing left to decode in the normalised
    text (in particular whenever that text holds no ampersand). *)
Theorem normalize_idempotent_once_decoded text language model :
  let once := normalize_transcript_text html_unescape text language model in
  html_unescape once = once ->
  normalize_transcript_text html_unescape once language model = once.
Proof.
  intros once Hdec. unfold once in *. clear once.
  unfold normalize_transcript_text at 1.
  destruct (normalize text language model) as [|c0 t0] eqn:E; [done|].
  rewrite Hdec. clear Hdec. rewrite <- E. clear E c0 t0.
  unfold normalize_transcript_text. destruct text as [|c t].
  - by destruct (cjk_mode language model).
  - destruct (tidy_spaces_tidy (html_unescape (c :: t))) as (T & HT & ->).
    set (b := cjk_mode language model).
    rewrite (tighten_untok b T HT).
    rewrite tidy_spaces_id by (by apply tightenT_tidy).
    rewrite tighten_untok by (by apply tightenT_tidy).
    by rewrite tightenT_idem.
Qed.

End Idempotence.

(** The text [a &amp; b ，c] normalises to [a & b，c], where nothing is
    left to decode, and a second pass returns it unchanged. *)
Lemma normalize_idempotent_once_decoded_witness :
  let u := html_unescape_named in
  let t := py "a &amp; b ，c" in
  normalize_transcript_text u t (py "zh") [] = py "a & b，c" /\
  u (normalize_transcript_text u t (py "zh") [])
    = normalize_transcript_text u t (py "zh") [] /\
  normalize_transcript_text u
    (normalize_transcript_text u t (py "zh") []) (py "zh") []
    = normalize_transcript_text u t (py "zh") [].
Proof.
  cbv zeta. split; [by vm_compute|]. split; [by vm_compute|].
  apply (normalize_idempotent_once_decoded html_unescape_named).
  by vm_compute.
Defined.

(** C6 as stated fails: a doubly escaped ampersand loses one level of
    escaping at each pass, so the second pass differs from the first. *)
Lemma normalize_not_idempotent :
  let u := html_unescape_named in
  let t := py "&amp;amp;" in
  normalize_transcript_text u t (py "en") [] = py "&amp;" /\
  normalize_transcript_text u
    (normalize_transcript_text u t (py "en") []) (py "en") [] = py "&" /\
  normalize_transcript_text u
    (normalize_transcript_text u t (py "en") []) (py "en") []
    <> normalize_transcript_text u t (py "en") [].
Proof. cbv zeta. split; [by vm_compute|]. split; by vm_compute. Qed.

End TextFacts.

(** ** Subtitle lines stay within the soft budget *)

Module SplitFacts.

Import Text PyStrFacts.

Lemma length_lstrip s : length (lstrip s) <= length s.
Proof.
  induction s as [|c t IH]; simpl; [done|]. destruct (isspace c); simpl; lia.
Qed.

Lemma length_strip s : length (strip s) <= length s.
Proof.
  unfold strip, rstrip. rewrite length_rev.
  etransitivity; [apply length_lstrip|]. rewrite length_rev.
  apply length_lstrip.
Qed.

Lemma hard_cut_fuel_short fuel n s p :
  In p (hard_cut_fuel fuel n s) -> length p <= n.
Proof.
  revert s. induction fuel as [|f IH]; intros s; simpl; [done|].
  destruct s as [|c t]; [done|]. intros [<- | H].
  - apply firstn_le_length.
  - by eapply IH.
Qed.

(** The hard cut loses nothing: the fuel [len(s)] is enough. *)
Lemma hard_cut_fuel_concat fuel n s :
  1 <= n -> length s <= fuel -> concat (hard_cut_fuel fuel n s) = s.
Proof.
  intros Hn. revert s. induction fuel as [|f IH]; intros s Hs.
  - destruct s; [done | simpl in Hs; lia].
  - simpl. destruct s as [|c t]; [done|].
    change (concat (firstn n (c :: t) :: hard_cut_fuel f n (skipn n (c :: t))))
      with (firstn n (c :: t) ++ concat (hard_cut_fuel f n (skipn n (c :: t)))).
    rewrite IH; [apply firstn_skipn|].
    rewrite length_skipn. simpl in *. lia.
Qed.

Lemma hard_cut_concat n s : 1 <= n -> concat (hard_cut n s) = s.
Proof. intros Hn. by apply hard_cut_fuel_concat. Qed.

Lemma line_budget_range max_chars language model :
  10 <= line_budget max_chars language model <= 100.
Proof. unfold line_budget. lia. Qed.

Lemma length_join_line a b : length (join_line a b) <= length a + 1 + length b.
Proof.
  unfold join_line. destruct (ends_alnum a); rewrite length_app; simpl; lia.
Qed.

Section Bound.

Variable B : nat.
Hypothesis HB : 1 <= B.

Definition soft (l : pystr) : Prop := length l <= 9 * B / 5.
Definition packed (st : list pystr * pystr) : Prop :=
  Forall soft st.1 /\ soft st.2.

Lemma budget_soft : B <= 9 * B / 5.
Proof. apply Nat.div_le_lower_bound; lia. Qed.

Lemma flush_packed st : packed st -> packed (flush st).
Proof.
  intros [H1 H2]. unfold flush. split; simpl; [|unfold soft; simpl; lia].
  destruct (nonempty (strip st.2)); [|done].
  apply Forall_app. split; [done|]. constructor; [|constructor].
  unfold soft in *. pose proof (length_strip st.2). lia.
Qed.

Lemma pack_step_packed st s : packed st -> packed (pack_step B st s).
Proof.
  intros Hst. unfold pack_step.
  destruct (negb (nonempty (strip s))); [done|].
  destruct (too_long B (strip s)) eqn:Hlong.
  - split; simpl; [|unfold soft; simpl; lia].
    apply Forall_app. split; [apply (flush_packed st Hst)|].
    apply Forall_forall. intros p Hp%list_elem_of_In.
    apply hard_cut_fuel_short in Hp. unfold soft. pose proof budget_soft. lia.
  - assert (soft (strip s)) as Hs.
    { unfold too_long in Hlong. apply Nat.ltb_ge in Hlong. unfold soft.
      apply Nat.div_le_lower_bound; lia. }
    destruct (negb (nonempty st.2)); [split; [apply Hst | done]|].
    destruct (length (join_line st.2 (strip s)) <=? B) eqn:Hfit.
    + split; [apply Hst|]. apply Nat.leb_le in Hfit. unfold soft. cbn [snd].
      pose proof budget_soft. lia.
    + split; [apply (flush_packed st Hst) | done].
Qed.

Lemma fold_pack_packed ss : forall st,
  packed st -> packed (fold_left (pack_step B) ss st).
Proof.
  induction ss as [|s ss IH]; intros st Hst; simpl; [done|].
  apply IH. by apply pack_step_packed.
Qed.

Definition bounded (l : pystr) : Prop :=
  length l <= Nat.max (B + 6) (9 * B / 5).

Lemma merge_step_bounded merged line :
  Forall bounded merged -> soft line -> Forall bounded (merge_step B merged line).
Proof.
  intros Hm Hl. unfold merge_step.
  assert (bounded line) as Hbl by (unfold bounded, soft in *; lia).
  destruct (rev merged) as [|last before] eqn:E.
  - by repeat constructor.
  - destruct ((length line <? Nat.max 4 (B / 5))
              && (length last + length line + 1 <=? B + 6)) eqn:C.
    + apply andb_prop in C as [_ C]. apply Nat.leb_le in C.
      apply Forall_rev in Hm. rewrite E in Hm. inversion Hm; subst.
      apply Forall_app. split; [by apply Forall_rev|].
      constructor; [|constructor]. unfold bounded.
      pose proof (length_join_line last line). lia.
    + apply Forall_app. split; [done|]. by repeat constructor.
Qed.

Lemma fold_merge_bounded lines : forall merged,
  Forall bounded merged -> Forall soft lines ->
  Forall bounded (fold_left (merge_step B) lines merged).
Proof.
  induction lines as [|l lines IH]; intros merged Hm Hl; simpl; [done|].
  inversion Hl; subst. apply IH; [|done]. by apply merge_step_bounded.
Qed.

End Bound.

(** C10: no line of [split_text_for_srt] is longer than
    [max(B + 6, floor(1.8 B))], where [B] is the clamped budget; and [B] is
    no hard cap: with budget 20 a sentence of 36 characters comes out as
    one line. *)
Theorem split_text_line_bound text language max_chars model :
  let B := line_budget max_chars language model in
  (forall line, In line (split_text_for_srt text language max_chars model) ->
     length line <= Nat.max (B + 6) (9 * B / 5)) /\
  (line_budget None (py "ja") [] = 20 /\
   split_text_for_srt (repeat 0x3042%N 36) (py "ja") None []
     = [repeat 0x3042%N 36]).
Proof.
  intros B. split; [|split; by vm_compute].
  intros line Hin. unfold split_text_for_srt in Hin.
  destruct text as [|c t]; [done|]. fold B in Hin.
  pose proof (line_budget_range max_chars language model) as HB. fold B in HB.
  assert (1 <= B) as HB1 by lia.
  set (ss := _split_by_punctuation (c :: t) language) in Hin.
  assert (packed B (fold_left (pack_step B) ss ([], []))) as Hp.
  { apply fold_pack_packed; [done|].
    split; [constructor | unfold soft; simpl; lia]. }
  apply flush_packed in Hp; [|exact HB1]. destruct Hp as [Hp _].
  assert (Forall (bounded B)
            (fold_left (merge_step B)
               (flush (fold_left (pack_step B) ss ([], []))).1 [])) as Hb.
  { apply fold_merge_bounded; [exact HB1 | constructor | exact Hp]. }
  rewrite Forall_forall in Hb. apply (Hb line). by apply list_elem_of_In.
Qed.

End SplitFacts.

(** ** Cue times *)

Module SrtFacts.

Import Text Srt.
Local Open Scope Q_scope.

Definition c_start (c : cue) : Q := c.1.1.
Definition c_end (c : cue) : Q := c.1.2.

(** [lra] with the defining cases of every [Qmax] and [Qmin] in sight. *)
Ltac pose_minmax :=
  repeat match goal with
  | |- context [Qmax ?a ?b] =>
    lazymatch goal with
    | _ : _ \/ (b <= a /\ Qmax a b == a) |- _ => fail
    | _ => pose proof (Q.max_spec a b)
    end
  | _ : context [Qmax ?a ?b] |- _ =>
    lazymatch goal with
    | _ : _ \/ (b <= a /\ Qmax a b == a) |- _ => fail
    | _ => pose proof (Q.max_spec a b)
    end
  | |- context [Qmin ?a ?b] =>
    lazymatch goal with
    | _ : _ \/ (b <= a /\ Qmin a b == b) |- _ => fail
    | _ => pose proof (Q.min_spec a b)
    end
  | _ : context [Qmin ?a ?b] |- _ =>
    lazymatch goal with
    | _ : _ \/ (b <= a /\ Qmin a b == b) |- _ => fail
    | _ => pose proof (Q.min_spec a b)
    end
  end.
Ltac qlra := pose_minmax; lra.

Lemma Qle_bool_false a b : Qle_bool a b = false -> b < a.
Proof.
  intros H. apply Qnot_le_lt. intros H1. apply Qle_bool_iff in H1. congruence.
Qed.

(** *** The final sweep and the compaction of [build_srt] *)

(** Cues in order: the first starts at [p] or later, each ends after it
    starts, and each starts where the one before ends or later. *)
Fixpoint chain (p : Q) (cues : list cue) : Prop :=
  match cues with
  | [] => True
  | c :: rest => p <= c_start c /\ c_start c < c_end c /\ chain (c_end c) rest
  end.

Definition last_end (p : Q) (cues : list cue) : Q :=
  match rev cues with
  | [] => p
  | c :: _ => c_end c
  end.

Lemma chain_le p p' cues : p' <= p -> chain p cues -> chain p' cues.
Proof. destruct cues as [|c r]; simpl; [done|]. intros ? (? & ? & ?). repeat split; auto; lra. Qed.

Lemma last_end_cons p c cues : last_end p (c :: cues) = last_end (c_end c) cues.
Proof.
  unfold last_end. simpl. destruct (rev cues) as [|d r] eqn:E; [done|].
  reflexivity.
Qed.

Lemma chain_app p l1 l2 :
  chain p (l1 ++ l2) <-> chain p l1 /\ chain (last_end p l1) l2.
Proof.
  revert p. induction l1 as [|c l1 IH]; intros p.
  - simpl. unfold last_end. simpl. tauto.
  - rewrite last_end_cons. simpl. rewrite IH. tauto.
Qed.

Lemma sweep_chain cues : forall p, chain p (sweep p cues).
Proof.
  induction cues as [|[[s e] txt] rest IH]; intros p; simpl; [done|].
  destruct (negb (nonempty (strip txt))); [apply IH|].
  simpl. unfold c_start, c_end. simpl. split; [qlra|]. split; [|apply IH].
  destruct (Qle_bool e (Qmax s p)) eqn:E; [lra|]. by apply Qle_bool_false.
Qed.

Lemma last_end_snoc p l c : last_end p (l ++ [c]) = c_end c.
Proof. unfold last_end. by rewrite rev_unit. Qed.

Lemma rev_eq_cons {A} (l : list A) x r : rev l = x :: r -> l = rev r ++ [x].
Proof. intros H. rewrite <- (rev_involutive l), H. reflexivity. Qed.

(** The compaction keeps the cues in order, and the cues still to come
    fit after the last one kept. *)
Lemma compact_step_chain compact c rest :
  chain 0 compact -> chain (last_end 0 compact) (c :: rest) ->
  chain 0 (compact_step compact c)
  /\ chain (last_end 0 (compact_step compact c)) rest.
Proof.
  intros Hc (H1 & H2 & H3). destruct c as [[s e] txt].
  unfold c_start, c_end in *. simpl in *. unfold compact_step.
  destruct (rev compact) as [|[[ps pe] ptxt] before] eqn:E.
  - rewrite last_end_snoc. split; [|done].
    apply chain_app. split; [done|]. simpl. unfold c_start, c_end. simpl.
    repeat split; auto.
  - apply rev_eq_cons in E. subst compact.
    rewrite last_end_snoc in H1. unfold c_end in H1. simpl in H1.
    destruct (bool_decide (txt = ptxt) && Qle_bool (s - pe) 0.12).
    + rewrite last_end_snoc. unfold c_end. simpl.
      apply chain_app in Hc as [Hb Hl]. simpl in Hl.
      unfold c_start, c_end in Hl. simpl in Hl. destruct Hl as (Hl1 & Hl2 & _).
      split.
      * apply chain_app. split; [done|]. simpl. unfold c_start, c_end. simpl.
        repeat split; auto. qlra.
      * eapply chain_le; [|exact H3]. qlra.
    + rewrite last_end_snoc. split; [|done].
      apply chain_app. split; [done|]. simpl. rewrite last_end_snoc.
      unfold c_start, c_end. simpl. repeat split; auto.
Qed.

Lemma fold_compact_chain rest : forall compact,
  chain 0 compact -> chain (last_end 0 compact) rest ->
  chain 0 (fold_left compact_step rest compact).
Proof.
  induction rest as [|c rest IH]; intros compact Hc Hr; simpl; [done|].
  destruct (compact_step_chain compact c rest Hc Hr) as [H1 H2].
  by apply IH.
Qed.

Lemma build_cues_chain results language model :
  chain 0 (build_cues results language model).
Proof.
  unfold build_cues. apply fold_compact_chain; [done|]. apply sweep_chain.
Qed.

Lemma chain_positive p cues c : chain p cues -> In c cues -> c_start c < c_end c.
Proof.
  revert p. induction cues as [|d rest IH]; intros p; simpl; [done|].
  intros (_ & H & Hr) [-> | Hin]; [done|]. by eapply IH.
Qed.

Lemma chain_adjacent p cues i a b :
  chain p cues -> cues !! i = Some a -> cues !! S i = Some b ->
  c_end a <= c_start b.
Proof.
  revert p i. induction cues as [|d rest IH]; intros p i; [done|].
  intros (_ & _ & Hr) Ha Hb. destruct i as [|i].
  - simpl in Ha, Hb. injection Ha as ->. destruct rest as [|d' rest']; [done|].
    simpl in Hb. injection Hb as ->. simpl in Hr. tauto.
  - simpl in Ha, Hb. by eapply IH.
Qed.

(** C4 (amended): in the cue list of [build_srt] a cue never starts before
    the cue before it ends, and every cue ends strictly after it starts. *)
Theorem build_srt_cues_ordered results language model :
  let cues := build_cues results language model in
  (forall i a b, cues !! i = Some a -> cues !! S i = Some b ->
     c_end a <= c_start b) /\
  (forall c, In c cues -> c_start c < c_end c).
Proof.
  intros cues. pose proof (build_cues_chain results language model) as H.
  split.
  - intros i a b. by apply chain_adjacent with (p := 0).
  - intros c. by apply chain_positive with (p := 0).
Qed.

(** C4 as stated fails: one transcribed segment of [0.1] seconds gives one
    cue of [0.1] seconds, less than [0.18]. *)
Lemma build_srt_cue_shorter_than_018 :
  build_cues [mkResult true 0 0 0.1 (py "hi") None 200%N] (py "en")
    (py "nova-2-general")
    = [(0, 0.1, py "hi")] /\
  0.1 - 0 < 0.18.
Proof. split; [by vm_compute | lra]. Qed.

(** *** [allocate_line_times] *)

Definition long_enough (c : cue) : Prop := c_start c + 0.18 <= c_end c.






Lemma slice_lines_nonempty dur_ W e t l lines :
  slice_lines dur_ W e t (l :: lines) <> [].
Proof. by destruct lines. Qed.

Lemma fix_overlaps_nonempty p c cues : fix_overlaps p (c :: cues) <> [].
Proof. by destruct c as [[s e] txt]. Qed.


(** *** Shares by weight

    When every line's share of the segment is [0.3] seconds or more, the
    clamps of [allocate_line_times] do nothing: the cue of a line is its
    share, laid end to end from the segment start. Times are compared as
    rationals ([==]). *)







Section Shares.

Variable sh : pystr -> Q.
Variables (dur_ W e : Q).
Hypothesis Hsh : forall l, dur_ * (weight l / W) == sh l.





End Shares.












(** *** Timestamps *)

Fixpoint no_char (c : ascii) (s : string) : Prop :=
  match s with
  | EmptyString => True
  | String a s' => a <> c /\ no_char c s'
  end.

Definition is_digit (c : ascii) : Prop :=
  In c ["0"; "1"; "2"; "3"; "4"; "5"; "6"; "7"; "8"; "9"]%char.

Lemma string_of_uint_no_char c d :
  ~ is_digit c -> no_char c (NilEmpty.string_of_uint d).
Proof.
  intros Hc. induction d; simpl; [done|..];
    (split; [|done]); intros <-; apply Hc; unfold is_digit; simpl; tauto.
Qed.

Lemma dec_no_char c w n : ~ is_digit c -> no_char c (dec w n).
Proof. intros Hc. by apply string_of_uint_no_char. Qed.

Lemma cut_at_app c a b :
  no_char c a ->
  cut_at c (a ++ String c EmptyString ++ b)%string = Some (a, b).
Proof.
  change (String c EmptyString ++ b)%string with (String c b).
  induction a as [|x a IH]; simpl.
  - intros _. by rewrite Ascii.eqb_refl.
  - intros [Hx Ha]. apply Ascii.eqb_neq in Hx. rewrite Hx. by rewrite IH.
Qed.

Lemma iter_D0_nonnil k d : d <> Decimal.Nil -> Nat.iter k Decimal.D0 d <> Decimal.Nil.
Proof. destruct k; simpl; [done | discriminate]. Qed.

Lemma of_uint_iter_D0 k d : N.of_uint (Nat.iter k Decimal.D0 d) = N.of_uint d.
Proof. induction k as [|k IH]; [done|]. simpl Nat.iter. by rewrite <- IH. Qed.

Lemma N_to_uint_nonnil n : N.to_uint n <> Decimal.Nil.
Proof. destruct n; [discriminate | apply Unsigned.to_uint_nonnil]. Qed.

Lemma parse_dec_dec w n : parse_dec (dec w n) = Some n.
Proof.
  unfold parse_dec, dec, pad_zeros.
  set (d := Nat.iter _ Decimal.D0 (N.to_uint n)).
  assert (d <> Decimal.Nil) as Hd
    by (apply iter_D0_nonnil, N_to_uint_nonnil).
  rewrite NilEmpty.usu. simpl.
  destruct (NilEmpty.string_of_uint d) eqn:E.
  - destruct d; simpl in E; (done || discriminate).
  - unfold d. by rewrite of_uint_iter_D0, DecimalN.Unsigned.of_to.
Qed.

Definition not_digit_colon : ~ is_digit ":"%char.
Proof. unfold is_digit. simpl. intros H. intuition discriminate. Qed.
Definition not_digit_comma : ~ is_digit ","%char.
Proof. unfold is_digit. simpl. intros H. intuition discriminate. Qed.

Lemma parse_fields hh mm ss ms :
  parse_srt_ts (dec 2 hh ++ ":" ++ dec 2 mm ++ ":" ++ dec 2 ss ++ ","
                ++ dec 3 ms)%string
  = Some (inject_Z (Z.of_N (hh * 3600 + mm * 60 + ss))
          + inject_Z (Z.of_N ms) / 1000).
Proof.
  unfold parse_srt_ts.
  rewrite (cut_at_app ":" (dec 2 hh)) by apply dec_no_char, not_digit_colon.
  rewrite (cut_at_app ":" (dec 2 mm)) by apply dec_no_char, not_digit_colon.
  rewrite (cut_at_app "," (dec 2 ss)) by apply dec_no_char, not_digit_comma.
  by rewrite !parse_dec_dec.
Qed.

Lemma Qfloor_nonneg x : 0 <= x -> (0 <= Qfloor x)%Z.
Proof. intros H. change 0%Z with (Qfloor 0). by apply Qfloor_resp_le. Qed.

Lemma py_round_nonneg x : 0 <= x -> (0 <= py_round x)%Z.
Proof.
  intros H. pose proof (Qfloor_nonneg x H). unfold py_round.
  destruct (Qcompare _ _); [destruct (Z.even _)|..]; lia.
Qed.

Lemma py_round_comp x y : x == y -> py_round x = py_round y.
Proof.
  intros H. unfold py_round. rewrite (Qfloor_comp x y H).
  assert (x - inject_Z (Qfloor y) == y - inject_Z (Qfloor y)) as E by lra.
  by rewrite (Qcompare_comp _ _ E _ _ (Qeq_refl (1 # 2))).
Qed.

(** The timestamp read back is the rounded number of milliseconds. *)
Lemma srt_ts_parse x :
  exists q, parse_srt_ts (srt_ts x) = Some q
    /\ q == inject_Z (py_round (Qmax 0 x * 1000)) / 1000.
Proof.
  unfold srt_ts.
  set (r := py_round (Qmax 0 x * 1000)).
  assert (0 <= r)%Z as Hr by (apply py_round_nonneg; qlra).
  pose proof (N.div_eucl_spec (Z.to_N r) 3600000) as H1.
  destruct (N.div_eucl (Z.to_N r) 3600000) as [hh r1].
  pose proof (N.div_eucl_spec r1 60000) as H2.
  destruct (N.div_eucl r1 60000) as [mm r2].
  pose proof (N.div_eucl_spec r2 1000) as H3.
  destruct (N.div_eucl r2 1000) as [ss ms].
  eexists. split; [apply parse_fields|].
  assert (r = Z.of_N (hh * 3600 + mm * 60 + ss) * 1000 + Z.of_N ms)%Z as ->
    by lia.
  rewrite inject_Z_plus, inject_Z_mult. field.
Qed.

(** C9 (amended): for every [x >= 0], reading [srt_ts(x)] back gives
    [round(x * 1000) / 1000]. *)
Theorem srt_ts_roundtrip x :
  0 <= x ->
  exists q, parse_srt_ts (srt_ts x) = Some q
    /\ q == inject_Z (py_round (x * 1000)) / 1000.
Proof.
  intros Hx. destruct (srt_ts_parse x) as (q & Hq & E).
  exists q. split; [done|]. rewrite E.
  rewrite (py_round_comp (Qmax 0 x * 1000) (x * 1000)); [reflexivity|].
  qlra.
Qed.

Lemma srt_ts_roundtrip_witness :
  0 <= 3661.0015 /\
  srt_ts 3661.0015 = "01:01:01,002"%string /\
  exists q, parse_srt_ts (srt_ts 3661.0015) = Some q
    /\ q == inject_Z (py_round (3661.0015 * 1000)) / 1000.
Proof.
  assert (0 <= 3661.0015) as H by lra.
  split; [exact H|]. split; [by vm_compute|].
  exact (srt_ts_roundtrip 3661.0015 H).
Defined.

(** C9 as stated fails below zero: [srt_ts(-1)] is [00:00:00,000], which
    reads back as [0], while [round(-1 * 1000) / 1000] is [-1]. *)
Lemma srt_ts_negative :
  srt_ts (-1) = "00:00:00,000"%string /\
  exists q, parse_srt_ts (srt_ts (-1)) = Some q /\ q == 0
    /\ inject_Z (py_round (-1 * 1000)) / 1000 == -1
    /\ ~ q == inject_Z (py_round (-1 * 1000)) / 1000.
Proof.
  split; [by vm_compute|]. eexists. split; [by vm_compute|].
  split; [by vm_compute|]. split; by vm_compute.
Qed.

End SrtFacts.

(** ** Segment durations after detection and merging *)

Module VadFacts.

Import Vad.
Local Open Scope Q_scope.

Ltac qlra := SrtFacts.qlra.

Lemma Qlt_bool_true a b : Qlt_bool a b = true -> a < b.
Proof.
  unfold Qlt_bool. intros H. apply negb_true_iff in H.
  by apply SrtFacts.Qle_bool_false.
Qed.

Lemma Qlt_bool_false a b : Qlt_bool a b = false -> b <= a.
Proof.
  unfold Qlt_bool. intros H. apply negb_false_iff in H.
  by apply Qle_bool_iff.
Qed.

Lemma Qle_bool_true a b : Qle_bool a b = true -> a <= b.
Proof. apply Qle_bool_iff. Qed.

(** *** The forced split *)

(** The loop ends before the fuel does. *)
Lemma split_long_total fuel max_seg seg_end : forall cur,
  0 < max_seg ->
  seg_end - cur <= inject_Z (Z.of_nat fuel) * max_seg ->
  exists r, split_long fuel max_seg cur seg_end = Some r.
Proof.
  induction fuel as [|f IH]; intros cur Hmax Hfuel.
  - simpl. destruct (Qlt_bool cur (seg_end - 0.05)) eqn:E; [|by eexists].
    apply Qlt_bool_true in E. exfalso.
    change (inject_Z (Z.of_nat 0)) with 0 in Hfuel. lra.
  - simpl. destruct (Qlt_bool cur (seg_end - 0.05)) eqn:E; [|by eexists].
    destruct (IH (Qmin (cur + max_seg) seg_end) Hmax) as [[pieces n] ->];
      [|by eexists].
    rewrite Nat2Z.inj_succ in Hfuel. unfold Z.succ in Hfuel.
    rewrite inject_Z_plus in Hfuel. change (inject_Z 1) with 1 in Hfuel.
    assert (0 <= inject_Z (Z.of_nat f)) as Hf.
    { change 0 with (inject_Z 0). rewrite <- Zle_Qle. lia. }
    assert (0 <= inject_Z (Z.of_nat f) * max_seg) by nra.
    qlra.
Qed.

Lemma split_fuel_enough max_seg a b :
  0 < max_seg ->
  b - a <= inject_Z (Z.of_nat (split_fuel max_seg a b)) * max_seg.
Proof.
  intros Hmax. unfold split_fuel.
  set (c := Qceiling ((b - a) / max_seg)).
  pose proof (Qle_ceiling ((b - a) / max_seg)) as Hc. fold c in Hc.
  assert (b - a <= inject_Z c * max_seg) as Hc'.
  { apply Qmult_le_r with (z := max_seg) in Hc; [|done].
    assert ((b - a) / max_seg * max_seg == b - a) as E by (field; lra).
    lra. }
  rewrite Nat2Z.inj_succ. unfold Z.succ. rewrite inject_Z_plus.
  destruct (Z.le_gt_cases 0 c) as [Hpos | Hneg].
  - rewrite Z2Nat.id by done. change (inject_Z 1) with 1. lra.
  - replace (Z.to_nat c) with O by lia. change (inject_Z (Z.of_nat 0)) with 0.
    change (inject_Z 1) with 1.
    assert (inject_Z c <= 0) as Hc0.
    { change 0 with (inject_Z 0). rewrite <- Zle_Qle. lia. }
    nra.
Qed.

Lemma split_long_short fuel max_seg seg_end : forall cur pieces n,
  0 <= max_seg ->
  split_long fuel max_seg cur seg_end = Some (pieces, n) ->
  Forall (fun p => dur p <= max_seg) pieces.
Proof.
  induction fuel as [|f IH]; intros cur pieces n Hmax; simpl.
  - destruct (Qlt_bool _ _); [done|]. intros [= <- <-]. constructor.
  - destruct (Qlt_bool cur (seg_end - 0.05)); [|intros [= <- <-]; constructor].
    destruct (split_long f max_seg _ seg_end) as [[ps m]|] eqn:E; [|done].
    intros [= <- <-]. constructor; [|by eapply IH].
    unfold dur. simpl. qlra.
Qed.

(** A segment longer than [max_seg] gives a first piece of [max_seg]. *)
Lemma split_long_first fuel max_seg cur seg_end pieces n :
  0.05 <= max_seg -> cur + max_seg < seg_end ->
  split_long (S fuel) max_seg cur seg_end = Some (pieces, n) ->
  Exists (fun p => max_seg <= dur p) pieces.
Proof.
  intros Hmax Hlong. simpl.
  destruct (Qlt_bool cur (seg_end - 0.05)) eqn:E.
  - destruct (split_long fuel max_seg _ seg_end) as [[ps m]|]; [|done].
    intros [= <- <-]. apply Exists_cons_hd. unfold dur. simpl. qlra.
  - apply Qlt_bool_false in E. lra.
Qed.

Lemma dur_nonneg seg : 0 <= dur seg.
Proof. unfold dur. qlra. Qed.

(** What the split of one segment gives. *)
Lemma split_segment_spec max_seg seg :
  0.05 <= max_seg ->
  Forall (fun p => dur p <= max_seg) (split_segment max_seg seg).1 /\
  ((split_segment max_seg seg).1 = [seg]
   \/ Exists (fun p => max_seg <= dur p) (split_segment max_seg seg).1).
Proof.
  intros Hmax'. assert (0 < max_seg) as Hmax by lra. unfold split_segment.
  destruct (Qle_bool (dur seg) max_seg) eqn:E.
  - apply Qle_bool_true in E. simpl. split; [by repeat constructor | by left].
  - apply SrtFacts.Qle_bool_false in E.
    destruct (split_long_total (split_fuel max_seg (start seg) (end_ seg))
                max_seg (end_ seg) (start seg) Hmax
                (split_fuel_enough _ _ _ Hmax)) as [[pieces n] Hr].
    rewrite Hr. simpl. split.
    + eapply split_long_short; [|exact Hr]. lra.
    + right. unfold split_fuel in Hr.
      eapply split_long_first; [| |exact Hr]; [lra|].
      unfold dur in E. qlra.
Qed.

(** *** Detection *)

Lemma speech_pairs_range total_dur speech_ts :
  Forall (fun p : Q * Q => 0 <= p.1 /\ p.2 <= total_dur)
    (speech_pairs total_dur speech_ts).
Proof.
  unfold speech_pairs. induction speech_ts as [|item r IH]; simpl; [constructor|].
  destruct (Qlt_bool _ _); [|done]. simpl. constructor; [|done]. simpl.
  split; qlra.
Qed.

Lemma fold_split_fst max_seg filtered : forall acc,
  (fold_left (fun (acc : list SpeechSeg * nat) seg =>
     let '(pieces, n) := split_segment max_seg seg in
     (acc.1 ++ pieces, (acc.2 + n)%nat)) filtered acc).1
  = acc.1 ++ flat_map (fun seg => (split_segment max_seg seg).1) filtered.
Proof.
  induction filtered as [|seg r IH]; intros acc; simpl.
  - by rewrite app_nil_r.
  - rewrite IH. destruct (split_segment max_seg seg) as [pieces n]. simpl.
    by rewrite <- app_assoc.
Qed.



(** *** The merge pass *)

Lemma insert_seg_In x y l : In x (insert_seg y l) <-> x = y \/ In x l.
Proof.
  induction l as [|z l IH]; simpl; [intuition congruence|].
  destruct (seg_le y z); simpl; rewrite ?IH; intuition congruence.
Qed.

Lemma sort_segs_In x l : In x (sort_segs l) <-> In x l.
Proof.
  unfold sort_segs. induction l as [|y l IH]; simpl; [tauto|].
  rewrite insert_seg_In, IH. intuition congruence.
Qed.

Section Merge.

Variables min_dur merge_gap max_dur : Q.
Hypothesis Hmax : 0 <= max_dur.

(** The shortest segment the merge pass lets through on its own. *)
Definition keep : Q := Qmin min_dur (Qmax 0.22 (min_dur * 0.6)).

Definition fits (p : SpeechSeg) : Prop := keep <= dur p <= max_dur.





End Merge.





End VadFacts.

(** ** The empty-transcript retry *)

Module TranscribeFacts.

Import Text Transcribe.
Local Open Scope Q_scope.

Ltac qlra := SrtFacts.qlra.

Lemma Qlt_bool_ge a b : b <= a -> Vad.Qlt_bool a b = false.
Proof.
  intros H. unfold Vad.Qlt_bool. apply negb_false_iff. by apply Qle_bool_iff.
Qed.

Lemma Qlt_bool_lt a b : a < b -> Vad.Qlt_bool a b = true.
Proof.
  intros H. unfold Vad.Qlt_bool. apply negb_true_iff.
  destruct (Qle_bool b a) eqn:E; [|done]. apply Qle_bool_iff in E. lra.
Qed.

(** The pad by duration. *)
Lemma retry_pad_cases seg :
  (dur seg < 1.2 -> retry_pad seg = 0.22) /\
  (1.2 <= dur seg -> dur seg < 3 -> retry_pad seg = 0.35) /\
  (3 <= dur seg -> retry_pad seg = 0.5).
Proof.
  unfold retry_pad. repeat split.
  - intros H. by rewrite Qlt_bool_lt.
  - intros H1 H2. by rewrite Qlt_bool_ge, Qlt_bool_lt.
  - intros H. rewrite !Qlt_bool_ge; [done | lra | lra].
Qed.

Lemma retry_pad_range seg : 0.22 <= retry_pad seg <= 0.5.
Proof.
  unfold retry_pad. destruct (Vad.Qlt_bool _ 1.2); [lra|].
  destruct (Vad.Qlt_bool _ 3); lra.
Qed.

(** The window of the retry: the pad on both sides, the left edge not
    before the start of the file. *)
Lemma retry_window_spec seg :
  0 <= start seg -> 0.01 <= dur seg ->
  let w := _empty_retry_window seg in
  w.1 = Qmax 0 (start seg - retry_pad seg) /\
  w.2 == end_ seg + retry_pad seg /\
  (retry_pad seg <= start seg -> w.1 == start seg - retry_pad seg) /\
  0.01 <= Qmax 0 (w.2 - w.1).
Proof.
  intros Hs Hd. pose proof (retry_pad_range seg) as Hp.
  unfold _empty_retry_window. cbn [fst snd]. unfold dur in Hd.
  split; [done|]. repeat split; intros; qlra.
Qed.

Lemma bind_ok {A B} (a : A) evs (f : A -> M B) :
  mbind f ((Ok a, evs) : M A) = ((f a).1, evs ++ (f a).2).
Proof. unfold mbind, M_bind, bind. by destruct (f a). Qed.

Lemma extract_ok env k s e :
  0.01 <= Qmax 0 (e - s) -> ffmpeg_cut env k (s, e) = CutOk ->
  extract_segment_wav env k s e = (Ok tt, [EvCut (s, e)]).
Proof.
  intros Hd Hcut. unfold extract_segment_wav. rewrite Qlt_bool_ge by done.
  unfold emit. rewrite bind_ok, Hcut. reflexivity.
Qed.

(** A call to the general provider is one POST, whatever comes back. *)
Lemma deepgram_one_post cfg env k audio model language options :
  Config.DEEPGRAM_API_KEY cfg <> [] ->
  (transcribe_with_deepgram cfg env k audio model language options).2
  = [EvDeepgram (dg_request model language options audio)].
Proof.
  intros Hkey. unfold transcribe_with_deepgram.
  destruct (Config.DEEPGRAM_API_KEY cfg); [done|]. simpl negb. cbv iota.
  unfold emit. rewrite bind_ok. cbn [snd].
  destruct (deepgram_post env k _) as [msg | status text [txt|]]; [done|..].
  - destruct (negb (status =? 200)%N); [done|].
    by destruct (negb (nonempty (strip txt))).
  - by destruct (negb (status =? 200)%N).
Qed.

Lemma deepgram_empty cfg env k audio model language options text txt :
  Config.DEEPGRAM_API_KEY cfg <> [] ->
  deepgram_post env k (dg_request model language options audio)
    = HttpResponse 200 text (Some txt) ->
  strip txt = [] ->
  transcribe_with_deepgram cfg env k audio model language options
  = (Ok (false, [], py "EMPTY_TRANSCRIPT", 200%N),
     [EvDeepgram (dg_request model language options audio)]).
Proof.
  intros Hkey Hresp Hempty. unfold transcribe_with_deepgram.
  destruct (Config.DEEPGRAM_API_KEY cfg); [done|]. simpl negb. cbv iota.
  unfold emit. rewrite bind_ok, Hresp. cbn [fst snd]. by rewrite Hempty.
Qed.

(** The language of the retry is [auto], whatever the first one was. *)
Lemma retry_language language :
  (if bool_decide (language <> py "auto") then py "auto" else language)
  = py "auto".
Proof.
  case_bool_decide as H; [done|].
  destruct (decide (language = py "auto")); [done | by destruct H].
Qed.

Lemma hf_empty cfg env audio text txt :
  Config.HF_TOKEN cfg <> [] ->
  hf_post env audio = HttpResponse 200 text (Some txt) -> strip txt = [] ->
  transcribe_with_hf cfg env audio
  = (Ok (false, [], py "HF_EMPTY_TRANSCRIPT", 200%N), [EvHf audio]).
Proof.
  intros Hkey Hresp Hempty. unfold transcribe_with_hf.
  destruct (Config.HF_TOKEN cfg); [done|]. simpl negb. cbv iota.
  unfold emit. rewrite bind_ok, Hresp. cbn [fst snd]. by rewrite Hempty.
Qed.

Section Retry.

Variable html_unescape : pystr -> pystr.
Variable cfg : Config.t.
Variable env : Env.
Variables (idx : nat) (seg : SpeechSeg) (model language : pystr).
Variable options : options_t.

Hypothesis not_cancelled : cancel_requested_now env = false.
Hypothesis start_in_file : 0 <= start seg.
Hypothesis long_enough : 0.01 <= dur seg.
Hypothesis first_cut : ffmpeg_cut env 0 (start seg, end_ seg) = CutOk.

Local Abbreviation task :=
  (transcribe_task html_unescape cfg env idx seg model language options).

(** The general provider answers 200 with an empty transcript. *)
Lemma deepgram_retry_trace text txt :
  contains (py "kotoba") model = false ->
  Config.DEEPGRAM_API_KEY cfg <> [] ->
  deepgram_post env 0
    (dg_request model language options (start seg, end_ seg))
    = HttpResponse 200 text (Some txt) ->
  strip txt = [] ->
  ffmpeg_cut env 1 (_empty_retry_window seg) = CutOk ->
  task.2 =
    [EvCut (start seg, end_ seg);
     EvDeepgram (dg_request model language options (start seg, end_ seg));
     EvCut (_empty_retry_window seg);
     EvDeepgram (dg_request model (py "auto") options (_empty_retry_window seg));
     EvUnlink].
Proof.
  intros Hmodel Hkey Hresp Hempty Hcut1.
  unfold transcribe_task. rewrite not_cancelled, Qlt_bool_ge by done.
  unfold transcribe_body.
  rewrite extract_ok by done. rewrite bind_ok. rewrite Hmodel.
  rewrite (deepgram_empty cfg env 0 _ model language options text txt)
    by done.
  rewrite bind_ok.
  cbv beta iota. simpl negb. rewrite bool_decide_eq_true_2 by done.
  simpl andb. cbv iota.
  destruct (retry_window_spec seg start_in_file long_enough)
    as (_ & _ & _ & Hw).
  destruct (_empty_retry_window seg) as [rs re] eqn:Ew. simpl in Hw.
  rewrite extract_ok by done. rewrite bind_ok. rewrite retry_language.
  pose proof (deepgram_one_post cfg env 1 (rs, re) model (py "auto") options
                Hkey) as Hone.
  destruct (transcribe_with_deepgram cfg env 1 (rs, re) model (py "auto")
              options) as [r2 evs2].
  simpl in Hone. subst evs2. cbn [fst snd].
  destruct r2 as [[[[ok2 txt2] err2] code2] | o | msg].
  - rewrite bind_ok.
    destruct ok2; [|reflexivity].
    by destruct (negb (nonempty
                  (normalize_transcript_text html_unescape txt2 language model))).
  - reflexivity.
  - reflexivity.
Qed.

(** The Japanese provider answers 200 with an empty transcript. *)
Lemma hf_no_retry_trace text txt :
  contains (py "kotoba") model = true ->
  Config.HF_TOKEN cfg <> [] ->
  hf_post env (start seg, end_ seg) = HttpResponse 200 text (Some txt) ->
  strip txt = [] ->
  task.2 = [EvCut (start seg, end_ seg); EvHf (start seg, end_ seg); EvUnlink]
  /\ r_error task.1 = Some (py "HF_EMPTY_TRANSCRIPT").
Proof.
  intros Hmodel Hkey Hresp Hempty.
  unfold transcribe_task. rewrite not_cancelled, Qlt_bool_ge by done.
  unfold transcribe_body.
  rewrite extract_ok by done. rewrite bind_ok. rewrite Hmodel.
  rewrite (hf_empty cfg env _ text txt) by done.
  rewrite bind_ok.
  by vm_compute.
Qed.

End Retry.

(** C5 (amended): a task that is not cancelled, on a segment of the file
    that was cut. The pad is [0.22] below [1.2] seconds, [0.35] below [3.0]
    and [0.50] otherwise; the retry window runs from [max(0, start - pad)]
    to [end + pad]: the pad is on both sides only for a segment that starts
    at least a pad after the start of the file. When the
    general provider answers 200 with an empty transcript, the segment is
    cut again to that window and posted once more, with the language
    [auto], and that is all: two POSTs, whatever the second answer. When
    the Japanese provider answers 200 with an empty transcript there is no
    second cut and no second POST. *)
Theorem empty_transcript_retry html_unescape cfg env idx seg model language
    options :
  cancel_requested_now env = false ->
  0 <= start seg ->
  0.01 <= dur seg ->
  ffmpeg_cut env 0 (start seg, end_ seg) = CutOk ->
  let task :=
    transcribe_task html_unescape cfg env idx seg model language options in
  let w := _empty_retry_window seg in
  let pad := retry_pad seg in
  ((dur seg < 1.2 -> pad = 0.22) /\
   (1.2 <= dur seg -> dur seg < 3 -> pad = 0.35) /\
   (3 <= dur seg -> pad = 0.5)) /\
  (w.1 = Qmax 0 (start seg - pad) /\
   w.2 == end_ seg + pad /\
   (pad <= start seg -> w.1 == start seg - pad)) /\
  (forall text txt,
     contains (py "kotoba") model = false ->
     Config.DEEPGRAM_API_KEY cfg <> [] ->
     deepgram_post env 0
       (dg_request model language options (start seg, end_ seg))
       = HttpResponse 200 text (Some txt) ->
     strip txt = [] ->
     ffmpeg_cut env 1 w = CutOk ->
     task.2 =
       [EvCut (start seg, end_ seg);
        EvDeepgram (dg_request model language options (start seg, end_ seg));
        EvCut w;
        EvDeepgram (dg_request model (py "auto") options w);
        EvUnlink]
     /\ dg_detect_language (dg_request model (py "auto") options w) = true) /\
  (forall text txt,
     contains (py "kotoba") model = true ->
     Config.HF_TOKEN cfg <> [] ->
     hf_post env (start seg, end_ seg) = HttpResponse 200 text (Some txt) ->
     strip txt = [] ->
     task.2 = [EvCut (start seg, end_ seg); EvHf (start seg, end_ seg);
               EvUnlink]
     /\ r_error task.1 = Some (py "HF_EMPTY_TRANSCRIPT")).
Proof.
  intros Hc Hs Hd Hcut task w pad.
  split; [apply retry_pad_cases|].
  split.
  { destruct (retry_window_spec seg Hs Hd) as (H1 & H2 & H3 & _). done. }
  split.
  - intros text txt Hm Hk Hr He Hc1. split; [|done].
    by apply (deepgram_retry_trace html_unescape cfg env idx seg model language
                options Hc Hs Hd Hcut text txt).
  - intros text txt Hm Hk Hr He.
    by apply (hf_no_retry_trace html_unescape cfg env idx seg model language
                options Hc Hd Hcut text txt).
Qed.

(** An environment in which both providers answer 200 with a blank
    transcript, the general provider a second time with text. *)
Definition blank_then_text : Env := {|
  cancel_requested_now := false;
  ffmpeg_cut := fun _ _ => CutOk;
  deepgram_post := fun k _ =>
    match k with
    | O => HttpResponse 200 [] (Some (py "  "))
    | S _ => HttpResponse 200 [] (Some (py "hello"))
    end;
  hf_post := fun _ => HttpResponse 200 [] (Some [])
|}.

Lemma empty_transcript_retry_witness :
  let seg := mkSeg 1 2 in
  let nova := py "nova-2-general" in
  let kotoba := py "kotoba-tech/kotoba-whisper-v2.2" in
  _empty_retry_window seg = (0.78, 2.22) /\
  (transcribe_task html_unescape_named Config.default blank_then_text 3 seg
     nova (py "en") []).2
  = [EvCut (1, 2); EvDeepgram (dg_request nova (py "en") [] (1, 2));
     EvCut (0.78, 2.22);
     EvDeepgram (dg_request nova (py "auto") [] (0.78, 2.22)); EvUnlink] /\
  (transcribe_task html_unescape_named Config.default blank_then_text 3 seg
     kotoba (py "ja") []).2
  = [EvCut (1, 2); EvHf (1, 2); EvUnlink].
Proof.
  cbv zeta. split; [by vm_compute|].
  assert (0 <= start (mkSeg 1 2)) as Hs by (simpl; lra).
  assert (0.01 <= dur (mkSeg 1 2)) as Hd by (by vm_compute).
  split.
  - destruct (empty_transcript_retry html_unescape_named Config.default
                blank_then_text 3 (mkSeg 1 2) (py "nova-2-general") (py "en")
                [] eq_refl Hs Hd eq_refl) as (_ & _ & H & _).
    exact (proj1 (H [] (py "  ") eq_refl ltac:(by vm_compute) eq_refl eq_refl
                    eq_refl)).
  - destruct (empty_transcript_retry html_unescape_named Config.default
                blank_then_text 3 (mkSeg 1 2)
                (py "kotoba-tech/kotoba-whisper-v2.2") (py "ja")
                [] eq_refl Hs Hd eq_refl) as (_ & _ & _ & H).
    exact (proj1 (H [] [] eq_refl ltac:(by vm_compute) eq_refl eq_refl)).
Defined.

(** C5 as stated fails near the start of a file: for the segment from
    [0.1] to [1.0] the pad is [0.22], but the second cut runs from [0] to
    [1.22], which adds [0.1] seconds on the left and [0.22] on the
    right. *)
Lemma retry_window_clamped_at_zero :
  retry_pad (mkSeg 0.1 1) = 0.22 /\
  _empty_retry_window (mkSeg 0.1 1) = (0, 1 + 0.22) /\
  start (mkSeg 0.1 1) - (_empty_retry_window (mkSeg 0.1 1)).1 == 0.1 /\
  (_empty_retry_window (mkSeg 0.1 1)).2 - end_ (mkSeg 0.1 1) == 0.22 /\
  (transcribe_task html_unescape_named Config.default blank_then_text 0
     (mkSeg 0.1 1) (py "nova-2-general") (py "en") []).2
  = [EvCut (0.1, 1);
     EvDeepgram (dg_request (py "nova-2-general") (py "en") [] (0.1, 1));
     EvCut (0, 1 + 0.22);
     EvDeepgram (dg_request (py "nova-2-general") (py "auto") []
                   (0, 1 + 0.22));
     EvUnlink].
Proof. repeat split; by vm_compute. Qed.

End TranscribeFacts.


(** ** The registry *)

Module RegistryFacts.

Import Text Registry.
Local Open Scope Q_scope.

Section Shapes.

Variable wall : nat -> Q.
Variable cfg : Config.t.
Variable job_id : string.

Lemma update_job_cases kwargs w :
  (JOBS w !! job_id = None /\ update_job wall job_id kwargs w = w) \/
  (exists j, JOBS w !! job_id = Some j /\
     update_job wall job_id kwargs w =
     put job_id j
       (assign_to (fold_left assign_to kwargs j) (UpdatedAt (wall (clock w))))
       (S (clock w)) w).
Proof.
  unfold update_job. destruct (JOBS w !! job_id) as [j|]; eauto.
Qed.

Lemma touch_heartbeat_cases w :
  (JOBS w !! job_id = None /\ touch_heartbeat wall job_id w = w) \/
  (exists j, JOBS w !! job_id = Some j /\
     touch_heartbeat wall job_id w =
     put job_id j
       (assign_to (assign_to j (LastHeartbeat (wall (clock w))))
          (UpdatedAt (wall (S (clock w)))))
       (S (S (clock w))) w).
Proof.
  unfold touch_heartbeat. destruct (JOBS w !! job_id) as [j|]; eauto.
Qed.

(** The record after [append_log] has added the line [message]. *)
Definition logged (j : Job) (message : pystr) (stamp t1 t2 : Q) : Job :=
  let seq := S (log_seq j) in
  let logs1 := logs j ++ [mkLog seq stamp message] in
  let logs2 :=
    if (Config.LOG_MAX_LINES cfg <? length logs1)%nat
    then last_n (Config.LOG_MAX_LINES cfg) logs1 else logs1 in
  fold_left assign_to [LogSeq seq; Logs logs2; UpdatedAt t1; LastHeartbeat t2]
    j.

(** The line that [append_log] makes of a message. *)
Definition log_line (message : pystr) : pystr :=
  strip (replace_char 0x0A%N SP (replace_char 0x0D%N SP message)).

Lemma append_log_cases message w :
  append_log wall cfg job_id message w = w \/
  (exists j, JOBS w !! job_id = Some j /\
     nonempty (log_line message) = true /\
     append_log wall cfg job_id message w =
     put job_id j
       (logged j (log_line message) (wall (clock w)) (wall (S (clock w)))
          (wall (S (S (clock w)))))
       (S (S (S (clock w)))) w).
Proof.
  unfold append_log. fold (log_line message).
  destruct (nonempty (log_line message)) eqn:E; simpl; [|by left].
  destruct (JOBS w !! job_id) as [j|]; [|by left].
  right. by exists j.
Qed.

Lemma set_status_eq s w :
  set_status wall job_id s w =
  update_job wall job_id
    (let now := wall (clock w) in
     let patch := [Status s; UpdatedAt now; LastHeartbeat now] in
     let patch :=
       match s with
       | Running => patch ++ [StartedAt (Some now)]
       | _ => patch
       end in
     if is_terminal s then patch ++ [FinishedAt (Some now)] else patch)
    (with_clock (S (clock w)) w).
Proof. reflexivity. Qed.

Lemma set_error_eq msg w :
  set_error wall job_id msg w =
  update_job wall job_id
    [Status Error; ErrorText (Some (firstn 4000 msg));
     FinishedAt (Some (wall (clock w)));
     LastHeartbeat (wall (S (clock w)))]
    (with_clock (S (S (clock w))) w).
Proof. reflexivity. Qed.

Lemma set_result_eq path download w :
  set_result wall job_id path download w =
  update_job wall job_id
    [ResultPath (Some path); DownloadName (Some download); Status Done;
     Progress 100; FinishedAt (Some (wall (clock w)));
     LastHeartbeat (wall (S (clock w))); ErrorText None]
    (with_clock (S (S (clock w))) w).
Proof. reflexivity. Qed.

Lemma mark_downloaded_eq w :
  mark_downloaded wall job_id w =
  update_job wall job_id [DownloadedAt (Some (wall (clock w)))]
    (with_clock (S (clock w)) w).
Proof. reflexivity. Qed.

Lemma lookup_put j j' n w : JOBS (put job_id j j' n w) !! job_id = Some j'.
Proof. unfold put, mark_meta_dirty, commit. simpl. apply lookup_insert_eq. Qed.

Lemma lookup_put_ne other j j' n w :
  other <> job_id -> JOBS (put job_id j j' n w) !! other = JOBS w !! other.
Proof.
  intros H. unfold put, mark_meta_dirty, commit. simpl.
  by apply lookup_insert_ne.
Qed.

Lemma get_job_cases w :
  (exists j, JOBS w !! job_id = Some j /\ get_job job_id w = (Some j, w)) \/
  (JOBS w !! job_id = None /\ exists j, meta_files w !! job_id = Some j /\
     get_job job_id w = (Some j, with_JOBS (<[job_id := j]> (JOBS w)) w)) \/
  (JOBS w !! job_id = None /\ get_job job_id w = (None, w)).
Proof.
  unfold get_job. destruct (JOBS w !! job_id) as [j|]; [eauto|].
  right. destruct (meta_files w !! job_id) as [j|]; eauto.
Qed.

End Shapes.

Lemma get_job_present job_id w j :
  JOBS w !! job_id = Some j -> get_job job_id w = (Some j, w).
Proof. intros H. unfold get_job. by rewrite H. Qed.

Lemma get_job_lookup job_id w j w' :
  get_job job_id w = (Some j, w') -> JOBS w' !! job_id = Some j.
Proof.
  unfold get_job. destruct (JOBS w !! job_id) as [j0|] eqn:E.
  - by intros [= <- <-].
  - destruct (meta_files w !! job_id) as [j0|]; [|done].
    intros [= <- <-]. simpl. apply lookup_insert_eq.
Qed.

(** *** The error text stays within 4000 characters *)

Section ErrorBound.

Variable wall : nat -> Q.
Variable cfg : Config.t.
Variable job_id : string.

Lemma errors_bounded_put j j' n w :
  errors_bounded w -> error_bounded j' ->
  errors_bounded (put job_id j j' n w).
Proof.
  intros [HJ HM] Hj'. split; [|exact HM].
  intros other r. destruct (decide (other = job_id)) as [->|Hne].
  - rewrite lookup_put. by intros [= <-].
  - rewrite lookup_put_ne by done. apply HJ.
Qed.

Lemma errors_bounded_update_job kwargs w :
  (forall j, error_bounded j -> error_bounded (fold_left assign_to kwargs j)) ->
  errors_bounded w -> errors_bounded (update_job wall job_id kwargs w).
Proof.
  intros Hk Hw.
  destruct (update_job_cases wall job_id kwargs w)
    as [[_ ->]|(j & Hj & ->)]; [done|].
  apply errors_bounded_put; [done|].
  intros e. simpl. apply Hk. by apply (proj1 Hw job_id).
Qed.

Lemma errors_bounded_touch_heartbeat w :
  errors_bounded w -> errors_bounded (touch_heartbeat wall job_id w).
Proof.
  intros Hw.
  destruct (touch_heartbeat_cases wall job_id w)
    as [[_ ->]|(j & Hj & ->)]; [done|].
  apply errors_bounded_put; [done|]. apply (proj1 Hw job_id j Hj).
Qed.

Lemma errors_bounded_append_log message w :
  errors_bounded w -> errors_bounded (append_log wall cfg job_id message w).
Proof.
  intros Hw.
  destruct (append_log_cases wall cfg job_id message w)
    as [->|(j & Hj & _ & ->)]; [done|].
  apply errors_bounded_put; [done|]. apply (proj1 Hw job_id j Hj).
Qed.

Lemma errors_bounded_set_status s w :
  errors_bounded w -> errors_bounded (set_status wall job_id s w).
Proof.
  intros Hw. rewrite set_status_eq. apply errors_bounded_update_job; [|done].
  intros j Hj. by destruct s.
Qed.

Lemma errors_bounded_set_progress p w :
  errors_bounded w -> errors_bounded (set_progress wall job_id p w).
Proof. intros Hw. by apply errors_bounded_update_job. Qed.

Lemma errors_bounded_set_error msg w :
  errors_bounded w -> errors_bounded (set_error wall job_id msg w).
Proof.
  intros Hw. rewrite set_error_eq. apply errors_bounded_update_job; [|done].
  intros j _ e [= <-]. apply firstn_le_length.
Qed.

Lemma errors_bounded_set_result path download w :
  errors_bounded w -> errors_bounded (set_result wall job_id path download w).
Proof.
  intros Hw. rewrite set_result_eq. apply errors_bounded_update_job; [|done].
  by intros j _ e.
Qed.

Lemma errors_bounded_mark_downloaded w :
  errors_bounded w -> errors_bounded (mark_downloaded wall job_id w).
Proof.
  intros Hw. rewrite mark_downloaded_eq.
  by apply errors_bounded_update_job.
Qed.

Lemma errors_bounded_get_job w :
  errors_bounded w -> errors_bounded (get_job job_id w).2.
Proof.
  intros Hw.
  destruct (get_job_cases job_id w)
    as [(j & _ & ->)|[(_ & j & Hj & ->)|(_ & ->)]]; [done| |done].
  destruct Hw as [HJ HM]. split; [|exact HM].
  intros other r. simpl.
  destruct (decide (other = job_id)) as [->|Hne].
  - rewrite lookup_insert_eq. intros [= <-]. by apply (HM job_id).
  - rewrite lookup_insert_ne by done. apply HJ.
Qed.

Lemma errors_bounded_api_cancel w :
  errors_bounded w -> errors_bounded (api_cancel wall cfg job_id w).
Proof.
  intros Hw. unfold api_cancel.
  pose proof (errors_bounded_get_job w Hw) as H1.
  destruct (get_job job_id w) as [[j|] w1]; simpl in H1; [|done].
  destruct (is_terminal (status j)); [done|].
  set (w2 := append_log _ _ _ _ _).
  assert (errors_bounded w2) as H2.
  { apply errors_bounded_append_log. by apply errors_bounded_update_job. }
  pose proof (errors_bounded_get_job w2 H2) as H3.
  destruct (get_job job_id w2) as [[j2|] w3]; simpl in H3; [|done].
  destruct (status j2); try done. by apply errors_bounded_set_status.
Qed.

End ErrorBound.


(** *** Changes of a terminal record *)



Section Frame.

Variable wall : nat -> Q.
Variable cfg : Config.t.
Variable job_id : string.


Lemma settled_refl j : settled j j.
Proof. by repeat split. Qed.















End Frame.


Section Cancel.

Variable wall : nat -> Q.
Variable cfg : Config.t.
Variable job_id : string.




End Cancel.


(** *** The lease and the dirty marks under registry operations *)

(** From [w] to [w'] no lease is taken or released, no dirty mark is
    removed, and the job stays in the registry. *)
Definition keeps (job_id : string) (w w' : World) : Prop :=
  lock_files w' = lock_files w /\
  META_DIRTY w ⊆ META_DIRTY w' /\
  (is_Some (JOBS w !! job_id) -> is_Some (JOBS w' !! job_id)).

Section Keeps.

Variable wall : nat -> Q.
Variable cfg : Config.t.
Variable job_id : string.

Lemma keeps_refl w : keeps job_id w w.
Proof. by split. Qed.

Lemma keeps_trans w1 w2 w3 :
  keeps job_id w1 w2 -> keeps job_id w2 w3 -> keeps job_id w1 w3.
Proof.
  intros (L1 & D1 & J1) (L2 & D2 & J2).
  split; [congruence|]. split; [by etrans|auto].
Qed.

Lemma keeps_put j j' n w : keeps job_id w (put job_id j j' n w).
Proof.
  split; [done|]. split.
  - simpl. set_solver.
  - intros _. rewrite lookup_put. eauto.
Qed.

Lemma dirty_put j j' n w : job_id ∈ META_DIRTY (put job_id j j' n w).
Proof. simpl. set_solver. Qed.

Lemma keeps_clock n w : keeps job_id w (with_clock n w).
Proof. by split. Qed.

Lemma keeps_update_job kwargs w :
  keeps job_id w (update_job wall job_id kwargs w).
Proof.
  destruct (update_job_cases wall job_id kwargs w)
    as [[_ ->]|(j & Hj & ->)]; [apply keeps_refl | apply keeps_put].
Qed.

(** An update of a job that is in the registry marks it dirty. *)
Lemma dirty_update_job kwargs w :
  is_Some (JOBS w !! job_id) ->
  job_id ∈ META_DIRTY (update_job wall job_id kwargs w).
Proof.
  intros [j Hj].
  destruct (update_job_cases wall job_id kwargs w)
    as [[E _]|(j' & Hj' & ->)]; [congruence | apply dirty_put].
Qed.

Lemma keeps_append_log message w :
  keeps job_id w (append_log wall cfg job_id message w).
Proof.
  destruct (append_log_cases wall cfg job_id message w)
    as [->|(j & Hj & _ & ->)]; [apply keeps_refl | apply keeps_put].
Qed.

Lemma keeps_set_status s w : keeps job_id w (set_status wall job_id s w).
Proof.
  rewrite set_status_eq.
  eapply keeps_trans; [apply (keeps_clock (S (clock w)))|].
  apply keeps_update_job.
Qed.

Lemma dirty_set_status s w :
  is_Some (JOBS w !! job_id) ->
  job_id ∈ META_DIRTY (set_status wall job_id s w).
Proof. intros H. rewrite set_status_eq. by apply dirty_update_job. Qed.

Lemma keeps_set_error msg w : keeps job_id w (set_error wall job_id msg w).
Proof.
  rewrite set_error_eq.
  eapply keeps_trans; [apply (keeps_clock (S (S (clock w))))|].
  apply keeps_update_job.
Qed.

Lemma dirty_set_error msg w :
  is_Some (JOBS w !! job_id) ->
  job_id ∈ META_DIRTY (set_error wall job_id msg w).
Proof. intros H. rewrite set_error_eq. by apply dirty_update_job. Qed.

Lemma keeps_get_job w : keeps job_id w (get_job job_id w).2.
Proof.
  destruct (get_job_cases job_id w)
    as [(j & _ & ->)|[(_ & j & Hj & ->)|(_ & ->)]];
    try apply keeps_refl.
  split; [done|]. split; [done|]. intros _. simpl.
  rewrite lookup_insert_eq. eauto.
Qed.

Lemma keeps_api_cancel w : keeps job_id w (api_cancel wall cfg job_id w).
Proof.
  unfold api_cancel. pose proof (keeps_get_job w) as H1.
  destruct (get_job job_id w) as [[j|] w1]; simpl in H1; [|done].
  destruct (is_terminal (status j)); [done|].
  set (w2 := append_log _ _ _ _ _).
  assert (keeps job_id w w2) as H2.
  { eapply keeps_trans; [exact H1|].
    eapply keeps_trans; [apply keeps_update_job | apply keeps_append_log]. }
  pose proof (keeps_get_job w2) as H3.
  destruct (get_job job_id w2) as [[j2|] w3]; simpl in H3;
    [|by eapply keeps_trans].
  assert (keeps job_id w w3) as H4 by (by eapply keeps_trans).
  destruct (status j2); try done.
  eapply keeps_trans; [exact H4 | apply keeps_set_status].
Qed.

End Keeps.


End RegistryFacts.


(** ** The worker and the registry *)

Module WorkerFacts.

Import Text Registry Worker RegistryFacts.
Local Open Scope Q_scope.

(** *** Rules for blocks *)

Lemma triple_bind {A B} P (m : Pm A) (k : A -> Pm B) Q Q' R X :
  triple P m Q R X ->
  (forall a, triple (Q a) (k a) Q' R X) ->
  triple P (m ≫= k) Q' R X.
Proof.
  intros Hm Hk w HP. specialize (Hm w HP).
  unfold mbind, Pm_bind, then_.
  destruct (m w) as [[a| |msg] w1]; [|done|done].
  by apply Hk.
Qed.

Lemma triple_act P (f : World -> World) (Q : unit -> World -> Prop) R X :
  (forall w, P w -> Q tt (f w)) -> triple P (act f) Q R X.
Proof. intros H w HP. by apply H. Qed.

Lemma triple_ret {A} P (a : A) (Q : A -> World -> Prop) R X :
  (forall w, P w -> Q a w) -> triple P (mret a) Q R X.
Proof. intros H w HP. by apply H. Qed.

Lemma triple_return {A} P (Q : A -> World -> Prop) (R X : World -> Prop) :
  (forall w, P w -> R w) -> triple P return_ Q R X.
Proof. intros H w HP. by apply H. Qed.

Lemma triple_raise {A} P msg (Q : A -> World -> Prop) (R X : World -> Prop) :
  (forall w, P w -> X w) -> triple P (raise msg) Q R X.
Proof. intros H w HP. by apply H. Qed.

Lemma triple_of_result {A} P (r : result A) (R : World -> Prop) :
  triple P (of_result r) (fun _ => P) R P.
Proof. intros w HP. by destruct r. Qed.

Lemma triple_weaken {A} (P P' : World -> Prop) (m : Pm A)
    (Q Q' : A -> World -> Prop) (R R' X X' : World -> Prop) :
  triple P' m Q' R' X' ->
  (forall w, P w -> P' w) ->
  (forall a w, Q' a w -> Q a w) ->
  (forall w, R' w -> R w) ->
  (forall w, X' w -> X w) ->
  triple P m Q R X.
Proof.
  intros Hm HP HQ HR HX w Hw. specialize (Hm w (HP w Hw)).
  destruct (m w) as [[a| |msg] w1]; auto.
Qed.

Lemma triple_pure {A} (phi : Prop) P (m : Pm A) Q R X :
  (forall w, P w -> phi) ->
  (phi -> triple P m Q R X) ->
  triple P m Q R X.
Proof. intros H Hm w HP. apply Hm; eauto. Qed.

(** Whatever the body and the handler do, the [finally] block runs last. *)
Lemma try_except_finally_last body handler final w :
  exists w', (try_except_finally body handler final w).2 = final w'.
Proof.
  unfold try_except_finally.
  destruct (body w) as [[[]| |msg] w1]; simpl; eauto.
  destruct (handler msg w1) as [r2 w2]. simpl. eauto.
Qed.

Lemma triple_try (P Live Any : World -> Prop) body handler final :
  triple P body (fun _ => Any) Any Live ->
  (forall e, triple Live (handler e) (fun _ => Any) Any (fun _ => False)) ->
  (forall w, Any w -> Any (final w)) ->
  triple P (try_except_finally body handler final) (fun _ => Any) Any
    (fun _ => False).
Proof.
  intros Hb Hh Hf w HP. specialize (Hb w HP). unfold try_except_finally.
  destruct (body w) as [[[]| |msg] w1]; simpl; auto.
  specialize (Hh msg w1 Hb).
  destruct (handler msg w1) as [[[]| |msg'] w2]; simpl; auto.
Qed.

(** *** The protocol of a run

    A run keeps any property of the world that the registry operations keep
    where the run applies them: [Live] while the job is being worked on,
    [Pending] once a poll has seen a cancel request, [Any] afterwards. *)

Section Protocol.

Variable cfg : Config.t.
Variable o : Oracle.
Variable outputs_root : pystr.
Variable job_id : string.
Variables Live Pending Any : World -> Prop.

Local Abbreviation append_log_ := (append_log (wall o) cfg job_id).
Local Abbreviation set_status_ := (set_status (wall o) job_id).

Hypothesis live_any : forall w, Live w -> Any w.
Hypothesis live_log : forall m w, Live w -> Live (append_log_ m w).
Hypothesis any_log : forall m w, Any w -> Any (append_log_ m w).
Hypothesis live_heartbeat :
  forall w, Live w -> Live (touch_heartbeat (wall o) job_id w).
Hypothesis live_progress :
  forall p w, Live w -> Live (set_progress (wall o) job_id p w).
Hypothesis live_running : forall w, Live w -> Live (set_status_ Running w).
Hypothesis live_poll :
  forall w, Live w ->
    match poll_cancel cfg o job_id w with
    | (Next true, w') => Pending w'
    | (Next false, w') => Live w'
    | _ => False
    end.
Hypothesis pending_poll :
  forall w, Pending w ->
    match poll_cancel cfg o job_id w with
    | (Next true, w') => Pending w'
    | (Next false, w') => Live w'
    | _ => False
    end.
Hypothesis pending_log : forall m w, Pending w -> Pending (append_log_ m w).
Hypothesis pending_cancelled :
  forall w, Pending w -> Any (set_status_ Cancelled w).
Hypothesis live_error :
  forall e w, Live w -> Any (set_error (wall o) job_id e w).
Hypothesis live_result :
  forall path name w, Live w -> Any (set_result (wall o) job_id path name w).
Hypothesis live_tmp : forall s w, Live w -> Live (with_tmp_dirs s w).
Hypothesis live_outputs : forall m w, Live w -> Live (with_outputs m w).
Hypothesis live_lock : forall s w, Live w -> Live (with_lock_files s w).
Hypothesis any_final : forall w, Any w -> Any (finally_block job_id w).
Hypothesis any_get : forall w, Any w -> Any (get_job job_id w).2.
Hypothesis any_live :
  forall w j, Any w -> JOBS w !! job_id = Some j ->
    is_terminal (status j) = false -> cancel_requested j = false -> Live w.
Hypothesis any_pending :
  forall w j, Any w -> JOBS w !! job_id = Some j ->
    is_terminal (status j) = false -> cancel_requested j = true -> Pending w.

(** A block of the [try] statement: it raises only while the job is live. *)
Local Abbreviation block P m Q := (triple P m Q Any Live).

Ltac effect := apply triple_act; intros; eauto.

Lemma poll_spec R X :
  triple Live (poll_cancel cfg o job_id)
    (fun c w => if c then Pending w else Live w) R X.
Proof.
  intros w HL. specialize (live_poll w HL).
  destruct (poll_cancel cfg o job_id w) as [[[]| |?] w']; done.
Qed.

Lemma cancelled_return_spec {A} (Q : A -> World -> Prop) X :
  triple Pending (cancelled_return cfg o job_id) Q Any X.
Proof.
  unfold cancelled_return.
  eapply (triple_bind _ _ _ (fun _ => Any)); [by effect|intros _].
  eapply (triple_bind _ _ _ (fun _ => Any)); [by effect|intros _].
  by apply triple_return.
Qed.

Lemma stage_normalize_spec p :
  block Live (stage_normalize cfg o job_id p) (fun _ => Live).
Proof.
  unfold stage_normalize.
  repeat (eapply (triple_bind _ _ _ (fun _ => Live));
          [first [by effect | apply triple_of_result]|intros _]).
  by effect.
Qed.

Lemma detect_block_spec : block Live (detect cfg o) (fun _ => Live).
Proof.
  unfold detect.
  eapply (triple_bind _ _ _ (fun _ => Live)); [apply triple_of_result|].
  intros total_dur. destruct (Qle_bool total_dur 0.05).
  - by apply triple_ret.
  - eapply (triple_bind _ _ _ (fun _ => Live)); [apply triple_of_result|].
    intros speech_ts. by apply triple_ret.
Qed.

Lemma stage_segment_spec p :
  block Live (stage_segment cfg o job_id p) (fun _ => Live).
Proof.
  unfold stage_segment.
  eapply (triple_bind _ _ _ (fun _ => Live)); [apply triple_of_result|].
  intros [[[[vad_preset thr] sil] sp] pad].
  eapply (triple_bind _ _ _ (fun _ => Live)); [apply detect_block_spec|].
  intros [[segments total_dur] split_count].
  eapply (triple_bind _ _ _ (fun _ => Live)); [by effect|intros _].
  eapply (triple_bind _ _ _ (fun _ => Live)).
  { destruct (negb (nonempty segments));
      [by apply triple_raise | by apply triple_ret]. }
  intros _.
  destruct (Vad.optimize_segments_for_transcription _ _ _ _)
    as [[segs merged] dropped].
  eapply (triple_bind _ _ _ (fun _ => Live)); [by effect|intros _].
  eapply (triple_bind _ _ _ (fun _ => Live)); [by effect|intros _].
  by apply triple_ret.
Qed.

Lemma count_result_spec r t :
  block Live (count_result cfg o job_id r t) (fun _ => Live).
Proof.
  unfold count_result.
  destruct (r_ok r); [by apply triple_ret|].
  case_bool_decide; [by apply triple_ret|].
  eapply (triple_bind _ _ _ (fun _ => Live)); [|intros _; by apply triple_ret].
  destruct (r_error r) as [err|]; [|by apply triple_ret].
  destruct (_ && _); [by effect | by apply triple_ret].
Qed.

Lemma completion_loop_spec p segments futs t :
  block Live (completion_loop cfg o job_id p segments futs t)
    (fun _ w => Live w \/ Pending w).
Proof.
  revert t. induction futs as [|i rest IH]; intros t; simpl.
  - apply triple_ret. auto.
  - destruct (segments !! i) as [seg|]; [|apply IH].
    eapply (triple_bind _ _ _ (fun _ => Live)); [by effect|intros _].
    eapply triple_bind; [apply poll_spec|].
    intros [|].
    + eapply (triple_bind _ _ _ (fun _ => Pending)).
      * apply triple_act. auto.
      * intros _. apply triple_ret. auto.
    + eapply (triple_bind _ _ _ (fun _ => Live));
        [apply count_result_spec|intros t'].
      eapply (triple_bind _ _ _ (fun _ => Live)); [by effect|intros _].
      apply IH.
Qed.

Lemma poll_again_spec R X :
  triple (fun w => Live w \/ Pending w) (poll_cancel cfg o job_id)
    (fun c w => if c then Pending w else Live w) R X.
Proof.
  intros w [HL|HP].
  - by apply poll_spec.
  - specialize (pending_poll w HP).
    destruct (poll_cancel cfg o job_id w) as [[[]| |?] w']; done.
Qed.

Lemma stage_transcribe_spec p segments :
  block Live (stage_transcribe cfg o outputs_root job_id p segments)
    (fun _ => Any).
Proof.
  unfold stage_transcribe.
  eapply triple_bind; [apply poll_spec|]. intros c.
  eapply (triple_bind _ _ _ (fun _ => Live)).
  { destruct c; [apply cancelled_return_spec | by apply triple_ret]. }
  intros _.
  eapply triple_bind; [apply completion_loop_spec|]. intros t.
  eapply triple_bind; [apply poll_again_spec|]. intros c'.
  eapply (triple_bind _ _ _ (fun _ => Live)).
  { destruct c'; [apply cancelled_return_spec | by apply triple_ret]. }
  intros _.
  eapply (triple_bind _ _ _ (fun _ => Live)).
  { destruct (negb _); [by apply triple_raise | by apply triple_ret]. }
  intros _.
  eapply (triple_bind _ _ _ (fun _ => Live)).
  { destruct (0 <? _)%nat; [by effect | by apply triple_ret]. }
  intros _.
  eapply (triple_bind _ _ _ (fun _ => Live)).
  { destruct (0 <? _)%nat; [by effect | by apply triple_ret]. }
  intros _.
  eapply (triple_bind _ _ _ (fun _ => Live)); [apply triple_of_result|].
  intros _.
  eapply (triple_bind _ _ _ (fun _ => Live)); [by effect|intros _].
  eapply (triple_bind _ _ _ (fun _ => Any)); [by effect|intros _].
  by effect.
Qed.

Lemma try_block_spec p :
  block Live (try_block cfg o outputs_root job_id p) (fun _ => Any).
Proof.
  unfold try_block.
  eapply triple_bind; [apply stage_normalize_spec|intros []].
  eapply triple_bind; [apply stage_segment_spec|intros segments].
  apply stage_transcribe_spec.
Qed.

Lemma except_block_spec err :
  triple Live (except_block cfg o job_id err) (fun _ => Any) Any
    (fun _ => False).
Proof.
  unfold except_block.
  eapply (triple_bind _ _ _ (fun _ => Any)); [by effect|intros _].
  by effect.
Qed.

(** [process_job], for a job that is in the registry and live: it does not
    raise, and ends in [Any]. *)
Lemma process_job_spec j :
  triple (fun w => Live w /\ JOBS w !! job_id = Some j)
    (process_job cfg o outputs_root job_id) (fun _ => Any) Any
    (fun _ => False).
Proof.
  unfold process_job.
  eapply (triple_bind _ _ _ (fun r w => r = Some j /\ Live w)).
  { intros w [HL Hj]. unfold ask. by rewrite (get_job_present _ _ _ Hj). }
  intros r. apply (triple_pure (r = Some j)); [tauto|intros ->].
  eapply (triple_bind _ _ _ (fun _ => Live)).
  { intros w [_ HL]. unfold ask, acquire_job_lease.
    case_bool_decide; simpl; auto. }
  intros [|]; simpl.
  - destruct (path_exists o (file_path (payload j))); simpl.
    + eapply triple_bind; [apply poll_spec|].
      intros [|]; [apply cancelled_return_spec|].
      apply (triple_try _ Live);
        [apply try_block_spec | apply except_block_spec | done].
    + eapply (triple_bind _ _ _ (fun _ => Any)); [by effect|intros _].
      eapply (triple_bind _ _ _ (fun _ => Any)); [by effect|intros _].
      by apply triple_return.
  - eapply (triple_bind _ _ _ (fun _ => Any)); [by effect|intros _].
    by apply triple_return.
Qed.

(** One turn of the worker keeps [Any]. *)
Lemma worker_turn_spec w :
  Any w -> Any (worker_turn cfg o outputs_root job_id w).
Proof.
  intros HA. unfold worker_turn.
  pose proof (any_get w HA) as HA1.
  pose proof (get_job_lookup job_id w) as Hj.
  destruct (get_job job_id w) as [[j|] w1]; simpl in *; [|done].
  specialize (Hj j w1 eq_refl).
  assert (is_terminal (status j) = false ->
          Any (if cancel_requested j
               then append_log_ (py "🛑 队列中取消") (set_status_ Cancelled w1)
               else match process_job cfg o outputs_root job_id w1 with
                    | (Raising _, w2) =>
                      set_error (wall o) job_id (py "Worker 异常终止") w2
                    | (_, w2) => w2
                    end)) as Hturn.
  { intros Hs. destruct (cancel_requested j) eqn:Ec.
    - eauto.
    - pose proof (process_job_spec j w1 (conj (any_live _ _ HA1 Hj Hs Ec) Hj))
        as Hp.
      by destruct (process_job cfg o outputs_root job_id w1)
        as [[[]| |?] w2]. }
  destruct (status j); try done; by apply Hturn.
Qed.

End Protocol.


(** *** The error text on the record *)

Section ErrorText.

Variable cfg : Config.t.
Variable o : Oracle.
Variable outputs_root : pystr.
Variable job_id : string.

Lemma poll_cancel_errors_bounded w :
  errors_bounded w ->
  match poll_cancel cfg o job_id w with
  | (Next _, w') => errors_bounded w'
  | _ => False
  end.
Proof.
  intros Hw. unfold poll_cancel, is_cancel_requested.
  set (w1 := if cancel_at o (clock w) then _ else w).
  assert (errors_bounded w1) as H1.
  { unfold w1. destruct (cancel_at o (clock w)); [|done].
    by apply errors_bounded_api_cancel. }
  pose proof (errors_bounded_get_job job_id w1 H1) as H2.
  by destruct (get_job job_id w1) as [j w2].
Qed.

Lemma worker_turn_errors_bounded w :
  errors_bounded w ->
  errors_bounded (worker_turn cfg o outputs_root job_id w).
Proof.
  apply (worker_turn_spec cfg o outputs_root job_id
           errors_bounded errors_bounded errors_bounded);
    auto using errors_bounded_append_log, errors_bounded_touch_heartbeat,
      errors_bounded_set_progress, errors_bounded_set_status,
      errors_bounded_set_error, errors_bounded_set_result,
      errors_bounded_get_job.
  - intros w' Hw'. pose proof (poll_cancel_errors_bounded w' Hw') as H.
    by destruct (poll_cancel cfg o job_id w') as [[[]| |?] w2].
  - intros w' Hw'. pose proof (poll_cancel_errors_bounded w' Hw') as H.
    by destruct (poll_cancel cfg o job_id w') as [[[]| |?] w2].
Qed.

End ErrorText.

(** When the [try] block raises, the error text goes to [set_error], which
    keeps its first 4000 characters, and into the log line, whole. *)
Lemma process_job_failure cfg o outputs_root job_id p w err w2 :
  try_block cfg o outputs_root job_id p w = (Raising err, w2) ->
  try_except_finally (try_block cfg o outputs_root job_id p)
    (except_block cfg o job_id) (finally_block job_id) w =
  (Next tt,
   finally_block job_id
     (append_log (wall o) cfg job_id (py "❌ 任务失败: " ++ err)
        (set_error (wall o) job_id err w2))).
Proof. intros E. unfold try_except_finally. by rewrite E. Qed.

(** C8: a turn of the worker keeps every error text on a record within
    4000 characters; but the log line of a failed run holds the error text
    whole: here the 237 characters that [float] has to say about a
    [vad_threshold] of 200 letters. *)
Theorem error_text_lengths :
  (forall cfg o outputs_root job_id w,
     errors_bounded w ->
     errors_bounded (worker_turn cfg o outputs_root job_id w)) /\
  (let w' :=
     worker_turn Config.default Examples.bad_threshold Examples.outputs_root
       Examples.sample_id Examples.queued in
   status <$> JOBS w' !! Examples.sample_id = Some Error /\
   error <$> JOBS w' !! Examples.sample_id =
     Some (Some Examples.float_error) /\
   length Examples.float_error = 237%nat /\
   JOBS w' !! Examples.sample_id ≫= (fun j => log_msg <$> last (logs j)) =
     Some (py "❌ 任务失败: " ++ Examples.float_error)).
Proof.
  split; [apply worker_turn_errors_bounded|].
  cbv zeta. repeat split; by vm_compute.
Qed.



(** *** Changes of a terminal record *)

Section Frames.

Variable cfg : Config.t.
Variable o : Oracle.
Variable outputs_root : pystr.
Variable job_id : string.






End Frames.






(** *** The lease *)

Section Lease.

Variable cfg : Config.t.
Variable o : Oracle.
Variable outputs_root : pystr.
Variable job_id : string.

Lemma poll_cancel_keeps w :
  exists c w', poll_cancel cfg o job_id w = (Next c, w') /\
               keeps job_id w w'.
Proof.
  unfold poll_cancel, is_cancel_requested.
  set (w1 := if cancel_at o (clock w) then _ else w).
  assert (keeps job_id w w1) as H1.
  { unfold w1. destruct (cancel_at o (clock w));
      [apply keeps_api_cancel | apply keeps_refl]. }
  pose proof (keeps_get_job job_id w1) as H2.
  destruct (get_job job_id w1) as [j w2]. simpl in H2.
  eexists _, w2. split; [done|]. by eapply keeps_trans.
Qed.

Lemma finally_block_releases w :
  (job_id ∉ lock_files (finally_block job_id w)) /\
  (job_id ∈ META_DIRTY (finally_block job_id w)).
Proof.
  simpl. split.
  - apply not_elem_of_difference. right. by apply elem_of_singleton.
  - apply elem_of_union. left. by apply elem_of_singleton.
Qed.

(** The run on the way to the [try] statement, for a job that is in the
    registry and whose lease is free. *)
Lemma process_job_unfold w j :
  JOBS w !! job_id = Some j -> job_id ∉ lock_files w ->
  process_job cfg o outputs_root job_id w =
  let w1 := with_lock_files ({[job_id]} ∪ lock_files w) w in
  if path_exists o (file_path (payload j)) then
    match poll_cancel cfg o job_id w1 with
    | (Next true, w2) =>
      (Returned,
       append_log (wall o) cfg job_id (py "🛑 任务已取消")
         (set_status (wall o) job_id Cancelled w2))
    | (Next false, w2) =>
      try_except_finally (try_block cfg o outputs_root job_id (payload j))
        (except_block cfg o job_id) (finally_block job_id) w2
    | (Returned, w2) => (Returned, w2)
    | (Raising msg, w2) => (Raising msg, w2)
    end
  else
    (Returned,
     append_log (wall o) cfg job_id (py "❌ 上传文件缺失")
       (set_error (wall o) job_id (py "上传文件不存在或已被清理") w1)).
Proof.
  intros Hj Hfree. unfold process_job.
  unfold mbind at 1, Pm_bind, then_, ask. rewrite (get_job_present _ _ _ Hj).
  unfold mbind at 1, Pm_bind, then_, ask, acquire_job_lease.
  rewrite bool_decide_eq_false_2 by done. cbn [negb]. cbv beta iota zeta.
  destruct (path_exists o (file_path (payload j))); cbn [negb]; cbv iota.
  - unfold mbind at 1, Pm_bind, then_.
    by destruct (poll_cancel cfg o job_id _) as [[[|]| |msg] w2].
  - done.
Qed.


End Lease.

(** C1: for a job that is in the registry and whose lease is free,
    [process_job] takes the lease and, when it returns, has marked the job
    dirty; but the lease file is still there exactly when the upload was
    missing or the poll before the [try] statement saw a cancel request:
    these two paths return before the [try] statement, whose [finally]
    block is what releases the lease. *)
Theorem process_job_lease cfg o outputs_root job_id w j :
  JOBS w !! job_id = Some j -> job_id ∉ lock_files w ->
  let w1 := with_lock_files ({[job_id]} ∪ lock_files w) w in
  let w' := (process_job cfg o outputs_root job_id w).2 in
  (job_id ∈ META_DIRTY w') /\
  ((job_id ∈ lock_files w') <->
   path_exists o (file_path (payload j)) = false \/
   (poll_cancel cfg o job_id w1).1 = Next true).
Proof.
  intros Hj Hfree w1 w'. unfold w'.
  rewrite (process_job_unfold cfg o outputs_root job_id w j Hj Hfree).
  cbv zeta. fold w1.
  assert (job_id ∈ lock_files w1) as Hheld.
  { simpl. apply elem_of_union. left. by apply elem_of_singleton. }
  assert (is_Some (JOBS w1 !! job_id)) as Hin by (simpl; eauto).
  assert (forall e m w2, keeps job_id w1 w2 ->
            let w3 := append_log (wall o) cfg job_id m
                        (set_error (wall o) job_id e w2) in
            job_id ∈ META_DIRTY w3 /\ job_id ∈ lock_files w3) as Hmissing.
  { intros e m w2 (L2 & D2 & J2) w3.
    destruct (keeps_append_log (wall o) cfg job_id m
                (set_error (wall o) job_id e w2)) as (L3 & D3 & _).
    destruct (keeps_set_error (wall o) job_id e w2) as (L4 & _).
    split.
    - apply D3. apply dirty_set_error. auto.
    - unfold w3. by rewrite L3, L4, L2. }
  assert (forall m w2, keeps job_id w1 w2 ->
            let w3 := append_log (wall o) cfg job_id m
                        (set_status (wall o) job_id Cancelled w2) in
            job_id ∈ META_DIRTY w3 /\ job_id ∈ lock_files w3) as Hcancel.
  { intros m w2 (L2 & D2 & J2) w3.
    destruct (keeps_append_log (wall o) cfg job_id m
                (set_status (wall o) job_id Cancelled w2)) as (L3 & D3 & _).
    destruct (keeps_set_status (wall o) job_id Cancelled w2) as (L4 & _).
    split.
    - apply D3. apply dirty_set_status. auto.
    - unfold w3. by rewrite L3, L4, L2. }
  destruct (path_exists o (file_path (payload j))) eqn:Hp.
  - destruct (poll_cancel_keeps cfg o job_id w1) as (c & w2 & E & K).
    rewrite E. destruct c; simpl.
    + destruct (Hcancel (py "🛑 任务已取消") w2 K) as [HD HL].
      split; [done|]. split; auto.
    + destruct (try_except_finally_last
                  (try_block cfg o outputs_root job_id (payload j))
                  (except_block cfg o job_id) (finally_block job_id) w2)
        as [w3 ->].
      destruct (finally_block_releases job_id w3) as [HL HD].
      split; [done|]. split; [done|]. by intros [?|?].
  - destruct (Hmissing (py "上传文件不存在或已被清理") (py "❌ 上传文件缺失")
                w1 (keeps_refl job_id w1)) as [HD HL].
    split; [done|]. split; auto.
Qed.

(** The upload of a queued job has been cleaned away: the run records the
    error, marks the job dirty, and leaves the lease file behind. *)
Lemma process_job_lease_witness :
  let w' :=
    (process_job Config.default Examples.upload_missing Examples.outputs_root
       Examples.sample_id Examples.queued).2 in
  (Examples.sample_id ∈ META_DIRTY w') /\
  (Examples.sample_id ∈ lock_files w') /\
  status <$> JOBS w' !! Examples.sample_id = Some Error.
Proof.
  assert (JOBS Examples.queued !! Examples.sample_id <> None) as Hj
    by (by vm_compute).
  destruct (JOBS Examples.queued !! Examples.sample_id) as [j|] eqn:E;
    [|done].
  destruct (process_job_lease Config.default Examples.upload_missing
              Examples.outputs_root Examples.sample_id Examples.queued j E
              ltac:(by vm_compute)) as [HD HL].
  cbv zeta. split; [exact HD|]. split.
  - apply HL. left. reflexivity.
  - by vm_compute.
Defined.



End WorkerFacts.


(** ** Further properties of the segmentation *)

Module VadMore.

Import Vad Notions VadFacts.
Local Open Scope Q_scope.

Ltac qlra := SrtFacts.qlra.

(** X2: [clamp] lands between its bounds when they are in order, leaves a
    value between them as it is, gives the lower bound when the bounds are
    crossed, and clamping twice is clamping once. *)
Theorem clamp_between v lo hi :
  (lo <= hi -> lo <= clamp v lo hi <= hi) /\
  (lo <= v <= hi -> clamp v lo hi == v) /\
  (hi < lo -> clamp v lo hi == lo) /\
  clamp (clamp v lo hi) lo hi == clamp v lo hi.
Proof.
  unfold clamp. repeat split; intros;
    try match goal with H : _ /\ _ |- _ => destruct H end; qlra.
Qed.

Lemma split_long_joined fuel max_seg seg_end : forall cur pieces n,
  0 < max_seg -> cur <= seg_end ->
  split_long fuel max_seg cur seg_end = Some (pieces, n) ->
  exists b, joined cur pieces b /\ seg_end - 0.05 <= b <= seg_end /\
    n = length (List.filter (fun p => Qlt_bool (end_ p) seg_end) pieces).
Proof.
  induction fuel as [|f IH]; intros cur pieces n Hmax Hle; simpl.
  - destruct (Qlt_bool cur (seg_end - 0.05)) eqn:E; [done|].
    apply Qlt_bool_false in E. intros [= <- <-]. exists cur. simpl.
    repeat split; lra.
  - destruct (Qlt_bool cur (seg_end - 0.05)) eqn:E.
    + apply Qlt_bool_true in E.
      destruct (split_long f max_seg _ seg_end) as [[ps m]|] eqn:Er; [|done].
      intros [= <- <-].
      assert (Qmin (cur + max_seg) seg_end <= seg_end) as Hnxt by qlra.
      destruct (IH _ ps m Hmax Hnxt Er) as (b & Hj & Hb & Hm).
      exists b. simpl. split; [|split; [done|]].
      * split; [done|]. split; [qlra | done].
      * destruct (Qlt_bool (Qmin (cur + max_seg) seg_end) seg_end);
          simpl; by rewrite Hm.
    + apply Qlt_bool_false in E. intros [= <- <-]. exists cur. simpl.
      repeat split; lra.
Qed.



Lemma joined_le a pieces : forall b, joined a pieces b -> a <= b.
Proof.
  revert a. induction pieces as [|p rest IH]; intros a b; simpl.
  - intros ->. lra.
  - intros (<- & Hp & Hr). apply IH in Hr. lra.
Qed.

Lemma joined_within a pieces : forall b,
  joined a pieces b ->
  Forall (fun p => a <= start p /\ start p < end_ p /\ end_ p <= b) pieces.
Proof.
  revert a. induction pieces as [|p rest IH]; intros a b; simpl; [constructor|].
  intros (<- & Hp & Hr). constructor.
  - apply joined_le in Hr. repeat split; lra.
  - eapply Forall_impl; [by apply IH|]. simpl. intros q (H1 & H2 & H3).
    repeat split; lra.
Qed.

(** The pieces of a segment of the file are segments of the file. *)
(** The pieces of a segment lie end to end from its start to its end, or to
    a point at most 0.05 seconds before it. *)
Lemma split_segment_joined max_seg seg :
  0 < max_seg -> start seg < end_ seg ->
  exists b, joined (start seg) (split_segment max_seg seg).1 b /\
            end_ seg - 0.05 <= b <= end_ seg.
Proof.
  intros Hmax Hpos. unfold split_segment.
  destruct (Qle_bool (dur seg) max_seg) eqn:E.
  - exists (end_ seg). simpl. repeat split; lra.
  - destruct (split_long_total (split_fuel max_seg (start seg) (end_ seg))
                max_seg (end_ seg) (start seg) Hmax
                (split_fuel_enough _ _ _ Hmax)) as [[pieces n] Hr].
    rewrite Hr.
    assert (start seg <= end_ seg) as Hle by lra.
    destruct (split_long_joined _ _ _ _ _ _ Hmax Hle Hr)
      as (b & Hj & Hb & Hn).
    eauto.
Qed.

Lemma split_segment_within max_seg total_dur seg :
  0.05 <= max_seg -> within_file total_dur seg ->
  (split_segment max_seg seg).1 <> [] /\
  Forall (within_file total_dur) (split_segment max_seg seg).1.
Proof.
  intros Hmax (H0 & Hpos & Hend). split.
  - destruct (split_segment_spec max_seg seg Hmax) as [_ [->|Hex]]; [done|].
    intros E. rewrite E in Hex. by apply Exists_nil in Hex.
  - pose proof (split_segment_joined max_seg seg ltac:(lra) Hpos)
      as (b & Hj & Hb).
    eapply Forall_impl; [by apply joined_within|]. simpl.
    intros q (H1 & H2 & H3). repeat split; lra.
Qed.

(** X3: a file of at most 0.05 seconds gives no segment; any longer file
    gives at least one, so that [process_job] fails with "no speech" only
    on such a short file; and every segment is a non-empty stretch of the
    file. *)
Theorem detect_speech_segments_covers cfg total_dur speech_ts :
  Config.config_ok cfg ->
  let '(out, reported, _) := detect_speech_segments cfg total_dur speech_ts in
  (total_dur <= 0.05 -> out = [] /\ reported = 0) /\
  (0.05 < total_dur ->
   out <> [] /\ reported = total_dur /\ Forall (within_file total_dur) out).
Proof.
  intros (HMAX & HMIN & _). unfold detect_speech_segments.
  destruct (Qle_bool total_dur 0.05) eqn:E.
  { apply Qle_bool_true in E. split; [done|]. intros H. lra. }
  apply SrtFacts.Qle_bool_false in E.
  set (pairs0 := speech_pairs total_dur speech_ts).
  set (pairs := if nonempty pairs0 then pairs0 else [(0, total_dur)]).
  set (picked := List.filter _ pairs).
  set (filtered0 := map _ picked).
  set (filtered := if nonempty filtered0 then filtered0 else _).
  assert (Forall (fun p : Q * Q => 0 <= p.1 /\ p.2 <= total_dur) pairs) as Hp.
  { unfold pairs. destruct (nonempty pairs0); [apply speech_pairs_range|].
    repeat constructor; simpl; lra. }
  assert (Forall (within_file total_dur) filtered) as Hf.
  { unfold filtered. destruct (nonempty filtered0) eqn:En.
    - unfold filtered0, picked. apply Forall_forall. intros seg Hseg.
      apply list_elem_of_In, in_map_iff in Hseg as (p & <- & Hin).
      apply filter_In in Hin as [Hin Hlong]. apply Qle_bool_true in Hlong.
      rewrite Forall_forall in Hp.
      destruct (Hp p) as [H1 H2]; [by apply list_elem_of_In|].
      unfold within_file. simpl. repeat split; qlra.
    - repeat constructor; simpl; lra. }
  assert (filtered <> []) as Hne.
  { unfold filtered. destruct (nonempty filtered0) eqn:En; [|done].
    by destruct filtered0. }
  pose proof (fold_split_fst (Config.MAX_SEGMENT_SECONDS cfg) filtered ([], O))
    as Hfold.
  destruct (fold_left _ filtered ([], O)) as [out n]. simpl in Hfold.
  subst out. split; [intros H; lra|]. intros _. split; [|split; [done|]].
  - destruct filtered as [|seg rest]; [done|]. simpl.
    apply Forall_cons in Hf as [Hseg _].
    destruct (split_segment_within (Config.MAX_SEGMENT_SECONDS cfg) total_dur
                seg ltac:(lra) Hseg) as [Hn _].
    intros Happ. by apply app_eq_nil in Happ as [? _].
  - apply Forall_forall. intros q Hq.
    apply list_elem_of_In, in_flat_map in Hq as (seg & Hseg & Hq).
    rewrite Forall_forall in Hf.
    destruct (split_segment_within (Config.MAX_SEGMENT_SECONDS cfg) total_dur
                seg ltac:(lra) (Hf seg ltac:(by apply list_elem_of_In)))
      as [_ Hw].
    rewrite Forall_forall in Hw. apply Hw. by apply list_elem_of_In.
Qed.

Lemma detect_speech_segments_covers_witness :
  let '(out, reported, _) :=
    detect_speech_segments Config.default 40 [(16000, 80000)%Z] in
  (40 <= 0.05 -> out = [] /\ reported = 0) /\
  (0.05 < 40 ->
   out <> [] /\ reported = 40 /\ Forall (within_file 40) out).
Proof.
  assert (Config.config_ok Config.default) as H.
  { unfold Config.config_ok. simpl. repeat split; (lra || lia). }
  exact (detect_speech_segments_covers Config.default 40 [(16000, 80000)%Z] H).
Defined.

(** *** The merge pass *)

Lemma length_insert_seg x l : length (insert_seg x l) = S (length l).
Proof.
  induction l as [|y l IH]; simpl; [done|].
  destruct (seg_le x y); simpl; by rewrite ?IH.
Qed.

Lemma length_sort_segs l : length (sort_segs l) = length l.
Proof.
  unfold sort_segs. induction l as [|x l IH]; simpl; [done|].
  by rewrite length_insert_seg, IH.
Qed.

(** One turn of the loop accounts for one segment: it is appended, merged
    into the last segment, or dropped; and nothing is merged into an empty
    list. *)
Lemma merge_short_step_count min_dur merge_gap max_dur st seg :
  let st' := merge_short_step min_dur merge_gap max_dur st seg in
  (length st'.1.1 + st'.1.2 + st'.2 = S (length st.1.1 + st.1.2 + st.2))%nat /\
  ((st.1.1 = [] -> st.1.2 = O) -> st'.1.1 = [] -> st'.1.2 = O).
Proof.
  destruct st as [[out m] d]. unfold merge_short_step. cbn [fst snd].
  destruct (Qle_bool min_dur _).
  { cbn [fst snd]. rewrite length_app. simpl. split; [lia|].
    intros _ E. by destruct out. }
  destruct (rev out) as [|prev before] eqn:Er.
  - assert (out = []) as -> by (by apply (f_equal (@rev _)) in Er;
      rewrite rev_involutive in Er).
    destruct (Qle_bool _ _); cbn [fst snd]; simpl; split; auto; lia.
  - assert (length out = S (length before)) as Hlen.
    { apply (f_equal (@length _)) in Er. by rewrite length_rev in Er. }
    destruct (_ && _).
    + cbn [fst snd]. rewrite length_app, length_rev. simpl. split; [lia|].
      intros _ E. by destruct (rev before).
    + destruct (Qle_bool _ _); cbn [fst snd].
      * rewrite length_app. simpl. split; [lia|]. intros _ E. by destruct out.
      * split; [lia|]. intros _ E. rewrite E in Hlen. done.
Qed.

Lemma merge_loop_count min_dur merge_gap max_dur src : forall st,
  let st' := fold_left (merge_short_step min_dur merge_gap max_dur) src st in
  (length st'.1.1 + st'.1.2 + st'.2
   = length src + (length st.1.1 + st.1.2 + st.2))%nat /\
  ((st.1.1 = [] -> st.1.2 = O) -> st'.1.1 = [] -> st'.1.2 = O).
Proof.
  induction src as [|seg src IH]; intros st; simpl; [done|].
  destruct (merge_short_step_count min_dur merge_gap max_dur st seg)
    as [Hc Hm].
  destruct (IH (merge_short_step min_dur merge_gap max_dur st seg))
    as [Hc' Hm'].
  split; [lia | auto].
Qed.

(** X4: the merge pass accounts for every segment it is given: kept, merged
    into the segment before it, or dropped. It returns no segment only when
    it is given none: if all would be dropped, the earliest is kept. *)
Theorem optimize_segments_accounts segments min_transcribe merge_gap max_seg :
  let '(out, merged, dropped) :=
    optimize_segments_for_transcription segments min_transcribe merge_gap
      max_seg in
  (segments = [] -> out = [] /\ merged = O /\ dropped = O) /\
  (segments <> [] -> out <> []) /\
  ((length out + merged + dropped = length segments)%nat \/
   (merged = O /\ dropped = length segments /\
    exists first, out = [first] /\ In first segments)).
Proof.
  unfold optimize_segments_for_transcription.
  destruct segments as [|s0 rest]; [by auto|].
  set (segments := s0 :: rest).
  set (src := sort_segs segments).
  pose proof (merge_loop_count (clamp min_transcribe 0.2 2)
                (clamp merge_gap 0 1) (Qmax 2 max_seg) src ([], O, O))
    as [Hc Hm].
  destruct (fold_left (merge_short_step (clamp min_transcribe 0.2 2)
                        (clamp merge_gap 0 1) (Qmax 2 max_seg)) src ([], O, O))
    as [[out m] d].
  cbn [fst snd length] in Hc, Hm. unfold src in Hc.
  rewrite (length_sort_segs segments) in Hc. fold src in Hc.
  split; [done|].
  destruct out as [|o1 out'].
  - specialize (Hm ltac:(done) eq_refl). subst m.
    destruct src as [|first src'] eqn:Es.
    { apply (f_equal (@length _)) in Es.
      unfold src in Es. by rewrite length_sort_segs in Es. }
    split; [done|]. right. split; [done|].
    split; [change (length (@nil SpeechSeg)) with O in Hc; lia|].
    exists first. split; [done|].
    apply (proj1 (sort_segs_In first segments)). fold src. rewrite Es.
    by left.
  - split; [done|]. left. lia.
Qed.

End VadMore.


(** ** Further properties of the subtitle assembly *)

Module SrtMore.

Import Text Srt Notions SrtFacts.
Local Open Scope Q_scope.

(** *** Timestamps *)






(** *** The order of the results *)

Lemma key_le_spec a b :
  key_le a b = true <->
  r_start a < r_start b \/
  (r_start a == r_start b /\
   (r_end a < r_end b \/ (r_end a == r_end b /\ (r_idx a <= r_idx b)%nat))).
Proof.
  unfold key_le.
  destruct (Qcompare (r_start a) (r_start b)) eqn:E1.
  - apply Qeq_alt in E1.
    destruct (Qcompare (r_end a) (r_end b)) eqn:E2.
    + apply Qeq_alt in E2. rewrite Nat.leb_le. split.
      * intros H. right. split; [done|]. right. by split.
      * intros [H|[_ [H|[_ H]]]]; [lra | lra | done].
    + apply Qlt_alt in E2. split; [intros _; right; split; [done|by left]|done].
    + apply Qgt_alt in E2. split; [done|].
      intros [H|[_ [H|[H _]]]]; lra.
  - apply Qlt_alt in E1. split; [by left | done].
  - apply Qgt_alt in E1. split; [done|]. intros [H|[H _]]; lra.
Qed.

Lemma key_le_total a b : key_le a b = true \/ key_le b a = true.
Proof.
  rewrite !key_le_spec.
  destruct (Qlt_le_dec (r_start a) (r_start b)) as [H|H]; [by left; left|].
  destruct (Qlt_le_dec (r_start b) (r_start a)) as [H'|H']; [by right; left|].
  assert (r_start a == r_start b) as Es by lra.
  destruct (Qlt_le_dec (r_end a) (r_end b)) as [G|G].
  { left. right. split; [done|]. by left. }
  destruct (Qlt_le_dec (r_end b) (r_end a)) as [G'|G'].
  { right. right. split; [lra|]. by left. }
  assert (r_end a == r_end b) as Ee by lra.
  destruct (Nat.le_ge_cases (r_idx a) (r_idx b)).
  - left. right. split; [done|]. right. by split.
  - right. right. split; [lra|]. right. split; [lra|done].
Qed.

Lemma key_le_trans a b c :
  key_le a b = true -> key_le b c = true -> key_le a c = true.
Proof.
  rewrite !key_le_spec.
  intros [H1|[H1 [H2|[H2 H3]]]] [G1|[G1 [G2|[G2 G3]]]];
    try (left; lra);
    right; (split; [lra|]);
    try (left; lra);
    right; split; [lra | lia].
Qed.

(** Two results with the same key either way have the same index. *)
Lemma key_le_antisym a b :
  key_le a b = true -> key_le b a = true -> r_idx a = r_idx b.
Proof.
  rewrite !key_le_spec.
  intros [H1|[H1 [H2|[H2 H3]]]] [G1|[G1 [G2|[G2 G3]]]]; try lra. lia.
Qed.

Lemma insert_sorted_In x y l : In x (insert_sorted y l) <-> x = y \/ In x l.
Proof.
  induction l as [|z l IH]; simpl; [intuition congruence|].
  destruct (key_le y z); simpl; rewrite ?IH; intuition congruence.
Qed.

Lemma insert_sorted_order x l :
  in_key_order l -> in_key_order (insert_sorted x l).
Proof.
  induction l as [|y l IH]; simpl; [by intros _; split|].
  intros [Hy Hl]. destruct (key_le x y) eqn:E; simpl.
  - split; [|done]. constructor; [done|].
    eapply Forall_impl; [exact Hy|]. simpl. intros z Hz.
    by apply key_le_trans with y.
  - split; [|by apply IH].
    apply Forall_forall. intros z Hz. apply list_elem_of_In in Hz.
    apply insert_sorted_In in Hz as [->|Hz].
    + destruct (key_le_total x y) as [H|H]; [congruence | done].
    + rewrite Forall_forall in Hy. apply Hy. by apply list_elem_of_In.
Qed.

Lemma sort_results_order l : in_key_order (sort_results l).
Proof.
  unfold sort_results. induction l as [|x l IH]; simpl; [done|].
  by apply insert_sorted_order.
Qed.

Lemma insert_sorted_perm x l : Permutation (x :: l) (insert_sorted x l).
Proof.
  induction l as [|y l IH]; simpl; [done|].
  destruct (key_le x y); [done|].
  rewrite perm_swap. by constructor.
Qed.

Lemma sort_results_perm l : Permutation l (sort_results l).
Proof.
  unfold sort_results. induction l as [|x l IH]; simpl; [done|].
  rewrite <- insert_sorted_perm. by constructor.
Qed.

Lemma NoDup_map_eq {A B} (f : A -> B) (l : list A) x y :
  NoDup (map f l) -> In x l -> In y l -> f x = f y -> x = y.
Proof.
  induction l as [|z l IH]; simpl; [done|].
  intros Hn Hx Hy E. apply NoDup_cons in Hn as [Hz Hn].
  assert (forall u, In u l -> f u <> f z) as Hne.
  { intros u Hu Eu. apply Hz. rewrite <- Eu.
    by apply list_elem_of_In, in_map. }
  destruct Hx as [<-|Hx], Hy as [<-|Hy]; auto.
  - exfalso. by apply (Hne y).
  - exfalso. by apply (Hne x).
Qed.

(** Two lists in key order with the same elements, whose indices are all
    different, are the same list. *)
Lemma in_key_order_unique l1 : forall l2,
  in_key_order l1 -> in_key_order l2 -> Permutation l1 l2 ->
  NoDup (map r_idx l1) -> l1 = l2.
Proof.
  induction l1 as [|a l1 IH]; intros l2 H1 H2 Hp Hn.
  { by apply Permutation_nil in Hp. }
  destruct l2 as [|b l2].
  { symmetry in Hp. by apply Permutation_nil in Hp. }
  destruct H1 as [Ha H1]. destruct H2 as [Hb H2].
  assert (forall x y, In x (a :: l1) -> In y (a :: l1) ->
            r_idx x = r_idx y -> x = y) as Hinj.
  { intros x y Hx Hy E.
    by apply (NoDup_map_eq r_idx (a :: l1)). }
  assert (a = b) as <-.
  { assert (In b (a :: l1)) as Hb1.
    { eapply Permutation_in; [symmetry; exact Hp | by left]. }
    assert (In a (b :: l2)) as Ha2.
    { eapply Permutation_in; [exact Hp | by left]. }
    rewrite Forall_forall in Ha, Hb.
    destruct Hb1 as [E|Hb1]; [done|]. destruct Ha2 as [E|Ha2]; [done|].
    apply Hinj; [by left | by right|].
    apply key_le_antisym; [apply Ha | apply Hb]; by apply list_elem_of_In. }
  f_equal. apply IH; [done | done | by apply Permutation_cons_inv in Hp|].
  by apply NoDup_cons_1_2 in Hn.
Qed.

(** X6: the subtitle file depends only on which results are usable (ok,
    with text), not on the order in which the tasks finished, nor on the
    failed results among them: two result lists whose usable results are
    the same up to order, with indices all different, give the same file. *)
Theorem build_srt_order_independent rs1 rs2 language model :
  Permutation (List.filter usable rs1) (List.filter usable rs2) ->
  NoDup (map r_idx (List.filter usable rs1)) ->
  build_srt rs1 language model = build_srt rs2 language model.
Proof.
  intros Hp Hn. unfold build_srt, build_cues.
  change (fun r => r_ok r && nonempty (r_text r)) with usable.
  rewrite (in_key_order_unique (sort_results (List.filter usable rs1))
             (sort_results (List.filter usable rs2))); [done|..].
  - apply sort_results_order.
  - apply sort_results_order.
  - by rewrite <- !sort_results_perm.
  - by rewrite <- sort_results_perm.
Qed.

(** Three tasks, the second of which failed, finishing in two orders. *)
Lemma build_srt_order_independent_witness :
  let a := mkResult true 0 0 2 (py "hello there") None 200%N in
  let b := mkResult false 1 2 4 [] (Some (py "EMPTY_TRANSCRIPT")) 200%N in
  let c := mkResult true 2 4 6 (py "good bye") None 200%N in
  build_srt [a; b; c] (py "en") (py "nova-2-general")
  = build_srt [c; a] (py "en") (py "nova-2-general").
Proof.
  intros a b c.
  apply (build_srt_order_independent [a; b; c] [c; a]).
  - vm_compute. apply perm_swap.
  - vm_compute. apply NoDup_cons. split; [|apply NoDup_singleton].
    apply not_elem_of_cons. split; [done | apply not_elem_of_nil].
Defined.

End SrtMore.


(** ** Further properties of the text functions *)

Module TextMore.

Import Text Notions PyStrFacts SplitFacts.

(** *** What line splitting keeps *)

Lemma ink_app a b : ink (a ++ b) = ink a ++ ink b.
Proof. apply List.filter_app. Qed.

Lemma ink_rev s : ink (rev s) = rev (ink s).
Proof.
  induction s as [|c s IH]; simpl; [done|].
  rewrite ink_app, IH. simpl. destruct (isspace c); simpl;
    by rewrite ?app_nil_r.
Qed.

Lemma ink_lstrip s : ink (lstrip s) = ink s.
Proof.
  induction s as [|c s IH]; simpl; [done|].
  destruct (isspace c) eqn:E; simpl; [done|]. by rewrite E.
Qed.

Lemma ink_strip s : ink (strip s) = ink s.
Proof.
  unfold strip, rstrip.
  by rewrite ink_rev, ink_lstrip, ink_rev, rev_involutive, ink_lstrip.
Qed.

Lemma ink_blank run : Forall (fun c => isspace c = true) run -> ink run = [].
Proof.
  induction 1 as [|c run Hc _ IH]; simpl; [done|]. by rewrite Hc.
Qed.

(** A text with nothing left after [strip] has no ink. *)
Lemma ink_strip_empty s : nonempty (strip s) = false -> ink s = [].
Proof.
  intros H. rewrite <- ink_strip. by destruct (strip s).
Qed.

Lemma ink_concat_filter (keep : pystr -> bool) parts :
  (forall x, keep x = false -> ink x = []) ->
  ink (concat (List.filter keep parts)) = ink (concat parts).
Proof.
  intros Hk. induction parts as [|x parts IH]; simpl; [done|].
  destruct (keep x) eqn:E; simpl; rewrite !ink_app, ?IH; [done|].
  by rewrite (Hk x E).
Qed.

Lemma ink_concat_flat_map (f : pystr -> list pystr) parts :
  (forall x, ink (concat (f x)) = ink x) ->
  ink (concat (flat_map f parts)) = ink (concat parts).
Proof.
  intros Hf. induction parts as [|x parts IH]; simpl; [done|].
  by rewrite concat_app, !ink_app, Hf, IH.
Qed.

Lemma ink_concat_map_strip parts :
  ink (concat (map strip parts)) = ink (concat parts).
Proof.
  induction parts as [|x parts IH]; simpl; [done|].
  by rewrite !ink_app, ink_strip, IH.
Qed.

Lemma split_ws_after_from_ink cls s : forall prev piece run,
  Forall (fun c => isspace c = true) run ->
  ink (concat (split_ws_after_from cls prev piece run s))
  = ink piece ++ ink s.
Proof.
  induction s as [|c s IH]; intros prev piece run Hrun; simpl.
  - destruct (_ && _); simpl; rewrite ?ink_app, ?(ink_blank run Hrun);
      by rewrite ?app_nil_r.
  - destruct (isspace c) eqn:E.
    + rewrite IH; [done|]. apply Forall_app. split; [done|].
      by repeat constructor.
    + destruct (_ && _); simpl.
      * rewrite ink_app, IH by constructor. simpl. by rewrite E.
      * rewrite IH by constructor.
        rewrite !ink_app, (ink_blank run Hrun). simpl. rewrite E. simpl.
        by rewrite <- app_assoc.
Qed.

Lemma split_ws_after_ink cls s : ink (concat (split_ws_after cls s)) = ink s.
Proof. unfold split_ws_after. by rewrite split_ws_after_from_ink. Qed.

Lemma split_clauses_ink p : ink (concat (split_clauses p)) = ink p.
Proof.
  unfold split_clauses. destruct (_ && _).
  - rewrite ink_concat_filter by apply ink_strip_empty.
    by rewrite split_ws_after_ink, ink_strip.
  - simpl. by rewrite app_nil_r, ink_strip.
Qed.

Lemma _split_by_punctuation_ink text language :
  ink (concat (_split_by_punctuation text language)) = ink text.
Proof.
  unfold _split_by_punctuation. destruct text as [|c t]; [done|].
  set (text := c :: t).
  set (parts := if bool_decide _ then _ else _).
  assert (ink (concat parts) = ink text) as Hparts.
  { unfold parts. case_bool_decide.
    - rewrite ink_concat_flat_map by apply split_clauses_ink.
      apply split_ws_after_ink.
    - apply split_ws_after_ink. }
  destruct (nonempty (List.filter nonempty (map strip parts))).
  - rewrite ink_concat_filter; [|by intros []].
    by rewrite ink_concat_map_strip.
  - simpl. by rewrite app_nil_r.
Qed.

Lemma join_line_ink a b : ink (join_line a b) = ink a ++ ink b.
Proof.
  unfold join_line. destruct (ends_alnum a); by rewrite ink_app.
Qed.

(** The ink of the lines emitted and of the line being filled. *)
Definition held (st : list pystr * pystr) : pystr :=
  ink (concat st.1) ++ ink st.2.

Lemma flush_ink st : ink (concat (flush st).1) = held st.
Proof.
  unfold flush, held. simpl. rewrite <- (ink_strip st.2).
  destruct (strip st.2) as [|c r] eqn:E; simpl; [by rewrite app_nil_r|].
  rewrite concat_app, ink_app. simpl. by rewrite app_nil_r.
Qed.

Lemma pack_step_ink budget st s :
  1 <= budget -> held (pack_step budget st s) = held st ++ ink s.
Proof.
  intros HB. unfold pack_step. rewrite <- (ink_strip s).
  destruct (strip s) as [|c r] eqn:E; simpl negb; cbv iota.
  { simpl. by rewrite app_nil_r. }
  set (s' := c :: r). simpl nonempty. cbv iota.
  destruct (too_long budget s').
  - unfold held at 1. cbn [fst snd].
    rewrite concat_app, ink_app, hard_cut_concat by done.
    rewrite flush_ink. change (ink []) with (@nil char).
    by rewrite app_nil_r.
  - destruct st as [lines cur]. cbn [fst snd].
    destruct cur as [|d cur']; simpl negb; cbv iota.
    { unfold held. simpl. by rewrite app_nil_r. }
    destruct (_ <=? _).
    + unfold held. cbn [fst snd]. by rewrite join_line_ink, app_assoc.
    + unfold held at 1. cbn [fst snd]. by rewrite flush_ink.
Qed.


Lemma fold_pack_ink budget ss : forall st,
  1 <= budget ->
  held (fold_left (pack_step budget) ss st) = held st ++ ink (concat ss).
Proof.
  induction ss as [|s ss IH]; intros st HB; simpl.
  - by rewrite app_nil_r.
  - by rewrite IH, pack_step_ink, ink_app, app_assoc.
Qed.

Lemma merge_step_ink budget merged line :
  ink (concat (merge_step budget merged line))
  = ink (concat merged) ++ ink line.
Proof.
  unfold merge_step. destruct (rev merged) as [|last before] eqn:E.
  { apply (f_equal (@rev _)) in E. rewrite rev_involutive in E. subst merged.
    simpl. by rewrite app_nil_r. }
  assert (merged = rev before ++ [last]) as ->.
  { apply (f_equal (@rev _)) in E. by rewrite rev_involutive in E. }
  destruct (_ && _).
  - rewrite !concat_app, !ink_app. simpl.
    by rewrite !app_nil_r, join_line_ink, app_assoc.
  - rewrite concat_app, ink_app. simpl. by rewrite app_nil_r.
Qed.

Lemma fold_merge_ink budget lines : forall merged,
  ink (concat (fold_left (merge_step budget) lines merged))
  = ink (concat merged) ++ ink (concat lines).
Proof.
  induction lines as [|l lines IH]; intros merged; simpl.
  - by rewrite app_nil_r.
  - by rewrite IH, merge_step_ink, ink_app, app_assoc.
Qed.

Lemma split_text_ink text language max_chars model :
  ink (concat (split_text_for_srt text language max_chars model)) = ink text.
Proof.
  unfold split_text_for_srt. destruct text as [|c t]; [done|].
  set (text := c :: t).
  pose proof (line_budget_range max_chars language model) as [HB _].
  rewrite fold_merge_ink, flush_ink, fold_pack_ink by lia.
  change (concat (@nil pystr)) with (@nil char). unfold held. cbn [fst snd].
  change (ink []) with (@nil char). cbn [app].
  apply _split_by_punctuation_ink.
Qed.

(** X7: line splitting loses nothing of the transcript: the lines, read one
    after the other without their white space, are the text without its
    white space. *)
Theorem split_text_for_srt_keeps_text text language max_chars model :
  ink (concat (split_text_for_srt text language max_chars model)) = ink text.
Proof. apply split_text_ink. Qed.

(** *** No empty line *)

Lemma hard_cut_fuel_nonempty fuel n : forall s : pystr,
  1 <= n -> Forall (fun p : pystr => p <> []) (hard_cut_fuel fuel n s).
Proof.
  induction fuel as [|f IH]; intros s Hn; simpl; [constructor|].
  destruct s as [|c s']; [constructor|].
  constructor; [|by apply IH]. destruct n; [lia | done].
Qed.

Lemma join_line_nonempty a b : a <> [] -> join_line a b <> [].
Proof.
  intros Ha. unfold join_line. destruct a as [|c a']; [done|].
  by destruct (ends_alnum (c :: a')).
Qed.

Lemma flush_nonempty (st : list pystr * pystr) :
  Forall (fun p => p <> []) st.1 -> Forall (fun p => p <> []) (flush st).1.
Proof.
  intros H. unfold flush. simpl.
  destruct (strip st.2) eqn:E; simpl; [done|].
  apply Forall_app. split; [done|]. constructor; [done | constructor].
Qed.

Lemma pack_step_nonempty budget (st : list pystr * pystr) s :
  1 <= budget ->
  Forall (fun p => p <> []) st.1 ->
  Forall (fun p => p <> []) (pack_step budget st s).1.
Proof.
  intros HB H. unfold pack_step.
  destruct (negb (nonempty (strip s))); [done|].
  destruct (too_long budget (strip s)).
  - cbn [fst]. apply Forall_app. split; [by apply flush_nonempty|].
    by apply hard_cut_fuel_nonempty.
  - destruct (negb (nonempty st.2)); [done|].
    destruct (_ <=? _); [done|]. cbn [fst]. by apply flush_nonempty.
Qed.

Lemma fold_pack_nonempty budget ss : forall st : list pystr * pystr,
  1 <= budget ->
  Forall (fun p => p <> []) st.1 ->
  Forall (fun p => p <> []) (fold_left (pack_step budget) ss st).1.
Proof.
  induction ss as [|s ss IH]; intros st HB H; simpl; [done|].
  apply IH; [done|]. by apply pack_step_nonempty.
Qed.

Lemma merge_step_nonempty budget (merged : list pystr) (line : pystr) :
  Forall (fun p => p <> []) merged -> line <> [] ->
  Forall (fun p => p <> []) (merge_step budget merged line).
Proof.
  intros Hm Hl. unfold merge_step.
  destruct (rev merged) as [|last before] eqn:E;
    [constructor; [done | constructor]|].
  assert (merged = rev before ++ [last]) as ->.
  { apply (f_equal (@rev _)) in E. by rewrite rev_involutive in E. }
  apply Forall_app in Hm as [Hb Hlast].
  apply Forall_cons in Hlast as [Hlast _].
  destruct (_ && _).
  - apply Forall_app. split; [done|].
    constructor; [by apply join_line_nonempty | constructor].
  - repeat (apply Forall_app; split); try done;
      (constructor; [done | constructor]).
Qed.

Lemma fold_merge_nonempty budget (lines : list pystr) :
  forall merged : list pystr,
  Forall (fun p => p <> []) merged -> Forall (fun p => p <> []) lines ->
  Forall (fun p => p <> []) (fold_left (merge_step budget) lines merged).
Proof.
  induction lines as [|l lines IH]; intros merged Hm Hl; simpl; [done|].
  apply Forall_cons in Hl as [Hl Hrest].
  apply IH; [|done]. by apply merge_step_nonempty.
Qed.

(** X8: line splitting gives no line for the empty text, never an empty
    line, and at least one line for a text that is not all white space. *)
Theorem split_text_for_srt_lines text language max_chars model :
  let lines := split_text_for_srt text language max_chars model in
  (text = [] -> lines = []) /\
  Forall (fun line => line <> []) lines /\
  (ink text <> [] -> lines <> []).
Proof.
  intros lines. split; [by intros ->|]. split.
  - unfold lines, split_text_for_srt. destruct text as [|c t]; [constructor|].
    pose proof (line_budget_range max_chars language model) as [HB _].
    apply fold_merge_nonempty; [constructor|].
    apply flush_nonempty, fold_pack_nonempty; [lia | constructor].
  - intros Hink E.
    pose proof (split_text_ink text language max_chars model) as Hkeep.
    fold lines in Hkeep. rewrite E in Hkeep. by symmetry in Hkeep.
Qed.

(** *** The shape of a normalised transcript *)

Lemma tok_chars_inline (t : token) : tok_ok t -> Forall inline_char (untok1 t).
Proof.
  intros [Hc Hw]. unfold untok1.
  assert (forall c, TextFacts.rough c = false -> inline_char c) as Hr.
  { intros c H. unfold TextFacts.rough in H.
    apply orb_false_elim in H as [H H3]. apply orb_false_elim in H as [H1 H2].
    repeat split; [done | done |]. by apply N.eqb_neq. }
  assert (inline_char t.2) as H2.
  { apply Hr. destruct (TextFacts.rough t.2) eqn:E; [|done].
    apply TextFacts.rough_space in E. congruence. }
  destruct t.1 as [w|] eqn:E1; [|constructor; [done | constructor]].
  constructor; [|constructor; [done | constructor]].
  apply Hr. specialize (Hw w eq_refl).
  by apply TextFacts.plain_ws_iff in Hw as [_ Hw].
Qed.

Lemma untok_shape (T : list token) :
  Forall tok_ok T ->
  Forall inline_char (untok T) /\
  (forall c, last (untok T) = Some c -> isspace c = false) /\
  single_spaced (untok T).
Proof.
  induction 1 as [|t T Ht HT IH].
  { by repeat split. }
  destruct IH as (I1 & I2 & I4).
  rewrite TextFacts.untok_cons.
  pose proof (tok_chars_inline t Ht) as Hin.
  destruct Ht as [Hc Hw]. unfold untok1 in *.
  assert (forall rest : pystr,
            rest = untok T ->
            (forall c, last (t.2 :: rest) = Some c -> isspace c = false) /\
            single_spaced (t.2 :: rest)) as Htail.
  { intros rest ->. split.
    - intros c. destruct (untok T) as [|d r]; simpl;
        [by intros [= <-] | apply I2].
    - destruct (untok T) as [|d r]; [done|].
      split; [congruence | done]. }
  destruct (Htail (untok T) eq_refl) as [Hlast Hsingle].
  destruct t.1 as [w|]; simpl.
  - split; [by apply (proj2 (Forall_app inline_char [w; t.2] (untok T)))|].
    split.
    + intros c Hl. apply Hlast. by rewrite <- Hl.
    + split; [done | exact Hsingle].
  - split; [by apply (proj2 (Forall_app inline_char [t.2] (untok T)))|].
    by split.
Qed.

(** X9: a normalised transcript is one line with single spaces: it does not
    start or end with white space, holds no newline, tab or other control
    blank and no ideographic space, and no two white-space characters side
    by side; the empty text stays empty. *)
Theorem normalize_transcript_text_shape html_unescape text language model :
  let out := normalize_transcript_text html_unescape text language model in
  (text = [] -> out = []) /\
  (forall c, head out = Some c -> isspace c = false) /\
  (forall c, last out = Some c -> isspace c = false) /\
  Forall inline_char out /\
  single_spaced out.
Proof.
  intros out. split; [by intros ->|].
  destruct (TextFacts.normalize_tidy html_unescape text language model)
    as (T & [Hok Hbare] & E).
  unfold out. rewrite E. clear E out.
  destruct (untok_shape T Hok) as (H1 & H2 & H4).
  split; [|done].
  intros c Hc. destruct T as [|[w d] T']; [done|].
  simpl in Hbare. subst w. apply Forall_cons in Hok as [[Hd _] _].
  rewrite TextFacts.untok_cons in Hc. simpl in Hc, Hd. congruence.
Qed.

End TextMore.


(** ** Further properties of the transcription task *)

Module TaskFacts.

Import Text Transcribe Notions.
Local Open Scope Q_scope.

Lemma bind_Ok_inv {A B} (m : M A) (f : A -> M B) b :
  (bind m f).1 = Ok b -> exists a, (f a).1 = Ok b.
Proof.
  unfold bind. destruct m as [[a|o|msg] evs]; [|done..].
  destruct (f a) as [r evs'] eqn:E. simpl. intros ->. exists a. by rewrite E.
Qed.

(** What [transcribe_task] demands of a result. *)
Definition well_formed (idx : nat) (seg : SpeechSeg) (r : SegmentResult)
  : Prop :=
  r_idx r = idx /\ r_start r = start seg /\ r_end r = end_ seg /\
  (if r_ok r then r_text r <> [] /\ r_error r = None
   else r_text r = [] /\ exists e, r_error r = Some e /\ e <> []).

Lemma failed_well_formed idx seg (prefix tail : pystr) code :
  prefix <> [] ->
  well_formed idx seg
    (mkResult false idx (start seg) (end_ seg) [] (Some (prefix ++ tail)) code).
Proof.
  intros Hp. repeat split. exists (prefix ++ tail). split; [done|].
  by destruct prefix.
Qed.

Lemma transcribe_body_well_formed html_unescape cfg env idx seg model language
    options res :
  (transcribe_body html_unescape cfg env idx seg model language options).1
    = Ok res ->
  well_formed idx seg res.
Proof.
  unfold transcribe_body. intros H.
  apply bind_Ok_inv in H as [[] H]. apply bind_Ok_inv in H as [r H].
  destruct r as [[[ok txt] err] code]. destruct ok.
  - destruct (negb (nonempty _)) eqn:E; injection H as <-.
    + apply (failed_well_formed idx seg (py "EMPTY_AFTER_NORMALIZE") []).
      by vm_compute.
    + repeat split. simpl. intros E'. by rewrite E' in E.
  - injection H as <-. destruct err as [|c err'].
    + apply (failed_well_formed idx seg (py "TRANSCRIBE_FAIL") []).
      by vm_compute.
    + repeat split. by exists (c :: err').
Qed.

(** X10: the result of a task is well formed, whatever the transcoder and
    the providers do: it carries the index and the bounds of its segment;
    an ok result has a text and no error; a failed one has no text and an
    error that is not empty. *)
Theorem transcribe_task_result html_unescape cfg env idx seg model language
    options :
  let r :=
    (transcribe_task html_unescape cfg env idx seg model language options).1 in
  r_idx r = idx /\ r_start r = start seg /\ r_end r = end_ seg /\
  (if r_ok r then r_text r <> [] /\ r_error r = None
   else r_text r = [] /\ exists e, r_error r = Some e /\ e <> []).
Proof.
  cbv zeta. change (well_formed idx seg
    (transcribe_task html_unescape cfg env idx seg model language options).1).
  unfold transcribe_task.
  destruct (cancel_requested_now env).
  { apply (failed_well_formed idx seg (py "CANCELLED") []). by vm_compute. }
  destruct (Vad.Qlt_bool (dur seg) 0.01).
  { apply (failed_well_formed idx seg (py "INVALID_SEGMENT_DURATION") []).
    by vm_compute. }
  pose proof (transcribe_body_well_formed html_unescape cfg env idx seg model
                language options) as Hbody.
  destruct (transcribe_body html_unescape cfg env idx seg model language
              options) as [[res|output|msg] evs]; cbn [fst snd].
  - by apply Hbody.
  - apply (failed_well_formed idx seg (py "FFMPEG_ERR: ")). by vm_compute.
  - apply (failed_well_formed idx seg (py "EXC: ")). by vm_compute.
Qed.

(** *** What a task does to the world *)

Lemma count_app {A} (f : A -> bool) l1 l2 :
  count f (l1 ++ l2) = (count f l1 + count f l2)%nat.
Proof. unfold count. by rewrite List.filter_app, length_app. Qed.

Lemma count_posts evs :
  count is_post evs = (count is_deepgram evs + count is_hf evs)%nat.
Proof. unfold count. induction evs as [|[] evs IH]; simpl; lia. Qed.

(** At most [c] cuts, [d] requests to the general provider and [h] to the
    Japanese one. *)
Definition within {A} (c d h : nat) (m : M A) : Prop :=
  (count is_cut m.2 <= c /\ count is_deepgram m.2 <= d /\
   count is_hf m.2 <= h)%nat.

Lemma within_bind {A B} c1 d1 h1 c2 d2 h2 (m : M A) (f : A -> M B) :
  within c1 d1 h1 m -> (forall a, within c2 d2 h2 (f a)) ->
  within (c1 + c2) (d1 + d2) (h1 + h2) (bind m f).
Proof.
  unfold within, bind. intros (C1 & D1 & H1) Hf.
  destruct m as [[a|o|msg] evs]; cbn [snd] in *; [|lia..].
  specialize (Hf a). destruct (f a) as [r evs']. cbn [snd] in *.
  rewrite !count_app. lia.
Qed.

Lemma within_weaken {A} c d h c' d' h' (m : M A) :
  within c d h m -> (c <= c')%nat -> (d <= d')%nat -> (h <= h')%nat ->
  within c' d' h' m.
Proof. unfold within. lia. Qed.

Ltac tally := unfold within, count; simpl; lia.

Lemma within_ret {A} (a : A) : within 0 0 0 (ret a).
Proof. tally. Qed.

Lemma extract_segment_wav_within env k a b :
  within 1 0 0 (extract_segment_wav env k a b).
Proof.
  unfold extract_segment_wav. destruct (Vad.Qlt_bool _ _).
  { tally. }
  unfold mbind, M_bind, bind, emit.
  destruct (ffmpeg_cut env k (a, b)); tally.
Qed.

Lemma transcribe_with_deepgram_within cfg env k audio model language options :
  within 0 1 0
    (transcribe_with_deepgram cfg env k audio model language options).
Proof.
  unfold transcribe_with_deepgram. destruct (negb _).
  { tally. }
  unfold mbind, M_bind, bind, emit.
  destruct (deepgram_post env k _) as [msg|status text [txt|]];
    [tally|..];
    destruct (negb (status =? 200)%N);
    try destruct (negb (nonempty (strip txt)));
    tally.
Qed.

Lemma transcribe_with_hf_within cfg env audio :
  within 0 0 1 (transcribe_with_hf cfg env audio).
Proof.
  unfold transcribe_with_hf. destruct (negb _).
  { tally. }
  unfold mbind, M_bind, bind, emit.
  destruct (hf_post env _) as [msg|status text [txt|]];
    [tally|..];
    destruct (negb (status =? 200)%N);
    try destruct (negb (nonempty (strip txt)));
    tally.
Qed.

Lemma transcribe_body_within html_unescape cfg env idx seg model language
    options :
  let body :=
    transcribe_body html_unescape cfg env idx seg model language options in
  if contains (py "kotoba") model then within 1 0 1 body
  else within 2 2 0 body.
Proof.
  cbv zeta. unfold transcribe_body.
  assert (forall r : reply,
    within 0 0 0
      (let '(ok, txt, err, code) := r in
       if ok then
         let txt :=
           normalize_transcript_text html_unescape txt language model in
         if negb (nonempty txt)
         then ret (mkResult false idx (start seg) (end_ seg) []
                     (Some (py "EMPTY_AFTER_NORMALIZE")) code)
         else ret (mkResult true idx (start seg) (end_ seg) txt None code)
       else
         ret (mkResult false idx (start seg) (end_ seg) []
                (Some (if nonempty err then err else py "TRANSCRIBE_FAIL"))
                code))) as Hfinal.
  { intros [[[[|] txt] err] code]; cbv beta iota zeta;
      [destruct (negb (nonempty (normalize_transcript_text _ _ _ _)))|];
      apply within_ret. }
  destruct (contains (py "kotoba") model).
  - apply (within_bind 1 0 0 0 0 1); [apply extract_segment_wav_within|].
    intros _. apply (within_bind 0 0 1 0 0 0);
      [apply transcribe_with_hf_within | exact Hfinal].
  - apply (within_bind 1 0 0 1 2 0); [apply extract_segment_wav_within|].
    intros _. apply (within_bind 1 2 0 0 0 0); [|exact Hfinal].
    apply (within_bind 0 1 0 1 1 0); [apply transcribe_with_deepgram_within|].
    intros [[[ok txt] err] code].
    destruct (_ && _);
      [|eapply within_weaken; [apply within_ret | lia..]].
    destruct (_empty_retry_window seg) as [retry_start retry_end].
    apply (within_bind 1 0 0 0 1 0); [apply extract_segment_wav_within|].
    intros _. apply transcribe_with_deepgram_within.
Qed.

(** X11: what a task does, whatever the transcoder and the providers
    answer. A cancelled task and a task on a segment shorter than 0.01
    seconds do nothing. Any other task ends by deleting its segment file;
    for a model of the Japanese provider it cuts at most once and posts at
    most once, to that provider only; for any other model it cuts at most
    twice and posts at most twice, to the general provider only. *)
Theorem transcribe_task_footprint html_unescape cfg env idx seg model language
    options :
  let evs :=
    (transcribe_task html_unescape cfg env idx seg model language options).2 in
  (cancel_requested_now env = true \/ dur seg < 0.01 -> evs = []) /\
  (cancel_requested_now env = false -> 0.01 <= dur seg ->
   last evs = Some EvUnlink) /\
  (count is_cut evs <= 2 /\ count is_post evs <= 2)%nat /\
  (if contains (py "kotoba") model
   then (count is_cut evs <= 1 /\ count is_hf evs <= 1)%nat /\
        count is_deepgram evs = O
   else count is_hf evs = O).
Proof.
  cbv zeta. unfold transcribe_task.
  destruct (cancel_requested_now env) eqn:Ec.
  { unfold count. simpl. split; [done|]. split; [done|].
    repeat split; auto. destruct (contains _ _); repeat split; lia. }
  destruct (Vad.Qlt_bool (dur seg) 0.01) eqn:Ed.
  { apply VadFacts.Qlt_bool_true in Ed.
    unfold count. simpl. split; [done|]. split; [intros _ H; lra|].
    repeat split; auto. destruct (contains _ _); repeat split; lia. }
  pose proof (transcribe_body_within html_unescape cfg env idx seg model
                language options) as Hbody.
  cbv zeta in Hbody.
  destruct (transcribe_body html_unescape cfg env idx seg model language
              options) as [r evs].
  cbn [snd]. unfold within in Hbody. cbn [snd] in Hbody.
  pose proof (count_posts evs) as Hposts.
  split.
  { intros [H|H]; [done|]. apply VadFacts.Qlt_bool_false in Ed. lra. }
  split; [intros _ _; apply last_snoc|].
  rewrite !count_app, Hposts.
  change (count is_cut [EvUnlink]) with O.
  change (count is_deepgram [EvUnlink]) with O.
  change (count is_hf [EvUnlink]) with O.
  change (count is_post [EvUnlink]) with O.
  destruct (contains (py "kotoba") model); lia.
Qed.

End TaskFacts.


(** ** The sample job *)

Module ExampleFacts.

Import Text Registry.

(** The record of the sample job, once queued. *)
Lemma queued_record :
  exists j,
    JOBS Examples.queued !! Examples.sample_id = Some j /\
    id j = Examples.sample_id /\ status j = Queued /\
    cancel_requested j = false /\ log_seq j = 1%nat /\
    length (logs j) = 1%nat /\ map log_seq_no (logs j) = [1%nat].
Proof.
  assert (JOBS Examples.queued !! Examples.sample_id <> None) as Hj
    by (by vm_compute).
  destruct (JOBS Examples.queued !! Examples.sample_id) as [j|] eqn:E;
    [|done].
  assert ((fun j => (id j, status j, cancel_requested j, log_seq j,
                     length (logs j), map log_seq_no (logs j)))
            <$> JOBS Examples.queued !! Examples.sample_id
          = Some (Examples.sample_id, Queued, false, 1%nat, 1%nat, [1%nat]))
    as Hv by (by vm_compute).
  rewrite E in Hv. injection Hv as H1 H2 H3 H4 H5 H6.
  exists j. repeat split; assumption.
Qed.

Lemma queued_lease_free : Examples.sample_id ∉ lock_files Examples.queued.
Proof. by vm_compute. Qed.

End ExampleFacts.


(** ** What a run leaves on the record *)

Module OutcomeFacts.

Import Text Registry Worker RegistryFacts WorkerFacts.
Local Open Scope Q_scope.

(** The record of the job is in the registry and satisfies [phi]. *)
Definition record (job_id : string) (phi : Job -> Prop) (w : World) : Prop :=
  exists j, JOBS w !! job_id = Some j /\ phi j.

(** [phi] does not look at the fields that a log line or a heartbeat
    changes. *)
Definition quiet_fields (cfg : Config.t) (phi : Job -> Prop) : Prop :=
  (forall j line a b c, phi j -> phi (logged cfg j line a b c)) /\
  (forall j a b,
     phi j -> phi (assign_to (assign_to j (LastHeartbeat a)) (UpdatedAt b))).

Section Record.

Variable wall : nat -> Q.
Variable cfg : Config.t.
Variable job_id : string.

Lemma record_update_job (phi psi : Job -> Prop) kwargs w :
  (forall j t,
     phi j -> psi (assign_to (fold_left assign_to kwargs j) (UpdatedAt t))) ->
  record job_id phi w -> record job_id psi (update_job wall job_id kwargs w).
Proof.
  intros Hk (j & Hj & Hphi).
  destruct (update_job_cases wall job_id kwargs w)
    as [[E _]|(j' & Hj' & ->)]; [congruence|].
  assert (j' = j) as -> by congruence.
  eexists. rewrite lookup_put. split; [done|]. by apply Hk.
Qed.

Lemma record_append_log phi message w :
  quiet_fields cfg phi ->
  record job_id phi w ->
  record job_id phi (append_log wall cfg job_id message w).
Proof.
  intros [Hq _] (j & Hj & Hphi).
  destruct (append_log_cases wall cfg job_id message w)
    as [->|(j' & Hj' & _ & ->)]; [by exists j|].
  assert (j' = j) as -> by congruence.
  eexists. rewrite lookup_put. split; [done|]. by apply Hq.
Qed.

Lemma record_touch_heartbeat phi w :
  quiet_fields cfg phi ->
  record job_id phi w -> record job_id phi (touch_heartbeat wall job_id w).
Proof.
  intros [_ Hq] (j & Hj & Hphi).
  destruct (touch_heartbeat_cases wall job_id w)
    as [[E _]|(j' & Hj' & ->)]; [congruence|].
  assert (j' = j) as -> by congruence.
  eexists. rewrite lookup_put. split; [done|]. by apply Hq.
Qed.

Lemma record_get_job phi w :
  record job_id phi w ->
  exists j, get_job job_id w = (Some j, w) /\ JOBS w !! job_id = Some j /\
            phi j.
Proof.
  intros (j & Hj & Hphi). exists j. by rewrite (get_job_present _ _ _ Hj).
Qed.

(** A cancel request, for a property that holds of a record whatever its
    [cancel_requested] and keeps holding when a queued job is cancelled. *)
Lemma record_api_cancel phi w :
  quiet_fields cfg phi ->
  (forall j t, phi j -> phi (assign_to (assign_to j (CancelRequested true))
                               (UpdatedAt t))) ->
  (forall j now t,
     phi j -> status j = Queued ->
     phi (assign_to
            (fold_left assign_to
               [Status Cancelled; UpdatedAt now; LastHeartbeat now;
                FinishedAt (Some now)] j) (UpdatedAt t))) ->
  record job_id phi w -> record job_id phi (api_cancel wall cfg job_id w).
Proof.
  intros Hq Hc Hs Hw. unfold api_cancel.
  destruct (record_get_job phi w Hw) as (j & -> & Hj & Hphi).
  destruct (is_terminal (status j)); [done|].
  set (w1 := update_job wall job_id [CancelRequested true] w).
  assert (record job_id phi w1) as H1.
  { apply (record_update_job phi); [|done]. intros j0 t. apply Hc. }
  set (w2 := append_log wall cfg job_id _ w1).
  assert (record job_id phi w2) as H2 by by apply record_append_log.
  destruct (record_get_job phi w2 H2) as (j2 & -> & Hj2 & Hphi2).
  destruct (status j2) eqn:E2; try done.
  rewrite set_status_eq.
  apply (record_update_job (fun j => phi j /\ status j = Queued)).
  - intros j0 t [H0 E0]. by apply Hs.
  - by exists j2.
Qed.

End Record.

(** The status is not [done] or [error]: the run is not over. *)
Definition open_status (j : Job) : Prop :=
  status j <> Done /\ status j <> Error.

(** What the record of a job says once the run is over. *)
Definition closed (j : Job) : Prop :=
  is_Some (finished_at j) /\
  match status j with
  | Done =>
    progress j = 100 /\ error j = None /\ is_Some (result_path j) /\
    is_Some (download_name j)
  | Error => is_Some (error j)
  | Cancelled => True
  | Queued | Running => False
  end.

Lemma open_status_quiet cfg : quiet_fields cfg open_status.
Proof. by split. Qed.

Lemma closed_quiet cfg : quiet_fields cfg closed.
Proof. by split. Qed.

Section Outcome.

Variable cfg : Config.t.
Variable o : Oracle.
Variable outputs_root : pystr.
Variable job_id : string.

Local Abbreviation working := (record job_id open_status).
Local Abbreviation over := (record job_id closed).

Lemma poll_cancel_working w :
  working w ->
  match poll_cancel cfg o job_id w with
  | (Next _, w') => working w'
  | _ => False
  end.
Proof.
  intros Hw. unfold poll_cancel, is_cancel_requested.
  set (w1 := if cancel_at o (clock w) then _ else w).
  assert (working w1) as H1.
  { unfold w1. destruct (cancel_at o (clock w)); [|done].
    apply record_api_cancel; [apply open_status_quiet|done| |done].
    by intros j now t _ _. }
  by destruct (record_get_job job_id _ w1 H1) as (j & -> & _ & _).
Qed.

Lemma set_status_cancelled_over w :
  working w -> over (set_status (wall o) job_id Cancelled w).
Proof.
  intros Hw. rewrite set_status_eq.
  apply (record_update_job _ _ open_status); [|done].
  intros j t _. split; simpl; eauto.
Qed.

Lemma set_error_over e w :
  working w -> over (set_error (wall o) job_id e w).
Proof.
  intros Hw. rewrite set_error_eq.
  apply (record_update_job _ _ open_status); [|done].
  intros j t _. split; simpl; eauto.
Qed.

Lemma set_result_over path name w :
  working w -> over (set_result (wall o) job_id path name w).
Proof.
  intros Hw. rewrite set_result_eq.
  apply (record_update_job _ _ open_status); [|done].
  intros j t _. split; simpl; eauto 6.
Qed.

Lemma try_statement_over p :
  triple working
    (try_except_finally (try_block cfg o outputs_root job_id p)
       (except_block cfg o job_id) (finally_block job_id))
    (fun _ => over) over (fun _ => False).
Proof.
  assert (forall m w, over w -> over (append_log (wall o) cfg job_id m w))
    as Hlog.
  { intros m w. apply record_append_log, closed_quiet. }
  assert (forall w, working w ->
            match poll_cancel cfg o job_id w with
            | (Next true, w') => working w'
            | (Next false, w') => working w'
            | _ => False
            end) as Hpoll.
  { intros w Hw. pose proof (poll_cancel_working w Hw) as H.
    by destruct (poll_cancel cfg o job_id w) as [[[]| |?] w']. }
  apply (triple_try _ working).
  - apply (try_block_spec cfg o outputs_root job_id working working over);
      try done.
    + intros m w. apply record_append_log, open_status_quiet.
    + intros w. apply record_touch_heartbeat with (cfg := cfg),
        open_status_quiet.
    + intros q w. by apply record_update_job.
    + intros w Hw. rewrite set_status_eq.
      apply (record_update_job _ _ open_status); [|done].
      by intros j t _.
    + intros m w. apply record_append_log, open_status_quiet.
    + apply set_status_cancelled_over.
    + apply set_result_over.
  - apply except_block_spec; [done|]. apply set_error_over.
  - done.
Qed.

End Outcome.

(** X12: a run for a job that is in the registry, not yet terminal, and
    whose lease is free does not raise; it leaves the record with a
    terminal status and a finishing time. A [done] record has progress
    100, no error, a result path and a download name; an [error] record
    has an error text. *)
Theorem process_job_outcome cfg o outputs_root job_id w j :
  JOBS w !! job_id = Some j -> is_terminal (status j) = false ->
  job_id ∉ lock_files w ->
  exists r w' j',
    process_job cfg o outputs_root job_id w = (r, w') /\
    (r = Next tt \/ r = Returned) /\
    JOBS w' !! job_id = Some j' /\
    is_Some (finished_at j') /\
    match status j' with
    | Done =>
      progress j' = 100 /\ error j' = None /\ is_Some (result_path j') /\
      is_Some (download_name j')
    | Error => is_Some (error j')
    | Cancelled => True
    | Queued | Running => False
    end.
Proof.
  intros Hj Hs Hfree.
  rewrite (process_job_unfold cfg o outputs_root job_id w j Hj Hfree).
  cbv zeta. set (w1 := with_lock_files _ w).
  assert (record job_id open_status w1) as H1.
  { exists j. split; [done|]. unfold open_status. by destruct (status j). }
  assert (forall r w',
            record job_id closed w' -> (r = Next tt \/ r = Returned) ->
            exists (r0 : flow unit) w0 j',
              (r, w') = (r0, w0) /\ (r0 = Next tt \/ r0 = Returned) /\
              JOBS w0 !! job_id = Some j' /\ is_Some (finished_at j') /\
              match status j' with
              | Done =>
                progress j' = 100 /\ error j' = None /\
                is_Some (result_path j') /\ is_Some (download_name j')
              | Error => is_Some (error j')
              | Cancelled => True
              | Queued | Running => False
              end) as Hend.
  { intros r w' (j' & Hj' & Hf & Hc) Hr. by exists r, w', j'. }
  destruct (path_exists o (file_path (payload j))).
  - pose proof (poll_cancel_working cfg o job_id w1 H1) as Hpoll.
    destruct (poll_cancel cfg o job_id w1) as [[c| |?] w2]; [|done..].
    destruct c.
    + apply Hend; [|auto].
      apply record_append_log; [apply closed_quiet|].
      by apply set_status_cancelled_over.
    + pose proof (try_statement_over cfg o outputs_root job_id (payload j)
                    w2 Hpoll) as Htry.
      destruct (try_except_finally _ _ _ w2) as [[[]| |?] w3]; [| |done].
      * apply Hend; auto.
      * apply Hend; auto.
  - apply Hend; [|auto].
    apply record_append_log; [apply closed_quiet|].
    by apply set_error_over.
Qed.

(** The queued job of the examples, with nothing going wrong. *)
Lemma process_job_outcome_witness :
  exists r w' j',
    process_job Config.default Examples.smooth Examples.outputs_root
      Examples.sample_id Examples.queued = (r, w') /\
    JOBS w' !! Examples.sample_id = Some j' /\
    is_Some (finished_at j').
Proof.
  destruct ExampleFacts.queued_record as (j & E & _ & Hs & _).
  pose proof (process_job_outcome Config.default Examples.smooth
                Examples.outputs_root Examples.sample_id Examples.queued j E
                ltac:(by rewrite Hs) ExampleFacts.queued_lease_free) as H.
  destruct H as (r & w' & j' & E1 & _ & E2 & E3 & _).
  exists r, w', j'. split; [exact E1|]. split; [exact E2|exact E3].
Defined.

End OutcomeFacts.


(** ** Properties that every record keeps *)

Module InvariantFacts.

Import Text Registry Worker Service RegistryFacts WorkerFacts.
Local Open Scope Q_scope.

(** [phi] holds of every record, in memory and on disk, under the id that
    it is filed under. *)
Definition all_records (phi : string -> Job -> Prop) (w : World) : Prop :=
  (forall job_id j, JOBS w !! job_id = Some j -> phi job_id j) /\
  (forall job_id j, meta_files w !! job_id = Some j -> phi job_id j).

(** The assignments that the operations on a record make, but for those of
    [append_log]: no assignment to [logs] or [log_seq], and a progress from
    0 to 100. *)
Definition fits (a : assign) : Prop :=
  match a with
  | Logs _ | LogSeq _ => False
  | Progress v => 0 <= v <= 100
  | _ => True
  end.

Lemma clamp_percent p : 0 <= Vad.clamp p 0 100 <= 100.
Proof. unfold Vad.clamp. SrtFacts.qlra. Qed.

Section Invariant.

Variable cfg : Config.t.
Variable phi : string -> Job -> Prop.

Hypothesis phi_assign :
  forall k j a, fits a -> phi k j -> phi k (assign_to j a).
Hypothesis phi_logged :
  forall k j line a b c, phi k j -> phi k (logged cfg j line a b c).

Variable wall : nat -> Q.
Variable job_id : string.

Lemma phi_fold k kwargs j :
  Forall fits kwargs -> phi k j -> phi k (fold_left assign_to kwargs j).
Proof.
  intros Hk. revert j. induction Hk as [|a rest Ha _ IH]; intros j Hj; [done|].
  simpl. auto.
Qed.

Lemma all_records_put j j' n w :
  all_records phi w -> phi job_id j' -> all_records phi (put job_id j j' n w).
Proof.
  intros [HJ HM] Hj'. split; [|exact HM].
  intros other r. destruct (decide (other = job_id)) as [->|Hne].
  - rewrite lookup_put. by intros [= <-].
  - rewrite lookup_put_ne by done. apply HJ.
Qed.

Lemma all_records_update_job kwargs w :
  Forall fits kwargs ->
  all_records phi w -> all_records phi (update_job wall job_id kwargs w).
Proof.
  intros Hk Hw.
  destruct (update_job_cases wall job_id kwargs w)
    as [[_ ->]|(j & Hj & ->)]; [done|].
  apply all_records_put; [done|].
  apply phi_assign; [done|]. apply phi_fold; [done|].
  by apply (proj1 Hw job_id).
Qed.

Lemma all_records_touch_heartbeat w :
  all_records phi w -> all_records phi (touch_heartbeat wall job_id w).
Proof.
  intros Hw.
  destruct (touch_heartbeat_cases wall job_id w)
    as [[_ ->]|(j & Hj & ->)]; [done|].
  apply all_records_put; [done|].
  do 2 (apply phi_assign; [done|]). by apply (proj1 Hw job_id).
Qed.

Lemma all_records_append_log message w :
  all_records phi w -> all_records phi (append_log wall cfg job_id message w).
Proof.
  intros Hw.
  destruct (append_log_cases wall cfg job_id message w)
    as [->|(j & Hj & _ & ->)]; [done|].
  apply all_records_put; [done|]. apply phi_logged.
  by apply (proj1 Hw job_id).
Qed.

Lemma all_records_set_status s w :
  all_records phi w -> all_records phi (set_status wall job_id s w).
Proof.
  intros Hw. rewrite set_status_eq.
  apply all_records_update_job; [|done].
  destruct s; by repeat constructor.
Qed.

Lemma all_records_set_progress p w :
  all_records phi w -> all_records phi (set_progress wall job_id p w).
Proof.
  intros Hw. apply all_records_update_job; [|done].
  constructor; [apply clamp_percent | constructor].
Qed.

Lemma all_records_set_error msg w :
  all_records phi w -> all_records phi (set_error wall job_id msg w).
Proof.
  intros Hw. rewrite set_error_eq.
  apply all_records_update_job; [by repeat constructor|done].
Qed.

Lemma all_records_set_result path download w :
  all_records phi w ->
  all_records phi (set_result wall job_id path download w).
Proof.
  intros Hw. rewrite set_result_eq.
  apply all_records_update_job; [|done].
  repeat constructor; simpl; lra.
Qed.

Lemma all_records_mark_downloaded w :
  all_records phi w -> all_records phi (mark_downloaded wall job_id w).
Proof.
  intros Hw. rewrite mark_downloaded_eq.
  apply all_records_update_job; [by repeat constructor|done].
Qed.

Lemma all_records_get_job w :
  all_records phi w -> all_records phi (get_job job_id w).2.
Proof.
  intros Hw.
  destruct (get_job_cases job_id w)
    as [(j & _ & ->)|[(_ & j & Hj & ->)|(_ & ->)]]; [done| |done].
  destruct Hw as [HJ HM]. split; [|exact HM].
  intros other r. simpl.
  destruct (decide (other = job_id)) as [->|Hne].
  - rewrite lookup_insert_eq. intros [= <-]. by apply (HM job_id).
  - rewrite lookup_insert_ne by done. apply HJ.
Qed.

Lemma all_records_api_cancel w :
  all_records phi w -> all_records phi (api_cancel wall cfg job_id w).
Proof.
  intros Hw. unfold api_cancel.
  pose proof (all_records_get_job w Hw) as H1.
  destruct (get_job job_id w) as [[j|] w1]; simpl in H1; [|done].
  destruct (is_terminal (status j)); [done|].
  set (w2 := append_log _ _ _ _ _).
  assert (all_records phi w2) as H2.
  { apply all_records_append_log.
    apply all_records_update_job; [by repeat constructor|done]. }
  pose proof (all_records_get_job w2 H2) as H3.
  destruct (get_job job_id w2) as [[j2|] w3]; simpl in H3; [|done].
  destruct (status j2); try done. by apply all_records_set_status.
Qed.

Lemma all_records_init_job p w :
  (forall now, phi job_id (mkJob job_id Queued 0 now now None None now p [] O
                             None None None None false)) ->
  all_records phi w -> all_records phi (init_job wall job_id p w).
Proof.
  intros Hfresh [HJ HM]. split; [|exact HM].
  intros other r. unfold init_job. simpl.
  destruct (decide (other = job_id)) as [->|Hne].
  - rewrite lookup_insert_eq. intros [= <-]. apply Hfresh.
  - rewrite lookup_insert_ne by done. apply HJ.
Qed.

Lemma all_records_api_status since w :
  all_records phi w -> all_records phi (api_status job_id since w).2.
Proof.
  intros Hw. unfold api_status.
  pose proof (all_records_get_job w Hw) as H1.
  by destruct (get_job job_id w) as [[j|] w1].
Qed.

End Invariant.

Section InvariantRun.

Variable cfg : Config.t.
Variable phi : string -> Job -> Prop.

Hypothesis phi_assign :
  forall k j a, fits a -> phi k j -> phi k (assign_to j a).
Hypothesis phi_logged :
  forall k j line a b c, phi k j -> phi k (logged cfg j line a b c).

Variable o : Oracle.
Variable outputs_root : pystr.
Variable job_id : string.

Lemma all_records_poll_cancel w :
  all_records phi w ->
  match poll_cancel cfg o job_id w with
  | (Next _, w') => all_records phi w'
  | _ => False
  end.
Proof.
  intros Hw. unfold poll_cancel, is_cancel_requested.
  set (w1 := if cancel_at o (clock w) then _ else w).
  assert (all_records phi w1) as H1.
  { unfold w1. destruct (cancel_at o (clock w)); [|done].
    by apply all_records_api_cancel. }
  pose proof (all_records_get_job phi job_id w1 H1) as H2.
  by destruct (get_job job_id w1) as [j w2].
Qed.

Lemma all_records_worker_turn w :
  all_records phi w ->
  all_records phi (worker_turn cfg o outputs_root job_id w).
Proof.
  apply (worker_turn_spec cfg o outputs_root job_id
           (all_records phi) (all_records phi) (all_records phi));
    auto using all_records_append_log, all_records_touch_heartbeat,
      all_records_set_progress, all_records_set_status,
      all_records_set_error, all_records_set_result, all_records_get_job.
  - intros w' Hw'. pose proof (all_records_poll_cancel w' Hw') as H.
    by destruct (poll_cancel cfg o job_id w') as [[[]| |?] w2].
  - intros w' Hw'. pose proof (all_records_poll_cancel w' Hw') as H.
    by destruct (poll_cancel cfg o job_id w') as [[[]| |?] w2].
Qed.

Lemma all_records_api_download w :
  all_records phi w -> all_records phi (api_download o job_id w).
Proof.
  intros Hw. unfold api_download.
  pose proof (all_records_get_job phi job_id w Hw) as H1.
  destruct (get_job job_id w) as [[j|] w1]; simpl in H1; [|done].
  destruct (status j); try done.
  destruct (path_exists o _); [|done].
  by apply all_records_mark_downloaded.
Qed.

End InvariantRun.

End InvariantFacts.


(** ** The log of a job *)

Module LogFacts.

Import Text Registry Worker Service RegistryFacts WorkerFacts.
Import InvariantFacts.
Local Open Scope Q_scope.

(** The log of a record holds at most [LOG_MAX_LINES] lines, numbered one
    by one up to [log_seq]. *)
Definition numbered (cfg : Config.t) (j : Job) : Prop :=
  (length (logs j) <= Config.LOG_MAX_LINES cfg)%nat /\
  (length (logs j) <= log_seq j)%nat /\
  map log_seq_no (logs j) =
    seq (S (log_seq j - length (logs j))) (length (logs j)).

(** The same of every record, in memory and on disk. *)
Definition logs_numbered (cfg : Config.t) (w : World) : Prop :=
  (forall job_id j, JOBS w !! job_id = Some j -> numbered cfg j) /\
  (forall job_id j, meta_files w !! job_id = Some j -> numbered cfg j).

Lemma numbered_last_n n (l : list LogEntry) top :
  (length l <= top)%nat ->
  map log_seq_no l = seq (S (top - length l)) (length l) ->
  map log_seq_no (last_n n l) =
    seq (S (top - length (last_n n l))) (length (last_n n l)) /\
  length (last_n n l) = Nat.min n (length l).
Proof.
  intros Hle Hmap. unfold last_n.
  assert (length (skipn (length l - n) l) = Nat.min n (length l)) as Hlen
    by (rewrite length_skipn; lia).
  split; [|done]. rewrite Hlen.
  rewrite <- (skipn_map log_seq_no), Hmap, skipn_seq.
  f_equal; lia.
Qed.

Lemma numbered_logged cfg j line a b c :
  (1 <= Config.LOG_MAX_LINES cfg)%nat ->
  numbered cfg j -> numbered cfg (logged cfg j line a b c).
Proof.
  intros Hmax (Hlen & Hseq & Hmap). unfold numbered, logged.
  cbn [fold_left assign_to logs log_seq].
  set (l1 := logs j ++ [mkLog (S (log_seq j)) a line]).
  assert (length l1 = S (length (logs j))) as Hl1
    by (unfold l1; rewrite length_app; simpl; lia).
  assert (map log_seq_no l1 = seq (S (S (log_seq j) - length l1)) (length l1))
    as Hmap1.
  { rewrite Hl1. unfold l1. rewrite map_app, Hmap, seq_S. simpl.
    replace (log_seq j - length (logs j) + length (logs j))%nat
      with (log_seq j) by lia.
    do 2 f_equal. }
  destruct (Nat.ltb_spec (Config.LOG_MAX_LINES cfg) (length l1)) as [Hcut|Hfit].
  - destruct (numbered_last_n (Config.LOG_MAX_LINES cfg) l1
                (S (log_seq j))) as [Hm Hn]; [lia|done|].
    split; [lia|]. split; [lia|]. done.
  - split; [lia|]. split; [lia|]. done.
Qed.

Lemma numbered_assign cfg j a :
  fits a -> numbered cfg j -> numbered cfg (assign_to j a).
Proof. by destruct a. Qed.

(** X13: whatever happens to it, the log of every record, in memory and on
    disk, holds at most [LOG_MAX_LINES] lines, numbered one by one up to the
    record's [log_seq]: a turn of the worker, a cancel request, a download,
    a status poll, a new job and a log line all keep it so. *)
Theorem logs_stay_numbered cfg o outputs_root job_id w :
  (1 <= Config.LOG_MAX_LINES cfg)%nat ->
  logs_numbered cfg w ->
  logs_numbered cfg (worker_turn cfg o outputs_root job_id w) /\
  logs_numbered cfg (api_cancel (wall o) cfg job_id w) /\
  logs_numbered cfg (api_download o job_id w) /\
  (forall since, logs_numbered cfg (api_status job_id since w).2) /\
  (forall p, logs_numbered cfg (init_job (wall o) job_id p w)) /\
  (forall message,
     logs_numbered cfg (append_log (wall o) cfg job_id message w)).
Proof.
  intros Hmax Hw.
  assert (forall (k : string) j a,
            fits a -> numbered cfg j -> numbered cfg (assign_to j a)) as Ha.
  { intros k. apply numbered_assign. }
  assert (forall (k : string) j line a b c,
            numbered cfg j -> numbered cfg (logged cfg j line a b c)) as Hl.
  { intros. by apply numbered_logged. }
  change (all_records (fun _ => numbered cfg) w) in Hw.
  split; [by apply all_records_worker_turn|].
  split; [by apply all_records_api_cancel|].
  split; [by apply all_records_api_download|].
  split; [intros since; by apply all_records_api_status|].
  split.
  - intros p. apply all_records_init_job; [|done].
    intros now. split; [simpl; lia|]. by split.
  - intros message. by apply all_records_append_log.
Qed.

(** A new job is queued and worked on to the end. *)
Lemma logs_stay_numbered_witness :
  logs_numbered Config.default
    (worker_turn Config.default Examples.smooth Examples.outputs_root
       Examples.sample_id Examples.queued).
Proof.
  assert (1 <= Config.LOG_MAX_LINES Config.default)%nat as Hmax
    by (simpl; lia).
  assert (logs_numbered Config.default (mkWorld ∅ ∅ ∅ ∅ ∅ ∅ O [])) as H0.
  { split; intros k j; simpl; by rewrite lookup_empty. }
  pose proof (logs_stay_numbered Config.default Examples.smooth
                Examples.outputs_root Examples.sample_id _ Hmax H0)
    as (_ & _ & _ & _ & H1 & _).
  pose proof (logs_stay_numbered Config.default Examples.smooth
                Examples.outputs_root Examples.sample_id _ Hmax
                (H1 Examples.upload))
    as (_ & _ & _ & _ & _ & H2).
  exact (proj1 (logs_stay_numbered Config.default Examples.smooth
                  Examples.outputs_root Examples.sample_id _ Hmax
                  (H2 (py "📦 文件上传完成，任务已入队")))).
Defined.

(** *** Status polls *)

(** The lines of a numbered log that a poll selects. *)
Lemma filter_numbered since (l : list LogEntry) a :
  map log_seq_no l = seq a (length l) ->
  exists old,
    l = old ++ List.filter (fun x => (since <? Z.of_nat (log_seq_no x))%Z) l /\
    Forall (fun x => (Z.of_nat (log_seq_no x) <= since)%Z) old /\
    Forall (fun x => (since < Z.of_nat (log_seq_no x))%Z)
      (List.filter (fun x => (since <? Z.of_nat (log_seq_no x))%Z) l) /\
    Z.of_nat
      (length (List.filter (fun x => (since <? Z.of_nat (log_seq_no x))%Z) l))
    = Z.max 0 (Z.min (Z.of_nat (length l))
                 (Z.of_nat a + Z.of_nat (length l) - 1 - since)).
Proof.
  revert a. induction l as [|x l IH]; intros a Hmap.
  { exists []. simpl. repeat split; try constructor. lia. }
  simpl in Hmap. injection Hmap as Hx Hrest.
  destruct (IH (S a) Hrest) as (old & Hsplit & Hold & Hnew & Hlen).
  simpl List.filter. rewrite Hx.
  destruct (Z.ltb_spec since (Z.of_nat a)) as [Hlt|Hge].
  - exists []. simpl.
    assert (List.filter (fun x => (since <? Z.of_nat (log_seq_no x))%Z) l = l)
      as Hall.
    { destruct old as [|y old']; [simpl in Hsplit; congruence|].
      apply Forall_cons in Hold as [Hy _].
      assert (In (log_seq_no y) (seq (S a) (length l))) as Hin.
      { rewrite <- Hrest, Hsplit. apply in_map. by left. }
      apply in_seq in Hin. lia. }
    rewrite Hall in *. repeat split; [constructor| |simpl length; lia].
    constructor; [lia|done].
  - exists (x :: old). simpl. split; [by f_equal|].
    split; [constructor; [lia|done]|]. split; [done|].
    rewrite Hlen. simpl length. lia.
Qed.

(** The answer to a poll of a job that is in the registry. *)
Lemma api_status_reply job_id since w j :
  JOBS w !! job_id = Some j ->
  exists r,
    api_status job_id since w = (Some r, w) /\
    new_logs r =
      List.filter (fun x => (since <? Z.of_nat (log_seq_no x))%Z) (logs j) /\
    next_since r =
      match last (logs j) with
      | Some x => Z.of_nat (log_seq_no x)
      | None => since
      end.
Proof.
  intros Hj. unfold api_status. rewrite (get_job_present _ _ _ Hj).
  by eexists.
Qed.

(** The last line of a numbered log has the number [log_seq]. *)
Lemma numbered_last cfg j :
  numbered cfg j -> logs j <> [] ->
  log_seq_no <$> last (logs j) = Some (log_seq j).
Proof.
  intros (Hmax & Hle & Hmap) Hne.
  destruct (logs j) as [|x l] eqn:El using rev_ind; [done|].
  rewrite last_snoc. simpl. f_equal.
  rewrite map_app, length_app, seq_app in Hmap. simpl in Hmap.
  apply app_inj_tail in Hmap as [_ Hx].
  rewrite length_app in Hle. simpl in Hle. lia.
Qed.

(** X14: a status poll of a job whose log is numbered answers with the end
    of the log: the lines kept back all have numbers up to [since], the
    lines sent all have higher numbers, and their count is the smaller of
    the length of the log and [log_seq - since] (or 0). Unless the log is
    empty, [next_since] is the record's [log_seq]. The poll changes
    nothing. *)
Theorem api_status_new_lines cfg job_id since w j :
  JOBS w !! job_id = Some j -> numbered cfg j ->
  exists r old,
    api_status job_id since w = (Some r, w) /\
    logs j = old ++ new_logs r /\
    Forall (fun x => (Z.of_nat (log_seq_no x) <= since)%Z) old /\
    Forall (fun x => (since < Z.of_nat (log_seq_no x))%Z) (new_logs r) /\
    Z.of_nat (length (new_logs r)) =
      Z.max 0 (Z.min (Z.of_nat (length (logs j)))
                 (Z.of_nat (log_seq j) - since)) /\
    (logs j <> [] -> next_since r = Z.of_nat (log_seq j)).
Proof.
  intros Hj Hnum. pose proof Hnum as (Hmax & Hle & Hmap).
  destruct (filter_numbered since (logs j) _ Hmap)
    as (old & Hsplit & Hold & Hnew & Hlen).
  destruct (api_status_reply job_id since w j Hj) as (r & E & Hr & Hnext).
  exists r, old. rewrite Hr. split; [done|].
  split; [done|]. split; [done|]. split; [done|]. split; [lia|].
  intros Hne. rewrite Hnext.
  pose proof (numbered_last cfg j Hnum Hne) as Hlast.
  destruct (last (logs j)) as [x|]; [|done].
  injection Hlast as ->. done.
Qed.

(** The queued job of the examples, polled from the start. *)
Lemma api_status_new_lines_witness :
  exists r,
    api_status Examples.sample_id 0 Examples.queued = (Some r, Examples.queued)
    /\ length (new_logs r) = 1%nat /\ next_since r = 1%Z.
Proof.
  destruct ExampleFacts.queued_record as (j & E & _ & _ & _ & Hs & Hn & Hm).
  assert (numbered Config.default j) as Hnum.
  { unfold numbered. rewrite Hn, Hs. simpl. split; [lia|]. split; [lia|].
    exact Hm. }
  pose proof (api_status_new_lines Config.default Examples.sample_id 0
                Examples.queued j E Hnum) as H.
  destruct H as (r & old & E1 & _ & _ & _ & Hlen & Hnext).
  exists r. split; [exact E1|]. rewrite Hn, Hs in Hlen. split; [lia|].
  rewrite Hs in Hnext. apply Hnext. intros El. rewrite El in Hn.
  discriminate Hn.
Defined.

(** *** Polls between log lines *)

Lemma append_log_line wall cfg job_id message w j :
  JOBS w !! job_id = Some j -> nonempty (log_line message) = true ->
  append_log wall cfg job_id message w =
  put job_id j
    (logged cfg j (log_line message) (wall (clock w)) (wall (S (clock w)))
       (wall (S (S (clock w)))))
    (S (S (S (clock w)))) w.
Proof.
  intros Hj Hne. unfold append_log. fold (log_line message).
  by rewrite Hne, Hj.
Qed.

Lemma append_log_blank wall cfg job_id message w :
  nonempty (log_line message) = false ->
  append_log wall cfg job_id message w = w.
Proof.
  intros Hne. unfold append_log. fold (log_line message). by rewrite Hne.
Qed.

(** The numbers of a numbered log are at most [log_seq]. *)
Lemma numbered_le cfg j :
  numbered cfg j ->
  Forall (fun x => (log_seq_no x <= log_seq j)%nat) (logs j).
Proof.
  intros (_ & Hle & Hmap). apply List.Forall_forall. intros x Hx.
  apply (in_map log_seq_no) in Hx. rewrite Hmap in Hx.
  apply in_seq in Hx. lia.
Qed.

(** The record after the log lines [messages]. *)
Lemma appends_shape wall cfg job_id messages :
  (1 <= Config.LOG_MAX_LINES cfg)%nat ->
  forall w j,
    JOBS w !! job_id = Some j -> numbered cfg j ->
    exists j' entries dropped,
      JOBS (fold_left (fun w m => append_log wall cfg job_id m w) messages w)
        !! job_id = Some j' /\
      numbered cfg j' /\
      log_seq j' = (log_seq j + length entries)%nat /\
      map log_msg entries = List.filter nonempty (map log_line messages) /\
      map log_seq_no entries = seq (S (log_seq j)) (length entries) /\
      logs j ++ entries = dropped ++ logs j' /\
      length (logs j') =
        Nat.min (Config.LOG_MAX_LINES cfg) (length (logs j) + length entries).
Proof.
  intros Hmax. induction messages as [|m rest IH]; intros w j Hj Hnum.
  { exists j, [], []. simpl. rewrite app_nil_r.
    pose proof Hnum as (H1 & _).
    split; [done|]. split; [done|]. repeat split; auto; lia. }
  simpl fold_left. simpl map. simpl List.filter.
  destruct (nonempty (log_line m)) eqn:Hne.
  - rewrite (append_log_line wall cfg job_id m w j Hj Hne).
    set (j1 := logged cfg j (log_line m) _ _ _).
    set (w1 := put job_id j j1 _ w).
    assert (JOBS w1 !! job_id = Some j1) as Hj1 by apply lookup_put.
    assert (numbered cfg j1) as Hnum1 by by apply numbered_logged.
    destruct (IH w1 j1 Hj1 Hnum1)
      as (j' & entries & dropped & Hj' & Hnum' & Hseq & Hmsg & Hno & Happ
          & Hlen).
    set (e := mkLog (S (log_seq j)) (wall (clock w)) (log_line m)) in *.
    assert (log_seq j1 = S (log_seq j)) as Hs1 by done.
    assert (exists cut, logs j ++ [e] = cut ++ logs j1 /\
              length (logs j1) =
              Nat.min (Config.LOG_MAX_LINES cfg) (S (length (logs j))))
      as (cut & Hcut & Hlen1).
    { unfold j1, logged. cbn [fold_left assign_to logs]. fold e.
      assert (length (logs j ++ [e]) = S (length (logs j))) as Hl
        by (rewrite length_app; simpl; lia).
      destruct (Nat.ltb_spec (Config.LOG_MAX_LINES cfg)
                  (length (logs j ++ [e]))).
      - eexists. split; [symmetry; apply firstn_skipn|].
        unfold last_n. rewrite length_skipn. lia.
      - exists []. split; [done|]. lia. }
    exists j', (e :: entries), (cut ++ dropped).
    split; [done|]. split; [done|]. simpl length.
    split; [lia|]. split; [simpl; by f_equal|].
    split; [simpl; f_equal; by rewrite <- Hs1|].
    split.
    + rewrite <- app_assoc, <- Happ, (app_assoc cut), <- Hcut.
      by rewrite <- app_assoc.
    + rewrite Hlen, Hlen1. lia.
  - rewrite (append_log_blank wall cfg job_id m w Hne). by apply IH.
Qed.

(** X15: a client that has seen the log up to [log_seq] and polls again
    after further calls of [append_log] is sent exactly the lines written in
    between, in order and numbered on from [log_seq + 1], provided they are
    at most [LOG_MAX_LINES]; blank messages leave no line. [next_since]
    moves on by their number. *)
Theorem api_status_incremental wall cfg job_id messages w j :
  (1 <= Config.LOG_MAX_LINES cfg)%nat ->
  JOBS w !! job_id = Some j -> numbered cfg j ->
  let lines := List.filter nonempty (map log_line messages) in
  (length lines <= Config.LOG_MAX_LINES cfg)%nat ->
  let w' :=
    fold_left (fun w m => append_log wall cfg job_id m w) messages w in
  exists r,
    api_status job_id (Z.of_nat (log_seq j)) w' = (Some r, w') /\
    map log_msg (new_logs r) = lines /\
    map log_seq_no (new_logs r) = seq (S (log_seq j)) (length lines) /\
    next_since r = Z.of_nat (log_seq j + length lines).
Proof.
  intros Hmax Hj Hnum lines Hfew w'.
  destruct (appends_shape wall cfg job_id messages Hmax w j Hj Hnum)
    as (j' & entries & dropped & Hj' & Hnum' & Hseq & Hmsg & Hno & Happ
        & Hlen).
  fold w' in Hj'. fold lines in Hmsg.
  assert (length entries = length lines) as Hk
    by (by rewrite <- Hmsg, length_map).
  assert (exists r old,
            api_status job_id (Z.of_nat (log_seq j)) w' = (Some r, w') /\
            logs j' = old ++ new_logs r /\
            Forall (fun x => (Z.of_nat (log_seq_no x)
                              <= Z.of_nat (log_seq j))%Z) old /\
            Forall (fun x => (Z.of_nat (log_seq j)
                              < Z.of_nat (log_seq_no x))%Z) (new_logs r) /\
            (logs j' <> [] -> next_since r = Z.of_nat (log_seq j')))
    as (r & old & E & Hsplit & Hold & Hnew & Hnext).
  { destruct (filter_numbered (Z.of_nat (log_seq j)) (logs j') _
                (proj2 (proj2 Hnum')))
      as (old & Hsplit & Hold & Hnew & _).
    destruct (api_status_reply job_id (Z.of_nat (log_seq j)) w' j' Hj')
      as (r & E & Hr & Hnext).
    exists r, old. rewrite Hr. split; [done|]. split; [done|].
    split; [done|]. split; [done|].
    intros Hne. rewrite Hnext.
    pose proof (numbered_last cfg j' Hnum' Hne) as Hlast.
    destruct (last (logs j')) as [x|]; [|done].
    injection Hlast as ->. done. }
  exists r. split; [done|].
  set (above := fun x : LogEntry =>
                  (Z.of_nat (log_seq j) <? Z.of_nat (log_seq_no x))%Z).
  assert (forall l, Forall (fun x => (log_seq_no x <= log_seq j)%nat) l ->
            List.filter above l = []) as Hbelow.
  { intros l Hl. induction Hl as [|x l Hx _ IHl]; [done|]. simpl.
    unfold above at 1. destruct (Z.ltb_spec (Z.of_nat (log_seq j))
                                   (Z.of_nat (log_seq_no x))); [lia|done]. }
  assert (forall l, Forall (fun x => (log_seq j < log_seq_no x)%nat) l ->
            List.filter above l = l) as Habove.
  { intros l Hl. induction Hl as [|x l Hx _ IHl]; [done|]. simpl.
    unfold above at 1. destruct (Z.ltb_spec (Z.of_nat (log_seq j))
                                   (Z.of_nat (log_seq_no x))); [|lia].
    by f_equal. }
  assert (Forall (fun x => (log_seq j < log_seq_no x)%nat) entries) as Hent.
  { apply List.Forall_forall. intros x Hx. apply (in_map log_seq_no) in Hx.
    rewrite Hno in Hx. apply in_seq in Hx. lia. }
  assert (List.filter above dropped = []) as Hdrop.
  { apply Hbelow.
    assert (length dropped <= length (logs j))%nat as Hshort.
    { apply (f_equal length) in Happ. rewrite !length_app in Happ.
      destruct Hnum as (Hl & _). lia. }
    assert (dropped = firstn (length dropped) (logs j)) as ->.
    { apply (f_equal (firstn (length dropped))) in Happ.
      rewrite firstn_app in Happ.
      replace (length dropped - length (logs j))%nat with O in Happ by lia.
      rewrite firstn_O, app_nil_r in Happ. rewrite Happ.
      rewrite firstn_app, firstn_all, Nat.sub_diag, firstn_O.
      by rewrite app_nil_r. }
    apply Forall_take. by eapply numbered_le. }
  assert (new_logs r = entries) as Hr.
  { apply (f_equal (List.filter above)) in Happ.
    rewrite !List.filter_app in Happ.
    rewrite (Hbelow (logs j)) in Happ by by eapply numbered_le.
    rewrite (Habove entries Hent), Hdrop in Happ. simpl in Happ.
    rewrite Hsplit, List.filter_app in Happ.
    rewrite (Hbelow old) in Happ.
    - simpl in Happ. rewrite (Habove (new_logs r)) in Happ; [done|].
      eapply Forall_impl; [exact Hnew|]. simpl. lia.
    - eapply Forall_impl; [exact Hold|]. simpl. lia. }
  rewrite Hr. split; [done|]. split; [by rewrite <- Hk|].
  destruct (logs j') as [|x l] eqn:El.
  - assert (entries = []) as He.
    { rewrite <- Hr. destruct (new_logs r); [done|].
      by destruct old. }
    rewrite He in *. simpl in Hk. rewrite <- Hk, Nat.add_0_r.
    revert E. unfold api_status. rewrite (get_job_present _ _ _ Hj'), El.
    by intros [= <-].
  - rewrite Hnext by done. rewrite Hseq, Hk. done.
Qed.

(** Two lines and a blank message after the job was queued. *)
Lemma api_status_incremental_witness :
  exists r,
    let w' :=
      fold_left
        (fun w m =>
           append_log (wall Examples.smooth) Config.default Examples.sample_id
             m w)
        [py "one"; py " "; py "two"] Examples.queued in
    api_status Examples.sample_id 1 w' = (Some r, w') /\
    map log_msg (new_logs r) = [py "one"; py "two"] /\
    next_since r = 3%Z.
Proof.
  destruct ExampleFacts.queued_record as (j & E & _ & _ & _ & Hs & Hn & Hm).
  assert (numbered Config.default j) as Hnum.
  { unfold numbered. rewrite Hn, Hs. simpl. split; [lia|]. split; [lia|].
    exact Hm. }
  assert (List.filter nonempty
            (map log_line [py "one"; py " "; py "two"])
          = [py "one"; py "two"]) as Hl by (by vm_compute).
  assert (1 <= Config.LOG_MAX_LINES Config.default)%nat as Hmax
    by (simpl; lia).
  pose proof (api_status_incremental (wall Examples.smooth) Config.default
                Examples.sample_id [py "one"; py " "; py "two"]
                Examples.queued j Hmax E Hnum) as H.
  cbv zeta in H. rewrite Hl, Hs in H.
  destruct (H ltac:(simpl; lia)) as (r & E1 & E2 & _ & E3).
  exists r. split; [exact E1|]. split; [exact E2|exact E3].
Defined.

End LogFacts.


(** ** Persistence *)

Module PersistenceFacts.

Import Text Registry Persistence RegistryFacts.

(** Every record is filed under its own id, which is not empty. *)
Definition keyed (w : World) : Prop :=
  (forall k j, JOBS w !! k = Some j -> id j = k /\ k <> "") /\
  (forall k j, meta_files w !! k = Some j -> id j = k /\ k <> "").

Section Flush.

Variable META_LOG_MAX_LINES : nat.
Variable write_fails : string -> bool.

Local Abbreviation snapshot := (_snapshot_for_meta META_LOG_MAX_LINES).
Local Abbreviation step := (flush_step META_LOG_MAX_LINES write_fails).

Lemma snapshot_id j : id (snapshot j) = id j.
Proof. unfold _snapshot_for_meta. by destruct (_ <? _)%nat. Qed.

Lemma keyed_load w jid j :
  keyed w -> meta_files w !! jid = Some j ->
  keyed (with_JOBS (<[jid := j]> (JOBS w)) w).
Proof.
  intros [KJ KM] Hj. split; [|done]. intros k j'. simpl.
  intros [[<- <-]|[_ H]]%lookup_insert_Some; [by apply KM|by apply KJ].
Qed.

Lemma keyed_save w k s :
  keyed w -> id s = k -> k <> "" ->
  keyed (with_meta_files (<[k := s]> (meta_files w)) w).
Proof.
  intros [KJ KM] Hid Hne. split; [done|]. intros k' j'. simpl.
  intros [[<- <-]|[_ H]]%lookup_insert_Some; [done|by apply KM].
Qed.

(** Saving the snapshot of the record [j] of [jid]. *)
Lemma save_snapshot w jid j n :
  keyed w -> id j = jid -> jid <> "" ->
  exists n' w',
    match save_meta write_fails (snapshot j) w with
    | Some w1 => (S n, w1)
    | None => (n, w)
    end = (n', w') /\
    keyed w' /\ META_DIRTY w' = META_DIRTY w /\ JOBS w' = JOBS w /\
    (n <= n' <= S n)%nat /\
    (forall k, k <> jid -> meta_files w' !! k = meta_files w !! k) /\
    (if write_fails jid
     then meta_files w' !! jid = meta_files w !! jid /\ n' = n
     else meta_files w' !! jid = Some (snapshot j) /\ n' = S n).
Proof.
  intros Hk Hid Hne. unfold save_meta. rewrite snapshot_id, Hid.
  rewrite (proj2 (String.eqb_neq jid "") Hne).
  destruct (write_fails jid) eqn:Hw.
  - exists n, w. split; [done|]. split; [done|]. split; [done|].
    split; [done|]. split; [lia|]. by split.
  - eexists _, _. split; [done|].
    split; [apply keyed_save; [done|by rewrite snapshot_id|done]|].
    split; [done|]. split; [done|]. split; [lia|]. simpl.
    split; [intros k Hk'; by rewrite lookup_insert_ne|].
    by rewrite lookup_insert_eq.
Qed.

(** What one step does. *)
Lemma flush_step_cases n w jid :
  keyed w ->
  exists n' w',
    step (n, w) jid = (n', w') /\ keyed w' /\
    META_DIRTY w' = META_DIRTY w /\ (n <= n' <= S n)%nat /\
    (forall k, k <> jid -> meta_files w' !! k = meta_files w !! k) /\
    (forall k j, JOBS w !! k = Some j -> JOBS w' !! k = Some j) /\
    (forall j, JOBS w !! jid = Some j ->
       if write_fails jid
       then meta_files w' !! jid = meta_files w !! jid /\ n' = n
       else meta_files w' !! jid = Some (snapshot j) /\ n' = S n).
Proof.
  intros Hk. pose proof Hk as [KJ KM]. unfold flush_step.
  destruct (get_job_cases jid w)
    as [(j & Hj & ->)|[(Hn & j & Hj & ->)|(Hn & ->)]].
  - destruct (KJ jid j Hj) as [Hid Hne].
    destruct (save_snapshot w jid j n Hk Hid Hne)
      as (n' & w' & -> & Hk' & HD & HJ & Hn' & HM & Hfile).
    exists n', w'. split; [done|]. split; [done|]. split; [done|].
    split; [done|]. split; [done|]. split; [intros k j0; by rewrite HJ|].
    intros j0 Hj0. by assert (j0 = j) as -> by congruence.
  - destruct (KM jid j Hj) as [Hid Hne].
    pose proof (keyed_load w jid j Hk Hj) as Hk1.
    set (w1 := with_JOBS _ w) in *.
    destruct (save_snapshot w1 jid j n Hk1 Hid Hne)
      as (n' & w' & -> & Hk' & HD & HJ & Hn' & HM & Hfile).
    exists n', w'. split; [done|]. split; [done|]. split; [done|].
    split; [done|]. split; [done|]. split; [|intros j0 Hj0; congruence].
    intros k j0 Hj0. rewrite HJ. unfold w1. simpl.
    rewrite lookup_insert_ne; [done|]. congruence.
  - exists n, w. split; [done|]. split; [done|]. split; [done|].
    split; [lia|]. split; [done|]. split; [done|]. intros j0 Hj0.
    congruence.
Qed.

(** The steps for a list of ids without repetition. *)
Lemma flush_steps ids :
  NoDup ids ->
  forall n w,
    keyed w ->
    exists n' w',
      fold_left step ids (n, w) = (n', w') /\ keyed w' /\
      META_DIRTY w' = META_DIRTY w /\
      (n <= n' <= n + length ids)%nat /\
      (forall k, k ∉ ids -> meta_files w' !! k = meta_files w !! k) /\
      (forall k j, JOBS w !! k = Some j -> JOBS w' !! k = Some j) /\
      (forall k j, k ∈ ids -> JOBS w !! k = Some j ->
         if write_fails k
         then meta_files w' !! k = meta_files w !! k
         else meta_files w' !! k = Some (snapshot j)).
Proof.
  induction 1 as [|jid rest Hnotin Hnodup IH]; intros n w Hk.
  { exists n, w. split; [done|]. split; [done|]. split; [done|].
    split; [simpl; lia|]. split; [done|]. split; [done|].
    intros k j Hin. by apply elem_of_nil in Hin. }
  destruct (flush_step_cases n w jid Hk)
    as (n1 & w1 & E1 & Hk1 & HD1 & Hn1 & HM1 & HJ1 & Hfile1).
  destruct (IH n1 w1 Hk1) as (n' & w' & E & Hk' & HD & Hn & HM & HJ & Hfile).
  exists n', w'.
  change (fold_left step (jid :: rest) (n, w))
    with (fold_left step rest (step (n, w) jid)).
  rewrite E1.
  split; [done|]. split; [done|]. split; [congruence|].
  split; [simpl; lia|].
  split.
  { intros k Hk0. apply not_elem_of_cons in Hk0 as [Hne Hnin].
    rewrite HM by done. by apply HM1. }
  split; [auto|].
  intros k j Hin Hj. apply elem_of_cons in Hin as [->|Hin].
  - rewrite (HM jid Hnotin). specialize (Hfile1 j Hj).
    destruct (write_fails jid); tauto.
  - assert (k <> jid) as Hne by (intros ->; done).
    specialize (Hfile k j Hin (HJ1 k j Hj)).
    destruct (write_fails k); [|done]. rewrite Hfile. by apply HM1.
Qed.

End Flush.

(** X16: a flush of the dirty records leaves no id dirty and touches the
    files of the dirty ids only. The file of a dirty job that is in the
    registry holds its snapshot afterwards, unless the write failed: then
    the file is as it was, and the id is no longer dirty either. The
    registry keeps the record, and the count returned is at most the number
    of dirty ids. *)
Theorem flush_meta_once_writes META_LOG_MAX_LINES write_fails w k j :
  keyed w -> JOBS w !! k = Some j -> k ∈ META_DIRTY w ->
  let n := (flush_meta_once META_LOG_MAX_LINES write_fails false w).1 in
  let w' := (flush_meta_once META_LOG_MAX_LINES write_fails false w).2 in
  META_DIRTY w' = ∅ /\
  (n <= size (META_DIRTY w))%nat /\
  JOBS w' !! k = Some j /\
  (if write_fails k then meta_files w' !! k = meta_files w !! k
   else meta_files w' !! k = Some (_snapshot_for_meta META_LOG_MAX_LINES j)) /\
  (forall other,
     other ∉ META_DIRTY w -> meta_files w' !! other = meta_files w !! other).
Proof.
  intros Hk Hj Hin. cbv zeta. unfold flush_meta_once.
  rewrite bool_decide_eq_false_2 by set_solver.
  destruct (flush_steps META_LOG_MAX_LINES write_fails
              (elements (META_DIRTY w)) (NoDup_elements _) O
              (with_META_DIRTY ∅ w) Hk)
    as (n' & w' & -> & Hk' & HD & Hn & HM & HJ & Hfile).
  cbn [fst snd]. split; [done|]. split; [unfold size, set_size; simpl; lia|].
  split; [by apply HJ|]. split.
  - apply (Hfile k j); [by apply elem_of_elements|done].
  - intros other Hother. apply HM. by rewrite elem_of_elements.
Qed.

(** A new job in an empty registry: it is dirty, and the flush writes its
    file. *)
Lemma flush_meta_once_writes_witness :
  let w :=
    init_job (Worker.wall Examples.smooth) Examples.sample_id Examples.upload
      (mkWorld ∅ ∅ ∅ ∅ ∅ ∅ O []) in
  let w' := (flush_meta_once 500 (fun _ => false) false w).2 in
  META_DIRTY w' = ∅ /\
  meta_files w' !! Examples.sample_id = JOBS w !! Examples.sample_id.
Proof.
  set (w := init_job _ _ _ _). cbv zeta.
  assert (keyed w) as Hk.
  { split; intros k j; simpl; [|by rewrite lookup_empty].
    intros [[<- <-]|[_ H]]%lookup_insert_Some; [done|].
    by rewrite lookup_empty in H. }
  assert (exists j, JOBS w !! Examples.sample_id = Some j /\ logs j = [])
    as (j & Hj & Hl).
  { eexists. split; [apply lookup_insert_eq|done]. }
  assert (Examples.sample_id ∈ META_DIRTY w) as Hd.
  { simpl. apply elem_of_union. left. by apply elem_of_singleton. }
  destruct (flush_meta_once_writes 500 (fun _ => false) w Examples.sample_id
              j Hk Hj Hd) as (H1 & _ & _ & H2 & _).
  split; [exact H1|]. rewrite Hj.
  unfold _snapshot_for_meta in H2. rewrite Hl in H2. exact H2.
Defined.

(** *** Restart *)

Lemma bootstrap_fold (l : list (string * Job)) (jobs : gmap string Job) :
  Forall (fun kd => id kd.2 = kd.1 /\ kd.1 <> "") l ->
  fold_left
    (fun jobs d => if String.eqb (id d) "" then jobs else <[id d := d]> jobs)
    (map snd l) jobs
  = list_to_map (reverse l) ∪ jobs.
Proof.
  intros Hl. revert jobs. induction Hl as [|[k d] l [Hid Hne] _ IH];
    intros jobs.
  { simpl. by rewrite (left_id_L ∅ (∪)). }
  simpl in Hid, Hne. simpl. rewrite Hid.
  rewrite (proj2 (String.eqb_neq k "") Hne), IH.
  rewrite reverse_cons, list_to_map_app. simpl.
  rewrite <- (assoc_L (∪)). f_equal.
  by rewrite insert_empty, <- insert_union_singleton_l.
Qed.

(** After a restart the registry is what the meta files hold. *)
Lemma bootstrap_loads w :
  keyed w -> JOBS w = ∅ ->
  JOBS (bootstrap w).2 = meta_files w.
Proof.
  intros [_ KM] Hempty. unfold bootstrap. simpl.
  rewrite bootstrap_fold, Hempty, (right_id_L ∅ (∪)).
  - rewrite <- (list_to_map_to_list (meta_files w)) at 2.
    apply list_to_map_proper.
    + rewrite fmap_reverse, reverse_Permutation.
      apply NoDup_fst_map_to_list.
    + apply reverse_Permutation.
  - apply Forall_forall. intros [k d] Hin. simpl.
    apply elem_of_map_to_list in Hin. by apply KM.
Qed.

Lemma bootstrap_requeue w k :
  k ∈ (bootstrap w).1 <->
  exists j, JOBS (bootstrap w).2 !! k = Some j /\ to_requeue j = true.
Proof.
  unfold bootstrap. cbn [fst snd JOBS with_JOBS].
  set (jobs := fold_left _ _ _). split.
  - intros Hin. apply list_elem_of_In, in_map_iff in Hin
      as ([k' j] & <- & Hin).
    apply filter_In in Hin as [Hin Hq]. exists j. split; [|done].
    by apply elem_of_map_to_list, list_elem_of_In.
  - intros (j & Hj & Hq). apply list_elem_of_In, in_map_iff.
    exists (k, j). split; [done|]. apply filter_In. split; [|done].
    by apply list_elem_of_In, elem_of_map_to_list.
Qed.

(** What a snapshot keeps: everything but the log lines before the last
    [META_LOG_MAX_LINES]. *)
Lemma snapshot_keeps META_LOG_MAX_LINES j :
  (1 <= META_LOG_MAX_LINES)%nat ->
  exists dropped kept,
    logs j = dropped ++ kept /\
    length kept = Nat.min (length (logs j)) META_LOG_MAX_LINES /\
    _snapshot_for_meta META_LOG_MAX_LINES j = assign_to j (Logs kept).
Proof.
  intros Hmax. unfold _snapshot_for_meta.
  destruct (Nat.ltb_spec META_LOG_MAX_LINES (length (logs j))) as [Hcut|Hfit].
  - eexists _, _. split; [|split; [|reflexivity]].
    + unfold tail_slice. destruct META_LOG_MAX_LINES; [lia|].
      symmetry. apply firstn_skipn.
    + unfold tail_slice. destruct META_LOG_MAX_LINES; [lia|].
      rewrite length_skipn. lia.
  - exists [], (logs j). split; [done|]. split; [lia|]. by destruct j.
Qed.

(** X17: what was flushed survives a restart. When the dirty records have
    been flushed without a failed write and the process starts again with an
    empty registry, [bootstrap] puts the record of the job back, with all
    its fields but only the last [META_LOG_MAX_LINES] log lines; and the job
    is queued again exactly when its status is [queued] or [running] and no
    cancel request is on the record. *)
Theorem restart_restores META_LOG_MAX_LINES w k j :
  (1 <= META_LOG_MAX_LINES)%nat ->
  keyed w -> JOBS w !! k = Some j -> k ∈ META_DIRTY w ->
  let flushed :=
    (flush_meta_once META_LOG_MAX_LINES (fun _ => false) false w).2 in
  let restarted := bootstrap (with_JOBS ∅ flushed) in
  exists dropped kept,
    logs j = dropped ++ kept /\
    length kept = Nat.min (length (logs j)) META_LOG_MAX_LINES /\
    JOBS restarted.2 !! k = Some (assign_to j (Logs kept)) /\
    (k ∈ restarted.1 <->
     (status j = Queued \/ status j = Running) /\ cancel_requested j = false).
Proof.
  intros Hmax Hk Hj Hd flushed restarted.
  destruct (snapshot_keeps META_LOG_MAX_LINES j Hmax)
    as (dropped & kept & Hsplit & Hlen & Hsnap).
  exists dropped, kept. split; [done|]. split; [done|].
  assert (keyed flushed /\
          meta_files flushed !! k = Some (assign_to j (Logs kept)))
    as [Hk' Hfile].
  { unfold flushed, flush_meta_once.
    rewrite bool_decide_eq_false_2 by set_solver.
    destruct (flush_steps META_LOG_MAX_LINES (fun _ => false)
                (elements (META_DIRTY w)) (NoDup_elements _) O
                (with_META_DIRTY ∅ w) Hk)
      as (n' & w' & -> & Hk' & _ & _ & _ & _ & Hfile).
    split; [done|]. rewrite <- Hsnap.
    apply (Hfile k j); [by apply elem_of_elements|done]. }
  assert (JOBS restarted.2 = meta_files flushed) as Hjobs.
  { unfold restarted. rewrite bootstrap_loads; [done| |done].
    destruct Hk' as [_ KM]. split; [|done]. intros k0 j0. simpl.
    by rewrite lookup_empty. }
  split; [by rewrite Hjobs|].
  unfold restarted. rewrite bootstrap_requeue. fold restarted.
  rewrite Hjobs, Hfile. unfold to_requeue. split.
  - intros (j0 & [= <-] & Hq). simpl in Hq.
    destruct (status j), (cancel_requested j); simpl in Hq; auto;
      discriminate.
  - intros [Hs Hc]. eexists. split; [done|]. simpl. rewrite Hc.
    by destruct Hs as [-> | ->].
Qed.

(** A new job: flushed, and back after the restart, to be queued again. *)
Lemma restart_restores_witness :
  let w :=
    init_job (Worker.wall Examples.smooth) Examples.sample_id Examples.upload
      (mkWorld ∅ ∅ ∅ ∅ ∅ ∅ O []) in
  let restarted :=
    bootstrap
      (with_JOBS ∅ (flush_meta_once 500 (fun _ => false) false w).2) in
  JOBS restarted.2 !! Examples.sample_id = JOBS w !! Examples.sample_id /\
  Examples.sample_id ∈ restarted.1.
Proof.
  set (w := init_job _ _ _ _). cbv zeta.
  assert (keyed w) as Hk.
  { split; intros k j; simpl; [|by rewrite lookup_empty].
    intros [[<- <-]|[_ H]]%lookup_insert_Some; [done|].
    by rewrite lookup_empty in H. }
  assert (exists j, JOBS w !! Examples.sample_id = Some j /\ logs j = [] /\
            status j = Queued /\ cancel_requested j = false)
    as (j & Hj & Hl & Hs & Hc).
  { eexists. split; [apply lookup_insert_eq|done]. }
  assert (Examples.sample_id ∈ META_DIRTY w) as Hd.
  { simpl. apply elem_of_union. left. by apply elem_of_singleton. }
  destruct (restart_restores 500 w Examples.sample_id j ltac:(lia) Hk Hj Hd)
    as (dropped & kept & Hsplit & _ & H1 & H2).
  rewrite Hl in Hsplit. symmetry in Hsplit.
  apply app_eq_nil in Hsplit as [_ ->].
  split.
  - rewrite H1, Hj. f_equal. rewrite <- Hl. by destruct j.
  - apply H2. auto.
Defined.

End PersistenceFacts.


(** ** Clean-up *)

Module CleanupFacts.

Import Text Registry Cleanup RegistryFacts.
Local Open Scope Q_scope.

(** The files and directories of the job [k] are the same in the two
    states. *)
Definition files_same (k : string) (s s' : Store) : Prop :=
  meta_files s'.2 !! k = meta_files s.2 !! k /\
  outputs s'.2 !! k = outputs s.2 !! k /\
  (k ∈ lock_files s'.2 <-> k ∈ lock_files s.2) /\
  (k ∈ tmp_dirs s'.2 <-> k ∈ tmp_dirs s.2) /\
  (k ∈ s'.1 <-> k ∈ s.1).

(** Nothing of the job [k] differs between the two states: its record, its
    files and its directories. *)
Definition untouched (k : string) (s s' : Store) : Prop :=
  JOBS s'.2 !! k = JOBS s.2 !! k /\ files_same k s s'.

Lemma files_same_refl k s : files_same k s s.
Proof. by repeat split. Qed.

Lemma files_same_trans k s1 s2 s3 :
  files_same k s1 s2 -> files_same k s2 s3 -> files_same k s1 s3.
Proof.
  intros (B1 & C1 & D1 & E1 & F1) (B2 & C2 & D2 & E2 & F2).
  split; [congruence|]. split; [congruence|].
  split; [tauto|]. split; tauto.
Qed.

Lemma untouched_refl k s : untouched k s s.
Proof. split; [done|apply files_same_refl]. Qed.

Lemma untouched_trans k s1 s2 s3 :
  untouched k s1 s2 -> untouched k s2 s3 -> untouched k s1 s3.
Proof.
  intros [A1 F1] [A2 F2]. split; [congruence|by eapply files_same_trans].
Qed.

Section Files.

Variable wall : nat -> Q.
Variable cfg : Config.t.
Variables k jid : string.

Lemma files_same_put u j j' n w : files_same k (u, w) (u, put jid j j' n w).
Proof. by repeat split. Qed.

Lemma files_same_clock u n w : files_same k (u, w) (u, with_clock n w).
Proof. by repeat split. Qed.

Lemma files_same_update_job u kwargs w :
  files_same k (u, w) (u, update_job wall jid kwargs w).
Proof.
  destruct (update_job_cases wall jid kwargs w)
    as [[_ ->]|(j & Hj & ->)]; [apply files_same_refl | apply files_same_put].
Qed.

Lemma files_same_append_log u message w :
  files_same k (u, w) (u, append_log wall cfg jid message w).
Proof.
  destruct (append_log_cases wall cfg jid message w)
    as [->|(j & Hj & _ & ->)]; [apply files_same_refl | apply files_same_put].
Qed.

Lemma files_same_set_error u msg w :
  files_same k (u, w) (u, set_error wall jid msg w).
Proof.
  rewrite set_error_eq.
  eapply files_same_trans; [apply (files_same_clock u (S (S (clock w))))|].
  apply files_same_update_job.
Qed.

Lemma files_same_get_job u w : files_same k (u, w) (u, (get_job jid w).2).
Proof.
  destruct (get_job_cases jid w)
    as [(j & _ & ->)|[(_ & j & Hj & ->)|(_ & ->)]];
    by repeat split.
Qed.

Hypothesis other : jid <> k.

Lemma jobs_same_put j j' n w : JOBS (put jid j j' n w) !! k = JOBS w !! k.
Proof. simpl. by apply lookup_insert_ne. Qed.

Lemma jobs_same_update_job kwargs w :
  JOBS (update_job wall jid kwargs w) !! k = JOBS w !! k.
Proof.
  destruct (update_job_cases wall jid kwargs w)
    as [[_ ->]|(j & Hj & ->)]; [done | apply jobs_same_put].
Qed.

Lemma jobs_same_append_log message w :
  JOBS (append_log wall cfg jid message w) !! k = JOBS w !! k.
Proof.
  destruct (append_log_cases wall cfg jid message w)
    as [->|(j & Hj & _ & ->)]; [done | apply jobs_same_put].
Qed.

Lemma jobs_same_set_error msg w :
  JOBS (set_error wall jid msg w) !! k = JOBS w !! k.
Proof. rewrite set_error_eq. by rewrite jobs_same_update_job. Qed.

Lemma jobs_same_get_job w : JOBS (get_job jid w).2 !! k = JOBS w !! k.
Proof.
  destruct (get_job_cases jid w)
    as [(j & _ & ->)|[(_ & j & Hj & ->)|(_ & ->)]]; try done.
  simpl. by apply lookup_insert_ne.
Qed.

Lemma elem_of_remove_other (X : gset string) : k ∈ X ∖ {[jid]} <-> k ∈ X.
Proof.
  rewrite elem_of_difference, elem_of_singleton. intuition congruence.
Qed.

Lemma untouched_delete s : untouched k s (_delete_job_artifacts jid s).
Proof.
  destruct s as [u w]. unfold _delete_job_artifacts, untouched, files_same.
  simpl. rewrite !lookup_delete_ne by done.
  repeat split; try done; by apply elem_of_remove_other.
Qed.

Lemma untouched_cleanup_one ret now s :
  untouched k s (cleanup_one wall cfg ret now s jid).
Proof.
  destruct s as [u w]. unfold cleanup_one.
  assert (untouched k (u, w) (u, (get_job jid w).2)) as H1.
  { split; [apply jobs_same_get_job | apply files_same_get_job]. }
  destruct (get_job jid w) as [[j|] w1]; simpl in H1; [|done].
  destruct (_ && _).
  - eapply untouched_trans; [exact H1|]. split.
    + simpl. by rewrite jobs_same_set_error, jobs_same_append_log.
    + eapply files_same_trans;
        [apply files_same_append_log | apply files_same_set_error].
  - destruct (should_delete ret j now _); [|done].
    eapply untouched_trans; [exact H1 | apply untouched_delete].
Qed.

End Files.

Lemma untouched_cleanup_rest wall cfg ret k now ids :
  k ∉ ids ->
  forall s, untouched k s (fold_left (cleanup_one wall cfg ret now) ids s).
Proof.
  induction ids as [|jid rest IH]; intros Hk s; [apply untouched_refl|].
  apply not_elem_of_cons in Hk as [Hne Hk]. simpl.
  eapply untouched_trans; [|by apply IH].
  by apply untouched_cleanup_one.
Qed.

(** The round for a job that is in the registry: the ids before it, the job
    itself, the ids after it. *)
Lemma cleanup_round_split wall cfg ret uploads w k j :
  JOBS w !! k = Some j ->
  let now := wall (clock w) in
  let s1 := (uploads, with_clock (S (clock w)) w) in
  exists s2,
    untouched k s1 s2 /\
    untouched k (cleanup_one wall cfg ret now s2 k)
      (cleanup_round wall cfg ret (uploads, w)).
Proof.
  intros Hj now s1. unfold cleanup_round, ts. fold now.
  set (ids := elements _).
  assert (k ∈ ids) as Hin.
  { apply elem_of_elements, elem_of_dom. simpl. eauto. }
  assert (NoDup ids) as Hnd by apply NoDup_elements.
  apply list_elem_of_split in Hin as (before & after & Hids).
  rewrite Hids in *. apply NoDup_app in Hnd as (_ & Hb & Ha).
  apply NoDup_cons in Ha as [Ha _].
  rewrite fold_left_app. simpl.
  exists (fold_left (cleanup_one wall cfg ret now) before s1). split.
  - apply untouched_cleanup_rest. intros H. apply (Hb k H). by left.
  - by apply untouched_cleanup_rest.
Qed.

Lemma not_elem_of_remove (X : gset string) k : k ∉ X ∖ {[k]}.
Proof. apply not_elem_of_difference. right. by apply elem_of_singleton. Qed.

(** What the round does when it comes to the job. *)
Lemma cleanup_one_self wall cfg ret now u w k j :
  JOBS w !! k = Some j ->
  let age := now - float_or (updated_at j) now in
  let hb_age :=
    now - float_or (last_heartbeat j) (float_or (updated_at j) now) in
  let s' := cleanup_one wall cfg ret now (u, w) k in
  (is_terminal (status j) = false /\
   inject_Z (ORPHAN_RETENTION_SECONDS ret) < hb_age /\
   files_same k (u, w) s' /\
   exists j', JOBS s'.2 !! k = Some j' /\ status j' = Error /\
              is_Some (error j')) \/
  (should_delete ret j now age = true /\
   s' = _delete_job_artifacts k (u, w)) \/
  s' = (u, w).
Proof.
  intros Hj age hb_age s'. unfold s', cleanup_one.
  rewrite (get_job_present _ _ _ Hj). fold age hb_age.
  destruct (_ && _) eqn:Horphan.
  - left. apply andb_prop in Horphan as [Hactive Hlate].
    apply VadFacts.Qlt_bool_true in Hlate.
    split; [by destruct (status j)|]. split; [done|]. split.
    { eapply files_same_trans;
        [apply files_same_append_log | apply files_same_set_error]. }
    cbn [snd].
    set (w1 := append_log wall cfg k _ w).
    assert (exists j1, JOBS w1 !! k = Some j1) as [j1 Hj1].
    { destruct (append_log_cases wall cfg k
                  (py "⚠️ 任务心跳超时，已标记为错误") w)
        as [E|(j0 & _ & _ & E)]; fold w1 in E; rewrite E.
      - eauto.
      - rewrite lookup_put. eauto. }
    rewrite set_error_eq.
    match goal with
    | |- context [update_job wall k ?kw ?w0] =>
      destruct (update_job_cases wall k kw w0) as [[E _]|(j0 & _ & ->)]
    end.
    + simpl in E. congruence.
    + rewrite lookup_put. eexists. split; [done|]. simpl. eauto.
  - destruct (should_delete ret j now age) eqn:Hdel; auto.
Qed.

(** X18: a round of the clean-up, for a job that is in the registry. The
    record goes only when the job is terminal and past its retention (for a
    [done] job: the retention of results, or, when that setting is on, the
    grace period after a download), and then everything of the job goes
    with it: the lease, the upload, the temporary directory, the subtitle
    file and the meta file, so that [get_job] finds nothing. Otherwise the
    files and directories of the job stay as they are, and the record is
    the same unless the job was queued or running without a heartbeat for
    longer than the orphan retention: then it is an [error] record. *)
Theorem cleanup_round_effect wall cfg ret uploads w k j :
  JOBS w !! k = Some j ->
  let now := wall (clock w) in
  let age := now - float_or (updated_at j) now in
  let hb_age :=
    now - float_or (last_heartbeat j) (float_or (updated_at j) now) in
  let s' := cleanup_round wall cfg ret (uploads, w) in
  match JOBS s'.2 !! k with
  | None =>
    match status j with
    | Done =>
      inject_Z (DONE_RETENTION_SECONDS ret) <= age \/
      (AUTO_CLEANUP_AFTER_DOWNLOAD ret = true /\
       exists d, downloaded_at j = Some d /\
         inject_Z (DOWNLOAD_GRACE_SECONDS ret) <= now - d)
    | Error | Cancelled => inject_Z (ERROR_RETENTION_SECONDS ret) <= age
    | Queued | Running => False
    end /\
    (get_job k s'.2).1 = None /\
    (k ∉ lock_files s'.2) /\ (k ∉ tmp_dirs s'.2) /\ (k ∉ s'.1) /\
    outputs s'.2 !! k = None /\ meta_files s'.2 !! k = None
  | Some j' =>
    files_same k (uploads, w) s' /\
    (j' = j \/
     (is_terminal (status j) = false /\
      inject_Z (ORPHAN_RETENTION_SECONDS ret) < hb_age /\
      status j' = Error /\ is_Some (error j')))
  end.
Proof.
  intros Hj now age hb_age s'.
  destruct (cleanup_round_split wall cfg ret uploads w k j Hj)
    as ([u2 w2] & [J2 F2] & [J3 F3]).
  fold now s' in J3, F3. simpl in J2. rewrite Hj in J2.
  assert (files_same k (uploads, w) (u2, w2)) as F2' by exact F2.
  clear F2.
  destruct (cleanup_one_self wall cfg ret now u2 w2 k j J2)
    as [(Hs & Hlate & Hf & j' & Hj' & Hs' & He)|[[Hdel E]|E]].
  - rewrite J3, Hj'. cbv beta iota. split.
    + eapply files_same_trans; [exact F2'|].
      eapply files_same_trans; [exact Hf | exact F3].
    + right. auto.
  - rewrite E in J3, F3.
    destruct F3 as (M3 & O3 & L3 & T3 & U3).
    unfold _delete_job_artifacts in J3, M3, O3, L3, T3, U3.
    simpl in J3, M3, O3, L3, T3, U3.
    rewrite lookup_delete_eq in J3. rewrite lookup_delete_eq in M3.
    rewrite lookup_delete_eq in O3.
    rewrite J3. cbv beta iota. split.
    { revert Hdel. unfold should_delete.
      destruct (status j); try done.
      - destruct (AUTO_CLEANUP_AFTER_DOWNLOAD ret); simpl.
        + destruct (downloaded_at j) as [d|]; simpl.
          * unfold float_or. destruct (Qeq_bool d 0); simpl.
            -- intros H. left. by apply Qle_bool_iff.
            -- intros H. right. split; [done|]. exists d.
               split; [done|]. by apply Qle_bool_iff.
          * intros H. left. by apply Qle_bool_iff.
        + intros H. left. by apply Qle_bool_iff.
      - intros H. by apply Qle_bool_iff.
      - intros H. by apply Qle_bool_iff. }
    split.
    { unfold get_job. by rewrite J3, M3. }
    split; [rewrite L3; apply not_elem_of_remove|].
    split; [rewrite T3; apply not_elem_of_remove|].
    split; [rewrite U3; apply not_elem_of_remove|]. done.
  - rewrite E in J3, F3. simpl in J3. rewrite J3, J2. cbv beta iota. split.
    + by eapply files_same_trans.
    + by left.
Qed.

(** A job that has just been queued is still there after a round. *)
Lemma cleanup_round_effect_witness :
  let w :=
    init_job (Worker.wall Examples.smooth) Examples.sample_id Examples.upload
      (mkWorld ∅ ∅ ∅ ∅ ∅ ∅ O []) in
  let s' :=
    cleanup_round (Worker.wall Examples.smooth) Config.default
      (mkRetention 86400 7200 86400 false 60) ({[Examples.sample_id]}, w) in
  is_Some (JOBS s'.2 !! Examples.sample_id).
Proof.
  set (w := init_job _ _ _ _). cbv zeta.
  assert (exists j, JOBS w !! Examples.sample_id = Some j /\
            status j = Queued) as (j & Hj & Hs).
  { eexists. split; [apply lookup_insert_eq|done]. }
  pose proof (cleanup_round_effect (Worker.wall Examples.smooth)
                Config.default (mkRetention 86400 7200 86400 false 60)
                {[Examples.sample_id]} w Examples.sample_id j Hj) as H.
  cbv zeta in H.
  destruct (JOBS _ !! Examples.sample_id) as [j'|]; [by exists j'|].
  rewrite Hs in H. by destruct H as [[] _].
Defined.

End CleanupFacts.


(** ** The settings *)

Module EnvFacts.

Import Env.
Local Open Scope Q_scope.

Lemma _env_int_range getenv int_ name default lo hi :
  (lo <= hi)%Z ->
  (lo <= _env_int getenv int_ name default (Some lo) (Some hi) <= hi)%Z.
Proof. intros H. unfold _env_int. lia. Qed.

Lemma _env_int_floor getenv int_ name default lo :
  (lo <= _env_int getenv int_ name default (Some lo) None)%Z.
Proof. unfold _env_int. lia. Qed.

Lemma _env_float_range getenv float_ name default lo hi :
  lo <= hi ->
  exists v,
    _env_float getenv float_ name default (Some (Finite lo)) (Some (Finite hi))
      = Finite v /\
    lo <= v <= hi.
Proof.
  intros H. unfold _env_float.
  set (val := match getenv name with Some _ => _ | None => _ end).
  clearbody val. unfold float_max, float_min.
  destruct val as [v| | |]; simpl.
  - destruct (Vad.Qlt_bool lo v) eqn:E1; simpl.
    + apply VadFacts.Qlt_bool_true in E1.
      destruct (Vad.Qlt_bool v hi) eqn:E2.
      * apply VadFacts.Qlt_bool_true in E2. exists v. split; [done|]. lra.
      * apply VadFacts.Qlt_bool_false in E2. exists hi. split; [done|]. lra.
    + apply VadFacts.Qlt_bool_false in E1.
      destruct (Vad.Qlt_bool lo hi) eqn:E2.
      * exists lo. split; [done|]. lra.
      * apply VadFacts.Qlt_bool_false in E2. exists hi. split; [done|]. lra.
  - exists hi. split; [done|]. lra.
  - destruct (Vad.Qlt_bool lo hi) eqn:E2.
    + exists lo. split; [done|]. lra.
    + apply VadFacts.Qlt_bool_false in E2. exists hi. split; [done|]. lra.
  - destruct (Vad.Qlt_bool lo hi) eqn:E2.
    + exists lo. split; [done|]. lra.
    + apply VadFacts.Qlt_bool_false in E2. exists hi. split; [done|]. lra.
Qed.

(** X19: whatever the environment holds, and whatever [int] and [float]
    make of it (a number, an infinity, a NaN, or an exception), the settings
    are within their ranges: those of [Config.config_ok], 50 to 5000 for
    [META_LOG_MAX_LINES], at least 60 seconds for the three retentions and
    at least 0 for the grace period. *)
Theorem settings_in_range getenv int_ float_ :
  Config.config_ok (config getenv int_ float_) /\
  (50 <= META_LOG_MAX_LINES getenv int_ <= 5000)%Z /\
  (60 <= Cleanup.ORPHAN_RETENTION_SECONDS (retention getenv int_))%Z /\
  (60 <= Cleanup.DONE_RETENTION_SECONDS (retention getenv int_))%Z /\
  (60 <= Cleanup.ERROR_RETENTION_SECONDS (retention getenv int_))%Z /\
  (0 <= Cleanup.DOWNLOAD_GRACE_SECONDS (retention getenv int_))%Z.
Proof.
  split.
  { unfold Config.config_ok, config. simpl.
    unfold MAX_SEGMENT_SECONDS, MIN_SEGMENT_SECONDS,
      MIN_TRANSCRIBE_SEGMENT_SECONDS, SHORT_SEGMENT_MERGE_GAP_SECONDS.
    destruct (_env_float_range getenv float_ "MAX_SEGMENT_SECONDS"
                (Finite 15) 5 30) as (v1 & -> & H1); [lra|].
    destruct (_env_float_range getenv float_ "MIN_SEGMENT_SECONDS"
                (Finite 0.25) 0.1 2) as (v2 & -> & H2); [lra|].
    destruct (_env_float_range getenv float_ "MIN_TRANSCRIBE_SEGMENT_SECONDS"
                (Finite 0.45) 0.2 2) as (v3 & -> & H3); [lra|].
    destruct (_env_float_range getenv float_
                "SHORT_SEGMENT_MERGE_GAP_SECONDS" (Finite 0.2) 0 1)
      as (v4 & -> & H4); [lra|].
    simpl. repeat split; try tauto.
    - pose proof (_env_int_range getenv int_ "LOG_MAX_LINES" 1000 100 10000)
        as H. unfold LOG_MAX_LINES. lia.
    - pose proof (_env_int_range getenv int_ "LOG_MAX_LINES" 1000 100 10000)
        as H. unfold LOG_MAX_LINES. lia. }
  split; [apply _env_int_range; lia|].
  repeat split; apply _env_int_floor.
Qed.

End EnvFacts.


(** ** Cancelled jobs and held leases *)

Module TurnFacts.

Import Text Registry Worker RegistryFacts WorkerFacts OutcomeFacts.
Local Open Scope Q_scope.

(** The files and directories are the same in the two states. *)
Definition same_files (w w' : World) : Prop :=
  lock_files w' = lock_files w /\ tmp_dirs w' = tmp_dirs w /\
  outputs w' = outputs w /\ meta_files w' = meta_files w.

Lemma same_files_refl w : same_files w w.
Proof. by repeat split. Qed.

Lemma same_files_trans w1 w2 w3 :
  same_files w1 w2 -> same_files w2 w3 -> same_files w1 w3.
Proof.
  intros (A1 & B1 & C1 & D1) (A2 & B2 & C2 & D2). repeat split; congruence.
Qed.

Section Files.

Variable wall : nat -> Q.
Variable cfg : Config.t.
Variable job_id : string.

Lemma same_files_update_job kwargs w :
  same_files w (update_job wall job_id kwargs w).
Proof.
  destruct (update_job_cases wall job_id kwargs w)
    as [[_ ->]|(j & Hj & ->)]; by repeat split.
Qed.

Lemma same_files_append_log message w :
  same_files w (append_log wall cfg job_id message w).
Proof.
  destruct (append_log_cases wall cfg job_id message w)
    as [->|(j & Hj & _ & ->)]; by repeat split.
Qed.

Lemma same_files_set_status s w : same_files w (set_status wall job_id s w).
Proof.
  rewrite set_status_eq.
  eapply same_files_trans; [|apply same_files_update_job]. by repeat split.
Qed.

End Files.

(** The record after a cancel request for a job that is not terminal. *)
Lemma api_cancel_record wall cfg job_id w j :
  JOBS w !! job_id = Some j -> is_terminal (status j) = false ->
  same_files w (api_cancel wall cfg job_id w) /\
  record job_id
    (fun j' =>
       cancel_requested j' = true /\
       match status j with
       | Queued => status j' = Cancelled /\ is_Some (finished_at j')
       | _ => status j' = status j
       end)
    (api_cancel wall cfg job_id w).
Proof.
  intros Hj Hs. unfold api_cancel.
  rewrite (get_job_present _ _ _ Hj), Hs.
  set (w1 := update_job wall job_id [CancelRequested true] w).
  set (requested := fun j' : Job =>
                      cancel_requested j' = true /\ status j' = status j).
  assert (record job_id requested w1) as H1.
  { apply (record_update_job _ _ (fun j' => j' = j)); [|by exists j].
    by intros j' t ->. }
  set (w2 := append_log wall cfg job_id _ w1).
  assert (record job_id requested w2) as H2.
  { apply record_append_log; [by split|done]. }
  assert (same_files w w2) as F2.
  { eapply same_files_trans;
      [apply same_files_update_job | apply same_files_append_log]. }
  destruct (record_get_job job_id _ w2 H2) as (j2 & -> & Hj2 & Hc2 & Hs2).
  rewrite Hs2. destruct (status j) eqn:E; try done.
  - split.
    + eapply same_files_trans; [exact F2 | apply same_files_set_status].
    + rewrite set_status_eq.
      apply (record_update_job _ _ requested); [|done].
      intros j' t [Hc' _]. simpl. split; [done|]. split; [done|]. eauto.
Qed.

(** X20: a job that is cancelled before a worker takes it up is never
    started. After a cancel request for a job that is queued or running, a
    turn of the worker leaves the job [cancelled], with the request on the
    record, and takes no lease, makes no directory and writes no file. *)
Theorem cancelled_job_never_starts cfg o outputs_root job_id w j :
  JOBS w !! job_id = Some j -> is_terminal (status j) = false ->
  let w' :=
    worker_turn cfg o outputs_root job_id (api_cancel (wall o) cfg job_id w) in
  lock_files w' = lock_files w /\ tmp_dirs w' = tmp_dirs w /\
  outputs w' = outputs w /\ meta_files w' = meta_files w /\
  exists j',
    JOBS w' !! job_id = Some j' /\ status j' = Cancelled /\
    cancel_requested j' = true /\ is_Some (finished_at j').
Proof.
  intros Hj Hs w'.
  destruct (api_cancel_record (wall o) cfg job_id w j Hj Hs)
    as [F1 (j1 & Hj1 & Hc1 & Hs1)].
  unfold w', worker_turn. set (w1 := api_cancel _ _ _ _) in *.
  rewrite (get_job_present _ _ _ Hj1), Hc1.
  assert (same_files w
            (append_log (wall o) cfg job_id (py "🛑 队列中取消")
               (set_status (wall o) job_id Cancelled w1)) /\
          record job_id
            (fun j' => status j' = Cancelled /\ cancel_requested j' = true /\
                       is_Some (finished_at j'))
            (append_log (wall o) cfg job_id (py "🛑 队列中取消")
               (set_status (wall o) job_id Cancelled w1))) as [F2 R2].
  { split.
    - eapply same_files_trans; [exact F1|].
      eapply same_files_trans;
        [apply same_files_set_status | apply same_files_append_log].
    - apply record_append_log; [by split|].
      rewrite set_status_eq.
      apply (record_update_job _ _ (fun j' => cancel_requested j' = true));
        [|by exists j1].
      intros j' t Hc'. simpl. split; [done|]. split; [done|]. eauto. }
  assert (forall w2, same_files w w2 ->
            record job_id
              (fun j' => status j' = Cancelled /\ cancel_requested j' = true /\
                         is_Some (finished_at j')) w2 ->
            lock_files w2 = lock_files w /\ tmp_dirs w2 = tmp_dirs w /\
            outputs w2 = outputs w /\ meta_files w2 = meta_files w /\
            exists j',
              JOBS w2 !! job_id = Some j' /\ status j' = Cancelled /\
              cancel_requested j' = true /\ is_Some (finished_at j'))
    as Hend.
  { intros w2 (A & B & C & D) (j2 & Hj2 & H2). by eauto 10. }
  destruct (status j) eqn:E; try done.
  - destruct Hs1 as [Hs1 Hfin]. rewrite Hs1. apply Hend; [done|].
    by exists j1.
  - rewrite Hs1. by apply Hend.
Qed.

(** The queued job of the examples is cancelled before the worker comes. *)
Lemma cancelled_job_never_starts_witness :
  let w' :=
    worker_turn Config.default Examples.smooth Examples.outputs_root
      Examples.sample_id
      (api_cancel (wall Examples.smooth) Config.default Examples.sample_id
         Examples.queued) in
  lock_files w' = lock_files Examples.queued /\
  status <$> JOBS w' !! Examples.sample_id = Some Cancelled.
Proof.
  destruct ExampleFacts.queued_record as (j & E & _ & Hs & _).
  destruct (cancelled_job_never_starts Config.default Examples.smooth
              Examples.outputs_root Examples.sample_id Examples.queued j E
              ltac:(by rewrite Hs))
    as (H1 & _ & _ & _ & j' & Hj' & Hs' & _).
  cbv zeta. split; [exact H1|]. rewrite Hj'. simpl. by rewrite Hs'.
Defined.

(** X21: while the lease of a job is held, a run for it does nothing but
    write a log line: it returns without raising, the lease, the
    directories and the files are as before, and so are the status, the
    progress, the error, the result and the cancel request of the
    record. *)
Theorem process_job_lease_held cfg o outputs_root job_id w j :
  JOBS w !! job_id = Some j -> job_id ∈ lock_files w ->
  exists w' j',
    process_job cfg o outputs_root job_id w = (Returned, w') /\
    lock_files w' = lock_files w /\ tmp_dirs w' = tmp_dirs w /\
    outputs w' = outputs w /\ meta_files w' = meta_files w /\
    JOBS w' !! job_id = Some j' /\ settled j j' /\
    log_seq j' = S (log_seq j).
Proof.
  intros Hj Hheld. unfold process_job.
  unfold mbind at 1, Pm_bind, then_, ask. rewrite (get_job_present _ _ _ Hj).
  unfold mbind at 1, Pm_bind, then_, ask, acquire_job_lease.
  rewrite bool_decide_eq_true_2 by done. cbn [negb]. cbv beta iota zeta.
  unfold mbind, Pm_bind, then_, act, return_.
  set (m := py "⏭️ 检测到其他 Worker 正在处理该任务，当前实例跳过").
  assert (nonempty (log_line m) = true) as Hne by (by vm_compute).
  rewrite (LogFacts.append_log_line (wall o) cfg job_id m w j Hj Hne).
  eexists _, _. split; [done|]. rewrite lookup_put.
  split; [done|]. split; [done|]. split; [done|]. split; [done|].
  split; [done|]. split; [by repeat split|done].
Qed.

Lemma JOBS_with_lock_files s w : JOBS (with_lock_files s w) = JOBS w.
Proof. reflexivity. Qed.

Lemma lock_files_with_lock_files s w : lock_files (with_lock_files s w) = s.
Proof. reflexivity. Qed.

(** The queued job of the examples, with its lease in other hands. *)
Lemma process_job_lease_held_witness :
  exists w',
    process_job Config.default Examples.smooth Examples.outputs_root
      Examples.sample_id
      (with_lock_files {[Examples.sample_id]} Examples.queued)
    = (Returned, w') /\
    status <$> JOBS w' !! Examples.sample_id = Some Queued.
Proof.
  destruct ExampleFacts.queued_record as (j & E & _ & Hs & _).
  rewrite <- (JOBS_with_lock_files {[Examples.sample_id]}) in E.
  assert (Examples.sample_id
          ∈ lock_files
              (with_lock_files {[Examples.sample_id]} Examples.queued))
    as Hheld.
  { rewrite lock_files_with_lock_files. by apply elem_of_singleton. }
  destruct (process_job_lease_held Config.default Examples.smooth
              Examples.outputs_root Examples.sample_id
              (with_lock_files {[Examples.sample_id]} Examples.queued) j E
              Hheld)
    as (w' & j' & E1 & _ & _ & _ & _ & Hj' & Hset & _).
  exists w'. split; [exact E1|]. rewrite Hj'. simpl.
  destruct Hset as (_ & -> & _). by rewrite Hs.
Defined.

End TurnFacts.


(** ** Invariants of the whole state *)

Module StateFacts.

Import Text Registry Worker Service Persistence Cleanup.
Import RegistryFacts WorkerFacts InvariantFacts PersistenceFacts.
Local Open Scope Q_scope.

Section Background.

Variable cfg : Config.t.
Variable phi : string -> Job -> Prop.

Hypothesis phi_assign :
  forall k j a, fits a -> phi k j -> phi k (assign_to j a).
Hypothesis phi_logged :
  forall k j line a b c, phi k j -> phi k (logged cfg j line a b c).
Hypothesis phi_snapshot :
  forall n k j, phi k j -> id j <> "" -> phi (id j) (_snapshot_for_meta n j).

Variable wall : nat -> Q.

Lemma all_records_flush_step n write_fails acc jid :
  all_records phi acc.2 ->
  all_records phi (flush_step n write_fails acc jid).2.
Proof.
  destruct acc as [count w]. simpl. intros Hw. unfold flush_step.
  pose proof (all_records_get_job phi jid w Hw) as H1.
  pose proof (get_job_lookup jid w) as Hj.
  destruct (get_job jid w) as [[j|] w1]; simpl in H1; [|done].
  specialize (Hj j w1 eq_refl). unfold save_meta.
  destruct (String.eqb_spec (id (_snapshot_for_meta n j)) "") as [E|Hne];
    [done|].
  destruct (write_fails _); [done|]. simpl.
  destruct H1 as [HJ HM]. split; [done|]. intros k r. simpl.
  intros [[<- <-]|[_ H]]%lookup_insert_Some; [|by eapply HM].
  assert (id (_snapshot_for_meta n j) = id j) as Eid.
  { unfold _snapshot_for_meta. by destruct (_ <? _)%nat. }
  rewrite Eid in *. apply (phi_snapshot n jid); [|done]. by apply HJ.
Qed.

Lemma all_records_flush_meta_once n write_fails force_all w :
  all_records phi w ->
  all_records phi (flush_meta_once n write_fails force_all w).2.
Proof.
  intros Hw. unfold flush_meta_once.
  assert (forall ids acc,
            all_records phi acc.2 ->
            all_records phi
              (fold_left (flush_step n write_fails) ids acc).2) as Hfold.
  { induction ids as [|jid rest IH]; intros acc Hacc; [done|].
    simpl. apply IH. by apply all_records_flush_step. }
  destruct force_all; [by apply Hfold|].
  case_bool_decide; [done|]. by apply Hfold.
Qed.

Lemma all_records_delete job_id (s : Store) :
  all_records phi s.2 -> all_records phi (_delete_job_artifacts job_id s).2.
Proof.
  destruct s as [u w]. simpl. intros [HJ HM].
  split; intros k j; simpl; intros [_ H]%lookup_delete_Some;
    [by apply HJ | by apply HM].
Qed.

Lemma all_records_cleanup_one ret now (s : Store) jid :
  all_records phi s.2 ->
  all_records phi (cleanup_one wall cfg ret now s jid).2.
Proof.
  destruct s as [u w]. simpl. intros Hw. unfold cleanup_one.
  pose proof (all_records_get_job phi jid w Hw) as H1.
  destruct (get_job jid w) as [[j|] w1]; simpl in H1; [|done].
  destruct (_ && _).
  - simpl. apply all_records_set_error; [done|].
    by apply all_records_append_log.
  - destruct (should_delete ret j now _); [|done].
    by apply (all_records_delete jid (u, w1)).
Qed.

Lemma all_records_cleanup_round ret (s : Store) :
  all_records phi s.2 ->
  all_records phi (cleanup_round wall cfg ret s).2.
Proof.
  destruct s as [u w]. simpl. intros Hw. unfold cleanup_round, ts.
  assert (forall ids (acc : Store),
            all_records phi acc.2 ->
            all_records phi
              (fold_left (cleanup_one wall cfg ret (wall (clock w))) ids
                 acc).2) as Hfold.
  { induction ids as [|jid rest IH]; intros acc Hacc; [done|].
    simpl. apply IH. by apply all_records_cleanup_one. }
  by apply Hfold.
Qed.

End Background.

(** The progress on every record, in memory and on disk, is between 0 and
    100. *)
Definition progress_in_range (w : World) : Prop :=
  (forall job_id j, JOBS w !! job_id = Some j -> 0 <= progress j <= 100) /\
  (forall job_id j,
     meta_files w !! job_id = Some j -> 0 <= progress j <= 100).

(** X22: the progress of a job never leaves the range from 0 to 100: a new
    job, a log line, a turn of the worker, a cancel request, a download, a
    flush of the meta files and a round of the clean-up keep every record
    in that range, and so a status poll reports a progress in it. *)
Theorem progress_stays_in_range cfg o outputs_root job_id w :
  progress_in_range w ->
  (forall p, progress_in_range (init_job (wall o) job_id p w)) /\
  (forall message,
     progress_in_range (append_log (wall o) cfg job_id message w)) /\
  progress_in_range (worker_turn cfg o outputs_root job_id w) /\
  progress_in_range (api_cancel (wall o) cfg job_id w) /\
  progress_in_range (api_download o job_id w) /\
  (forall n write_fails force_all,
     progress_in_range (flush_meta_once n write_fails force_all w).2) /\
  (forall ret uploads,
     progress_in_range (cleanup_round (wall o) cfg ret (uploads, w)).2) /\
  (forall since r,
     (api_status job_id since w).1 = Some r -> 0 <= st_progress r <= 100).
Proof.
  intros Hw. set (phi := fun (_ : string) j => 0 <= progress j <= 100).
  change (all_records phi w) in Hw.
  assert (forall k j a, fits a -> phi k j -> phi k (assign_to j a)) as Ha.
  { intros k j a Hfit Hj. by destruct a. }
  assert (forall k j line a b c, phi k j -> phi k (logged cfg j line a b c))
    as Hl by done.
  assert (forall n k j, phi k j -> id j <> "" ->
            phi (id j) (_snapshot_for_meta n j)) as Hs.
  { intros n k j Hj _. unfold phi, _snapshot_for_meta.
    by destruct (_ <? _)%nat. }
  split.
  { intros p. apply (all_records_init_job phi); [|done].
    intros now. unfold phi. simpl. lra. }
  split; [intros m; by apply (all_records_append_log cfg phi)|].
  split; [by apply (all_records_worker_turn cfg phi)|].
  split; [by apply (all_records_api_cancel cfg phi)|].
  split; [by apply (all_records_api_download phi)|].
  split; [intros n f force; by apply (all_records_flush_meta_once phi)|].
  split.
  { intros ret u.
    by apply (all_records_cleanup_round cfg phi Ha Hl (wall o) ret (u, w)). }
  intros since r. unfold api_status.
  pose proof (all_records_get_job phi job_id w Hw) as [HJ _].
  pose proof (get_job_lookup job_id w) as Hj.
  destruct (get_job job_id w) as [[j|] w1]; simpl in *; [|done].
  intros [= <-]. simpl. by apply (HJ job_id), Hj.
Qed.

(** A new job is queued and worked on to the end. *)
Lemma progress_stays_in_range_witness :
  progress_in_range
    (worker_turn Config.default Examples.smooth Examples.outputs_root
       Examples.sample_id Examples.queued).
Proof.
  assert (progress_in_range (mkWorld ∅ ∅ ∅ ∅ ∅ ∅ O [])) as H0.
  { split; intros k j; simpl; by rewrite lookup_empty. }
  pose proof (progress_stays_in_range Config.default Examples.smooth
                Examples.outputs_root Examples.sample_id _ H0)
    as (H1 & _).
  pose proof (progress_stays_in_range Config.default Examples.smooth
                Examples.outputs_root Examples.sample_id _
                (H1 Examples.upload))
    as (_ & H2 & _).
  exact (proj1 (proj2 (proj2
           (progress_stays_in_range Config.default Examples.smooth
              Examples.outputs_root Examples.sample_id _
              (H2 (py "📦 文件上传完成，任务已入队")))))).
Defined.

(** X23: every record stays filed under its own id, in memory and on disk:
    a new job with an id that is not empty, a log line, a turn of the
    worker, a cancel request, a download, a status poll, a flush of the
    meta files and a round of the clean-up keep it so. *)
Theorem records_stay_keyed cfg o outputs_root job_id w :
  keyed w ->
  (forall p, job_id <> "" -> keyed (init_job (wall o) job_id p w)) /\
  (forall message, keyed (append_log (wall o) cfg job_id message w)) /\
  keyed (worker_turn cfg o outputs_root job_id w) /\
  keyed (api_cancel (wall o) cfg job_id w) /\
  keyed (api_download o job_id w) /\
  (forall since, keyed (api_status job_id since w).2) /\
  (forall n write_fails force_all,
     keyed (flush_meta_once n write_fails force_all w).2) /\
  (forall ret uploads,
     keyed (cleanup_round (wall o) cfg ret (uploads, w)).2).
Proof.
  intros Hw. set (phi := fun (k : string) j => id j = k /\ k <> "").
  change (all_records phi w) in Hw.
  assert (forall k j a, fits a -> phi k j -> phi k (assign_to j a)) as Ha.
  { intros k j a Hfit Hj. by destruct a. }
  assert (forall k j line a b c, phi k j -> phi k (logged cfg j line a b c))
    as Hl by done.
  assert (forall n k j, phi k j -> id j <> "" ->
            phi (id j) (_snapshot_for_meta n j)) as Hs.
  { intros n k j Hj Hne. unfold phi, _snapshot_for_meta.
    by destruct (_ <? _)%nat. }
  split.
  { intros p Hne. by apply (all_records_init_job phi). }
  split; [intros m; by apply (all_records_append_log cfg phi)|].
  split; [by apply (all_records_worker_turn cfg phi)|].
  split; [by apply (all_records_api_cancel cfg phi)|].
  split; [by apply (all_records_api_download phi)|].
  split; [intros since; by apply (all_records_api_status phi)|].
  split; [intros n f force; by apply (all_records_flush_meta_once phi)|].
  intros ret u.
  by apply (all_records_cleanup_round cfg phi Ha Hl (wall o) ret (u, w)).
Qed.

(** A new job is queued, worked on to the end, and flushed. *)
Lemma records_stay_keyed_witness :
  keyed
    (flush_meta_once 500 (fun _ => false) false
       (worker_turn Config.default Examples.smooth Examples.outputs_root
          Examples.sample_id Examples.queued)).2.
Proof.
  assert (keyed (mkWorld ∅ ∅ ∅ ∅ ∅ ∅ O [])) as H0.
  { split; intros k j; simpl; by rewrite lookup_empty. }
  pose proof (records_stay_keyed Config.default Examples.smooth
                Examples.outputs_root Examples.sample_id _ H0)
    as (H1 & _).
  pose proof (records_stay_keyed Config.default Examples.smooth
                Examples.outputs_root Examples.sample_id _
                (H1 Examples.upload ltac:(done)))
    as (_ & H2 & _).
  pose proof (records_stay_keyed Config.default Examples.smooth
                Examples.outputs_root Examples.sample_id _
                (H2 (py "📦 文件上传完成，任务已入队")))
    as (_ & _ & H3 & _).
  pose proof (records_stay_keyed Config.default Examples.smooth
                Examples.outputs_root Examples.sample_id _ H3)
    as (_ & _ & _ & _ & _ & _ & H4 & _).
  apply H4.
Defined.

End StateFacts.


(** ** The address of the general provider *)

Module UrlFacts.

Import Url.
Local Open Scope N_scope.

Lemma starts_with_app p x : starts_with p (p ++ x) = true.
Proof.
  induction p as [|a p IH]; [done|]. simpl. by rewrite N.eqb_refl, IH.
Qed.

Lemma endswith_app root suffix : endswith suffix (root ++ suffix) = true.
Proof. unfold endswith. rewrite rev_app_distr. apply starts_with_app. Qed.

Lemma lstrip_chars_app chars (slashes s : pystr) :
  Forall (fun c => one_of chars c = true) slashes ->
  lstrip_chars chars (slashes ++ s) = lstrip_chars chars s.
Proof.
  induction 1 as [|c slashes Hc _ IH]; [done|]. simpl. by rewrite Hc.
Qed.

Lemma rstrip_chars_app chars (s slashes : pystr) :
  Forall (fun c => one_of chars c = true) slashes ->
  rstrip_chars chars (s ++ slashes) = rstrip_chars chars s.
Proof.
  intros H. unfold rstrip_chars. rewrite rev_app_distr.
  rewrite lstrip_chars_app; [done|]. by apply Forall_rev.
Qed.

Lemma rstrip_chars_keep chars (s : pystr) c :
  one_of chars c = false -> rstrip_chars chars (s ++ [c]) = s ++ [c].
Proof.
  intros H. unfold rstrip_chars. rewrite rev_app_distr. simpl. rewrite H.
  change (c :: rev s) with (rev [c] ++ rev s).
  by rewrite <- rev_app_distr, rev_involutive.
Qed.

(** X24: the address does not depend on whether the configured base ends
    in [/v1], on slashes after it, or on the slashes in front of the path:
    for a root that does not end in [/v1], the root itself, the root
    followed by [/v1], and the setting [root/v1] followed by slashes all
    give the same address: the root, [/v1/] and the path without its
    leading slashes. *)
Theorem dg_url_normal root slashes path :
  endswith (py "/v1") root = false ->
  Forall (fun c => c = 0x2F) slashes ->
  dg_url root (slashes ++ path) =
    root ++ py "/v1/" ++ lstrip_chars (py "/") path /\
  dg_url (root ++ py "/v1") (slashes ++ path) = dg_url root path /\
  dg_url (DEEPGRAM_BASE_URL (root ++ py "/v1" ++ slashes)) path =
    dg_url root path.
Proof.
  intros Hroot Hsl.
  assert (Forall (fun c => one_of (py "/") c = true) slashes) as Hsl'.
  { eapply Forall_impl; [exact Hsl|]. by intros c ->. }
  assert (lstrip_chars (py "/") (slashes ++ path)
          = lstrip_chars (py "/") path) as Hstrip
    by by apply lstrip_chars_app.
  assert (forall p, dg_url (root ++ py "/v1") p = dg_url root p) as Hv1.
  { intros p. unfold dg_url. rewrite endswith_app, Hroot, length_app.
    replace (length root + length (py "/v1") - 3)%nat with (length root)
      by (change (length (py "/v1")) with 3%nat; lia).
    by rewrite firstn_app, firstn_all, Nat.sub_diag, firstn_O, app_nil_r. }
  split; [unfold dg_url; by rewrite Hroot, Hstrip|].
  split.
  - rewrite Hv1. unfold dg_url. by rewrite Hstrip.
  - unfold DEEPGRAM_BASE_URL. rewrite app_assoc, rstrip_chars_app by done.
    assert (rstrip_chars (py "/") (root ++ py "/v1") = root ++ py "/v1")
      as ->; [|apply Hv1].
    change (py "/v1") with (py "/v" ++ [0x31]). rewrite app_assoc.
    by apply rstrip_chars_keep.
Qed.

(** The default base without its [/v1], and a path with its slash. *)
Lemma dg_url_normal_witness :
  dg_url (py "https://api.deepgram.com") (py "/" ++ py "listen")
  = py "https://api.deepgram.com" ++ py "/v1/"
    ++ lstrip_chars (py "/") (py "listen") /\
  dg_url (py "https://api.deepgram.com" ++ py "/v1") (py "/" ++ py "listen")
  = dg_url (py "https://api.deepgram.com") (py "listen") /\
  dg_url (DEEPGRAM_BASE_URL (py "https://api.deepgram.com" ++ py "/v1"
                             ++ py "/")) (py "listen")
  = dg_url (py "https://api.deepgram.com") (py "listen").
Proof.
  apply (dg_url_normal (py "https://api.deepgram.com") (py "/")
           (py "listen")).
  - by vm_compute.
  - by repeat constructor.
Defined.

End UrlFacts.


(** ** The cues of one segment *)

Module CueFacts.

Import Text Srt.
Local Open Scope Q_scope.

(** The cues follow one another without a gap from [a] on: each starts
    where the one before it ends. *)
Fixpoint chained (a : Q) (cues : list cue) : Prop :=
  match cues with
  | [] => True
  | (s, e, _) :: rest => s == a /\ chained e rest
  end.

Lemma fix_overlaps_chained dur_ total_w seg_end lines :
  forall t prev_end,
    t <= prev_end ->
    chained prev_end
      (fix_overlaps prev_end (slice_lines dur_ total_w seg_end t lines)).
Proof.
  induction lines as [|line rest IH]; intros t prev_end Ht; [done|].
  destruct rest as [|line2 rest].
  { simpl. split; [|done]. SrtFacts.qlra. }
  change (slice_lines dur_ total_w seg_end t (line :: line2 :: rest))
    with ((t, Qmin seg_end (t + Qmax 0.3 (dur_ * (weight line / total_w))),
           line)
          :: slice_lines dur_ total_w seg_end
               (Qmin seg_end (t + Qmax 0.3 (dur_ * (weight line / total_w))))
               (line2 :: rest)).
  cbn [fix_overlaps chained]. split; [SrtFacts.qlra|].
  apply IH. SrtFacts.qlra.
Qed.

Lemma chained_last a before s e e' (txt : pystr) :
  chained a (before ++ [(s, e, txt)]) ->
  chained a (before ++ [(s, e', txt)]).
Proof.
  revert a. induction before as [|[[s0 e0] t0] before IH]; intros a; simpl.
  - tauto.
  - intros [H1 H2]. split; [done|]. by apply IH.
Qed.

Lemma snap_last_chained seg_end a fixed :
  chained a fixed -> chained a (snap_last seg_end fixed).
Proof.
  unfold snap_last. destruct fixed as [|c fixed _] using rev_ind; [done|].
  rewrite rev_app_distr. simpl. destruct c as [[s e] txt].
  rewrite rev_involutive. apply chained_last.
Qed.

(** X25: whatever the lines and their weights, the cues of a segment
    follow one another without a gap: the first starts at the start of the
    segment, and every further one starts where the one before it ends. *)
Theorem allocate_line_times_chained seg_start seg_end lines :
  chained seg_start (allocate_line_times seg_start seg_end lines).
Proof.
  unfold allocate_line_times.
  destruct lines as [|line rest]; [done|].
  destruct rest as [|line2 rest]; [by split|].
  apply snap_last_chained, fix_overlaps_chained. lra.
Qed.

End CueFacts.
